(** * LudicrousTrie: a shallow embedding of the versioned Merkle-Patricia trie

    The development follows the packages of the Go sources:
    - [encoding]: hex, compact and key-byte encodings of nibble paths;
    - [storagekey]: the composite (path, version) storage key;
    - [vectordb]: the append-only blob log ("fridge");
    - [versionnode], [integritynode], [storage], [ludicroustrie]: the
      node model, the finalizer and the trie engine;
    - [trie_model]: the contents of a tree in memory, its invariant and
      runs of calls; [reference]: the classical trie the root hash is
      compared with.

    The properties follow: the fridge, the encodings, the storage key, the
    trie engine at its boundary, the invariant under [update] and
    [remove], the public operations on the tries a run reaches, the
    root hash, [Commit], the fridge after a truncation, and the loading
    constructors with the state-database wrapper.

    Bytes are integers in [0, 256); Go slices are lists; an index or a
    slice bound out of range is a run-time panic, modelled by [Panic]. *)

From stdpp Require Import gmap list strings.
From Stdlib Require Import ZArith Lia.

Local Open Scope Z_scope.
Set Warnings "-register-all".

(** ** Outcomes of a Go call: a value, a run-time panic, or (for the lazy
    loading of stored nodes only) exhaustion of the load budget. *)

Inductive exec (A : Type) : Type :=
| Done (a : A)
| Panic
| OutOfFuel.
Arguments Done {A} a.
Arguments Panic {A}.
Arguments OutOfFuel {A}.

#[global] Instance exec_ret : MRet exec := fun A a => Done a.
#[global] Instance exec_bind : MBind exec := fun A B f m =>
  match m with
  | Done a => f a
  | Panic => Panic
  | OutOfFuel => OutOfFuel
  end.

Abbreviation bytes := (list Z).

(** [byte(x)]: truncation to 8 bits. *)
Definition byte (x : Z) : Z := x mod 256.

(** [l[i]] on a slice. *)
Definition at_index {A} (l : list A) (i : nat) : exec A :=
  match l !! i with
  | Some x => Done x
  | None => Panic
  end.

(** [l[i:]] and [l[:i]] on a slice. *)
Definition slice_from {A} (l : list A) (i : nat) : exec (list A) :=
  if (i <=? length l)%nat then Done (drop i l) else Panic.

Definition slice_to {A} (l : list A) (i : nat) : exec (list A) :=
  if (i <=? length l)%nat then Done (take i l) else Panic.

(** [bytes.Equal] *)
Definition bytes_Equal (a b : bytes) : bool := bool_decide (a = b).

(** [bytes.Compare]: lexicographic order of byte strings, the order of the
    backing store. *)
Fixpoint bytes_Compare (a b : bytes) : comparison :=
  match a, b with
  | [], [] => Eq
  | [], _ :: _ => Lt
  | _ :: _, [] => Gt
  | x :: a', y :: b' =>
      match x ?= y with
      | Eq => bytes_Compare a' b'
      | c => c
      end
  end.

Definition bytes_lt (a b : bytes) : Prop := bytes_Compare a b = Lt.

(** ** Package encoding *)

Module encoding.

Abbreviation Hex := (list Z).
Abbreviation Compact := (list Z).
Abbreviation Keybytes := (list Z).

Definition hexEncodingKeySize : nat := 65.
Definition hexEncodingTerm : Z := 16.

(** [func (kb Keybytes) Hex() Hex] *)
Definition Keybytes_Hex (kb : Keybytes) : Hex :=
  flat_map (fun b => [b / 16; b mod 16]) kb ++ [16].

(** [func decodeNibbles(nibbles []byte, bytes []byte)]: the bytes written to
    the destination, which every caller sizes as [len(nibbles)/2]; a
    dangling last nibble is an index panic at [nibbles[ni+1]]. *)
Fixpoint decodeNibbles (nibbles : list Z) : exec bytes :=
  match nibbles with
  | [] => Done []
  | [_] => Panic
  | hi :: lo :: rest =>
      bs ← decodeNibbles rest;
      Done (Z.lor (byte (Z.shiftl hi 4)) lo :: bs)
  end.

(** [func (h Hex) HasTerm() bool] *)
Definition HasTerm (h : Hex) : bool :=
  match last h with
  | Some t => t =? 16
  | None => false
  end.

(** [func (h Hex) Keybytes() Keybytes] *)
Definition Hex_Keybytes (h : Hex) : exec Keybytes :=
  let hex := if HasTerm h then take (length h - 1) h else h in
  if Nat.odd (length hex) then Panic else decodeNibbles hex.

(** [func (h Hex) Compact() Compact] *)
Definition Hex_Compact (h : Hex) : exec Compact :=
  let terminator := if HasTerm h then 1 else 0 in
  let hex := if HasTerm h then take (length h - 1) h else h in
  let buf0 := byte (Z.shiftl terminator 5) in
  if Nat.odd (length hex) then
    match hex with
    | first :: hex' =>
        bs ← decodeNibbles hex';
        Done (Z.lor (Z.lor buf0 (Z.shiftl 1 4)) first :: bs)
    | [] => Panic
    end
  else
    bs ← decodeNibbles hex;
    Done (buf0 :: bs).

(** [func (c Compact) IsLeaf() bool] *)
Definition Compact_IsLeaf (c : Compact) : exec bool :=
  c0 ← at_index c 0;
  Done (0 <? Z.land c0 (Z.shiftl 1 5)).

(** [func (c Compact) Hex() Hex] *)
Definition Compact_Hex (c : Compact) : exec Hex :=
  let base := Keybytes_Hex c in
  b0 ← at_index base 0;
  let base := if b0 <? 2 then take (length base - 1) base else base in
  b0 ← at_index base 0;
  let chop := 2 - Z.land b0 1 in
  slice_from base (Z.to_nat chop).

(** [func (h Hex) Join(suffix Hex) Hex] *)
Definition Join (h suffix : Hex) : Hex := h ++ suffix.

(** [func (h Hex) FillRemainingPath(v byte) Hex]: [copy] into the 65-byte
    buffer truncates a longer [h]; the last byte is then overwritten. *)
Definition FillRemainingPath (h : Hex) (v : Z) : Hex :=
  if HasTerm h then h
  else
    take (hexEncodingKeySize - 1)
         (h ++ replicate (hexEncodingKeySize - 1 - length h) v)
      ++ [hexEncodingTerm].

(** [func (h Hex) PrefixLen(o Hex) int] *)
Fixpoint PrefixLen (h o : Hex) : nat :=
  match h, o with
  | x :: h', y :: o' => if x =? y then S (PrefixLen h' o') else O
  | _, _ => O
  end.

(** A nibble proper, without the terminator. *)
Definition is_nibble (x : Z) : Prop := 0 <= x < 16.

(** The nibble expansion of a byte string, without the terminator. *)
Definition expand (bs : bytes) : Hex := flat_map (fun b => [b / 16; b mod 16]) bs.

End encoding.

(** ** Package storage: the composite storage key (key.go) *)

Module storagekey.
Import encoding.

Abbreviation Key := (list Z).

(** [binary.BigEndian.PutUint32] on a fresh 4-byte buffer. *)
Definition PutUint32 (v : Z) : bytes :=
  [byte (Z.shiftr v 24); byte (Z.shiftr v 16); byte (Z.shiftr v 8); byte v].

(** [binary.BigEndian.Uint32] *)
Definition Uint32 (b : bytes) : exec Z :=
  match b with
  | b0 :: b1 :: b2 :: b3 :: _ =>
      Done (Z.lor (Z.lor (Z.lor b3 (Z.shiftl b2 8)) (Z.shiftl b1 16))
                  (Z.shiftl b0 24))
  | _ => Panic
  end.

(** [func NewKey(path encoding.Hex, version uint32) Key] *)
Definition NewKey (path : Hex) (version : Z) : exec Key :=
  let oddLenKey :=
    negb (length path =? 65)%nat && (length path mod 2 =? 1)%nat in
  let p := if oddLenKey then path ++ [0] else path in
  let metadata := (if oddLenKey then 1 else 0) :: PutUint32 version in
  kb ← Hex_Keybytes p;
  Done (kb ++ metadata).

(** [func (k Key) path() encoding.Keybytes] *)
Definition Key_path (k : Key) : exec Keybytes :=
  if (5 <=? length k)%nat then Done (take (length k - 5) k) else Panic.

(** [func (k Key) Version() uint32] *)
Definition Key_Version (k : Key) : exec Z :=
  if (4 <=? length k)%nat then Uint32 (drop (length k - 4) k) else Panic.

(** [func (k Key) oddByte() byte] *)
Definition Key_oddByte (k : Key) : exec Z :=
  if (5 <=? length k)%nat then at_index k (length k - 5) else Panic.

(** [func (k Key) Rel(base encoding.Hex) encoding.Hex] *)
Definition Key_Rel (k : Key) (base : Hex) : exec Hex :=
  p ← Key_path k;
  slice_from (Keybytes_Hex p) (length base).

(** The paths the storage layer builds keys for: a prefix of at most 64
    nibbles, or a full 64-nibble path followed by the terminator. *)
Definition storage_path (P : Hex) : Prop :=
  (Forall is_nibble P /\ (length P <= 64)%nat)
  \/ (exists body, P = body ++ [16] /\ Forall is_nibble body
                   /\ length body = 64%nat).

(** The nibbles that are packed into bytes: an odd path gets a zero nibble. *)
Definition padded (P : Hex) : Hex :=
  if Nat.odd (length P) then P ++ [0] else P.

Definition odd_flag (P : Hex) : Z := if Nat.odd (length P) then 1 else 0.

End storagekey.

(** ** Package vectordb: the append-only blob log *)

Module vectordb.

Definition indexEntryLen : Z := 16.

(** The errors the operations return. *)
Inductive error : Type :=
| errClosed
| errOutOfRange (pos items : Z)
| errEOF
| errNegativeOffset
| errInvalidArgument.

(** An open file is its content; [None] is the nil file pointer left by
    [Close]. *)
Abbreviation file := (list Z).

Record VectorDB : Type := mkVectorDB {
  items : Z;
  index : option file;
  data : option file;
}.

Definition uint64 (x : Z) : Z := x mod 2 ^ 64.

Definition int64 (x : Z) : Z := (x + 2 ^ 63) mod 2 ^ 64 - 2 ^ 63.

(** [os.File.ReadAt(b, off)] for a buffer of [n] bytes: a short read is
    [io.EOF]; an empty buffer reads nothing and succeeds. *)
Definition ReadAt (f : file) (n : nat) (off : Z) : error + bytes :=
  if off <? 0 then inl errNegativeOffset
  else
    let got := take n (drop (Z.to_nat off) f) in
    if (length got <? n)%nat then inl errEOF else inr got.

(** [os.File.Truncate(size)]: cuts the file or extends it with zeros. *)
Definition file_Truncate (f : file) (size : Z) : error + file :=
  if size <? 0 then inl errInvalidArgument
  else
    let n := Z.to_nat size in
    inr (take n f ++ replicate (n - length f) 0).

(** [os.File.Write(b)] on a file opened with [O_APPEND]. *)
Definition file_Write (f : file) (b : bytes) : file := f ++ b.

Record indexEntry : Type := mkIndexEntry {
  offset : Z;
  length_ : Z;
}.

(** [binary.BigEndian.Uint64] / [PutUint64] on 8 bytes. *)
Definition Uint64 (b : bytes) : Z :=
  fold_left (fun acc x => acc * 256 + x) (take 8 b) 0.

Definition PutUint64 (v : Z) : bytes :=
  map (fun i => byte (Z.shiftr v (8 * (7 - Z.of_nat i)))) (seq 0 8).

(** [func indexOffset(pos int64) int64] *)
Definition indexOffset (pos : Z) : Z := int64 (pos * indexEntryLen).

(** [func (e *indexEntry) unmarshalBinary(b []byte) error] *)
Definition unmarshalBinary (b : bytes) : indexEntry :=
  mkIndexEntry (Uint64 (take 8 b)) (Uint64 (take 8 (drop 8 b))).

(** [func (e *indexEntry) marshallBinary() []byte] *)
Definition marshallBinary (e : indexEntry) : bytes :=
  PutUint64 (offset e) ++ PutUint64 (length_ e).

(** [func (f *VectorDB) checkIsOpen() error] *)
Definition checkIsOpen (f : VectorDB) : option error :=
  match index f, data f with
  | Some _, Some _ => None
  | _, _ => Some errClosed
  end.

(** [func (f *VectorDB) indexEntry(pos uint64)] on the
    open index file [idx]. *)
Definition indexEntry_at (idx : file) (pos : Z) : error + indexEntry :=
  match ReadAt idx (Z.to_nat indexEntryLen) (indexOffset (int64 pos)) with
  | inl e => inl e
  | inr b => inr (unmarshalBinary b)
  end.

(** [func (f *VectorDB) Get(pos uint64) ([]byte, error)] *)
Definition Get (f : VectorDB) (pos : Z) : error + bytes :=
  match index f, data f with
  | Some idx, Some dat =>
      if items f <=? pos then inl (errOutOfRange pos (items f))
      else
        match indexEntry_at idx pos with
        | inl e => inl e
        | inr entry =>
            ReadAt dat (Z.to_nat (length_ entry)) (int64 (offset entry))
        end
  | _, _ => inl errClosed
  end.

(** [func (f *VectorDB) Append(b []byte) error]: the fridge afterwards and
    the error returned. *)
Definition Append (f : VectorDB) (b : bytes) : VectorDB * option error :=
  match index f, data f with
  | Some idx, Some dat =>
      let offset := Z.of_nat (length dat) in
      let dat' := file_Write dat b in
      let entry := mkIndexEntry (uint64 offset) (uint64 (Z.of_nat (length b))) in
      let idx' := file_Write idx (marshallBinary entry) in
      (mkVectorDB (uint64 (items f + 1)) (Some idx') (Some dat'), None)
  | _, _ => (f, Some errClosed)
  end.

(** [func (f *VectorDB) Truncate(len uint64) error]: the fridge afterwards
    and the error returned.  [truncateDataFile] truncates [f.index], as
    the source does. *)
Definition Truncate (f : VectorDB) (len : Z) : VectorDB * option error :=
  match index f, data f with
  | Some idx, Some dat =>
      if items f <=? len then (f, Some (errOutOfRange len (items f)))
      else
        let newIndexFileSize := uint64 (len * indexEntryLen) in
        match file_Truncate idx (int64 newIndexFileSize) with
        | inl e => (mkVectorDB len (Some idx) (Some dat), Some e)
        | inr idx1 =>
            let f1 := mkVectorDB len (Some idx1) (Some dat) in
            match indexEntry_at idx1 len with
            | inl e => (f1, Some e)
            | inr lastEntry =>
                let newDataFileSize :=
                  uint64 (offset lastEntry + length_ lastEntry) in
                match file_Truncate idx1 (int64 newDataFileSize) with
                | inl e => (f1, Some e)
                | inr idx2 => (mkVectorDB len (Some idx2) (Some dat), None)
                end
            end
        end
  | _, _ => (f, Some errClosed)
  end.

(** [func (f *VectorDB) Items() uint64] *)
Definition Items (f : VectorDB) : Z := items f.

(** [func (f *VectorDB) Close() error] *)
Definition Close (f : VectorDB) : VectorDB * option error :=
  match checkIsOpen f with
  | Some e => (f, Some e)
  | None => (mkVectorDB (items f) None None, None)
  end.

(** The fridge [Open] returns for a directory that does not exist yet: no
    items, two empty files. *)
Definition Open_fresh : VectorDB := mkVectorDB 0 (Some []) (Some []).

(** Appending a sequence of blobs in order. *)
Definition append_all (f : VectorDB) (bs : list bytes) : VectorDB :=
  fold_left (fun f b => fst (Append f b)) bs f.

(** The fridge of the scenario: [{01}], [{02,02}], [{03,03,03}] appended to
    a freshly opened fridge. *)
Definition fridge3 : VectorDB := append_all Open_fresh [[1]; [2; 2]; [3; 3; 3]].

(** The bytes that appending the blobs [bs] adds to the index file of a
    fridge whose data file has [off] bytes: one entry for each blob, with
    the offset where the blob starts and its length. *)
Fixpoint index_image (off : Z) (bs : list bytes) : file :=
  match bs with
  | [] => []
  | b :: bs' =>
      marshallBinary (mkIndexEntry off (Z.of_nat (length b)))
        ++ index_image (off + Z.of_nat (length b)) bs'
  end.

End vectordb.

(** ** Package versionnode: the in-memory nodes *)

Module versionnode.
Import encoding.

(** [type KeySet map[string]uint32]; the key is the byte string of a path.
    A nil map reads like the empty map. *)
Abbreviation KeySet := (gmap (list Z) Z).

(** The implementations of the interface [Node].  [Nil], [Leaf], [Full] and
    [WithDeletedKeys] also implement [Live]; the field [node] of
    [WithDeletedKeys] has the static type [Live] in the source. *)
Inductive Node : Type :=
| Nil
| Leaf (Key : Hex) (value : bytes) (version : Z)
| Full (Key : Hex) (Children : list Node) (version : Z)
| Value (v : bytes)
| Hash (h : bytes)
| Stored (hash : bytes) (IsLeaf : bool) (version : Z)
| WithDeletedKeys (node : Node) (DeletedKeys : KeySet).

Definition NumChildren : nat := 16.

Abbreviation Children := (list Node).

(** [var children Children] with every slot set to [NewNil()]. *)
Definition NilChildren : Children := replicate NumChildren Nil.

(** The dynamic type test [n.(Live)]. *)
Definition isLive (n : Node) : bool :=
  match n with
  | Nil | Leaf _ _ _ | Full _ _ _ | WithDeletedKeys _ _ => true
  | Value _ | Hash _ | Stored _ _ _ => false
  end.

(** The dynamic type test for the nil node. *)
Definition isNil (n : Node) : bool :=
  match n with
  | Nil => true
  | _ => false
  end.

(** [func NewLeaf], [func NewFull]: the slices are copied. *)
Definition NewLeaf (key : Hex) (value : bytes) (version : Z) : Node :=
  Leaf key value version.

Definition NewFull (key : Hex) (children : Children) (version : Z) : Node :=
  Full key children version.

(** [children[i] = n] on the 16-slot array. *)
Definition set_child (c : Children) (i : nat) (n : Node) : exec Children :=
  if (i <? length c)%nat then Done (<[i := n]> c) else Panic.

(** [func (c Children) Replace(index byte, node Node) Children] *)
Definition Replace (c : Children) (index : Z) (n : Node) : exec Children :=
  set_child c (Z.to_nat index) n.

(** [func (c Children) LastLivingChild() (index int, onlyChild bool)] *)
Definition LastLivingChild (c : Children) : Z * bool :=
  fold_left
    (fun '(index, onlyChild) '(i, child) =>
       if isNil child then (index, onlyChild)
       else (Z.of_nat i, index =? -1))
    (imap (fun i child => (i, child)) c) (-1, false).

(** [func prefixContainedIn(prefix, path encoding.Hex, start int) bool] *)
Definition prefixContainedIn (prefix path : Hex) (start : nat) : exec bool :=
  rest ← slice_from path start;
  Done (PrefixLen prefix rest =? length prefix)%nat.

(** The method [PrefixContainedIn] of [Live]. *)
Fixpoint PrefixContainedIn (n : Node) (path : Hex) (start : nat) : exec bool :=
  match n with
  | Nil => Done false
  | Leaf key _ _ => prefixContainedIn key path start
  | Full key _ _ => prefixContainedIn key path start
  | WithDeletedKeys inner _ => PrefixContainedIn inner path start
  | Value _ | Hash _ | Stored _ _ _ => Panic
  end.

(** The method [Prefix] of [Live]. *)
Fixpoint Prefix (n : Node) : exec Hex :=
  match n with
  | Leaf key _ _ => Done key
  | Full key _ _ => Done key
  | WithDeletedKeys inner _ => Prefix inner
  | Nil | Value _ | Hash _ | Stored _ _ _ => Panic
  end.

(** The method [Version] of [Node]. *)
Fixpoint Version (n : Node) : exec Z :=
  match n with
  | Leaf _ _ version => Done version
  | Full _ _ version => Done version
  | Stored _ _ version => Done version
  | WithDeletedKeys inner _ => Version inner
  | Nil | Value _ | Hash _ => Panic
  end.

(** The method [ReplacePrefix] of [Live]. *)
Fixpoint ReplacePrefix (n : Node) (key : Hex) (version : Z) : exec Node :=
  match n with
  | Leaf _ value _ => Done (NewLeaf key value version)
  | Full _ children _ => Done (NewFull key children version)
  | WithDeletedKeys inner deleted =>
      inner' ← ReplacePrefix inner key version;
      Done (WithDeletedKeys inner' deleted)
  | Nil | Value _ | Hash _ | Stored _ _ _ => Panic
  end.

(** [func (n *Leaf) HasSameValue(value []byte) bool] *)
Definition HasSameValue (leafValue value : bytes) : bool :=
  bytes_Equal value leafValue.

(** [func NewKeySet], [Contains], [Remove] (a copy without the path) and
    [Merge] (the entries of [others] win). *)
Definition NewKeySet (key : Hex) (version : Z) : KeySet := {[ key := version ]}.

Definition Contains (ks : KeySet) (path : Hex) : bool :=
  bool_decide (is_Some (ks !! path)).

Definition Remove (ks : KeySet) (path : Hex) : KeySet := delete path ks.

Definition Merge (ks others : KeySet) : KeySet := others ∪ ks.

(** [func NewFullNodeWithTwoChildren] *)
Definition NewFullNodeWithTwoChildren (key : Hex) (firstChildIndex : Z)
    (firstChild : Node) (secondChildIndex : Z) (secondChild : Node)
    (version : Z) : exec Node :=
  children ← set_child NilChildren (Z.to_nat firstChildIndex) firstChild;
  children ← set_child children (Z.to_nat secondChildIndex) secondChild;
  Done (NewFull key children version).

(** The method [AddSibling] of [Live]; [key] is the rest of the path below
    the node, [fullPath] the whole path. *)
Fixpoint AddSibling (n : Node) (key fullPath : Hex) (value : bytes)
    (version : Z) : exec Node :=
  match n with
  | Nil => Done (NewLeaf key value version)
  | Leaf nKey nValue _ =>
      let matchlen := PrefixLen key nKey in
      let commonOffset := take matchlen key in
      currentChildIndex ← at_index nKey matchlen;
      rest ← slice_from nKey (matchlen + 1);
      let currentChild := NewLeaf rest nValue version in
      newChildIndex ← at_index key matchlen;
      newKey ← slice_from key (matchlen + 1);
      let newChild := NewLeaf newKey value version in
      NewFullNodeWithTwoChildren commonOffset currentChildIndex currentChild
        newChildIndex newChild version
  | Full nKey nChildren _ =>
      let matchlen := PrefixLen key nKey in
      let commonOffset := take matchlen key in
      updatedChildIndex ← at_index nKey matchlen;
      newOffset ← slice_from nKey (matchlen + 1);
      children ← set_child NilChildren (Z.to_nat updatedChildIndex)
                   (NewFull newOffset nChildren version);
      newChildIndex ← at_index key matchlen;
      newKey ← slice_from key (matchlen + 1);
      children ← set_child children (Z.to_nat newChildIndex)
                   (NewLeaf newKey value version);
      Done (NewFull commonOffset children version)
  | WithDeletedKeys inner deleted =>
      newNode ← AddSibling inner key fullPath value version;
      if negb (Contains deleted fullPath) then
        Done (WithDeletedKeys newNode deleted)
      else
        let remainingDeletedKeys := Remove deleted fullPath in
        if (size remainingDeletedKeys =? 0)%nat then Done newNode
        else Done (WithDeletedKeys newNode remainingDeletedKeys)
  | Value _ | Hash _ | Stored _ _ _ => Panic
  end.

End versionnode.

(** ** Package rlp: the items handed to the encoder

    The encoder itself and Keccak-256 are libraries outside the packages
    embedded here; they are parameters of the finalizer. *)

Module rlp.

Inductive item : Type :=
| String (b : bytes)
| List (l : list item).

(** [rlp.EmptyString] *)
Definition EmptyString : bytes := [128].

(** An unsigned integer is the string of its big-endian bytes without
    leading zeros. *)
Fixpoint strip_zeros (b : bytes) : bytes :=
  match b with
  | 0 :: b' => strip_zeros b'
  | _ => b
  end.

Definition Uint (x : Z) : item := String (strip_zeros (storagekey.PutUint32 x)).

End rlp.

(** ** Package integritynode: the nodes of the classical trie *)

Module integritynode.
Import encoding.

Definition numChildren : nat := 17.

Inductive Node : Type :=
| Nil
| Hash (h : bytes)
| Leaf (Key : Compact) (Value : bytes)
| Extension (Key : Compact) (Child : Node)
| Full (Children : list Node).

(** What the reflection-based encoder makes of a node: the nil node is the
    empty string, a hash a 32-byte string, a leaf and an extension the list
    of their two fields, a full node the list of its 17 children
    ([EncodeRLP]). *)
Fixpoint to_item (n : Node) : rlp.item :=
  match n with
  | Nil => rlp.String []
  | Hash h => rlp.String h
  | Leaf key value => rlp.List [rlp.String key; rlp.String value]
  | Extension key child => rlp.List [rlp.String key; to_item child]
  | Full children => rlp.List (map to_item children)
  end.

End integritynode.

(** ** Package storage: the collection and the finalizer *)

Module storage.
Import encoding storagekey versionnode.

(** The errors of the trie and of its storage. *)
Inductive error : Type :=
| errKeyNil
| errKeySize (key : bytes)
| errValueNil
| errValueReserved
| errUnsupportedNode
| errStorage (code : Z)
| errRootMismatch.

(** Results that carry a Go error. *)
Definition bind_res {A B} (m : exec (error + A)) (f : A -> exec (error + B))
  : exec (error + B) :=
  r ← m;
  match r with
  | inl e => Done (inl e)
  | inr a => f a
  end.

Notation "x ←? m ; k" := (bind_res m (fun x => k))
  (at level 20, m at level 100, k at level 200, only parsing).

(** [emptyRoot]: the root hash of an empty trie. *)
Definition emptyRoot : bytes :=
  [86; 232; 31; 23; 27; 204; 85; 166; 255; 131; 69; 230; 146; 192; 248; 110;
   91; 72; 224; 27; 153; 108; 173; 192; 1; 98; 47; 181; 227; 99; 180; 33].

(** [deletedValue = rlp.EmptyString] *)
Definition deletedValue : bytes := rlp.EmptyString.

Definition HashLength : nat := 32.
Definition numChildrenInRefFullNode : nat := 17.
Definition valueChildIndexInRefFullNode : nat := 16.

Definition doForceHash := true.
Definition doNotForceHash := false.
Definition doStore := true.
Definition doNotStore := false.

(** [type Collection]: the key prefix and the database, a map from keys to
    values. *)
Record Collection : Type := mkCollection {
  prefix : bytes;
  db : gmap (list Z) (list Z);
}.

Definition noPrefix : bytes := [].
Definition rootPath : Hex := [].

(** [func NewCollection], [func NewPrefixedCollection] *)
Definition NewPrefixedCollection (prefix : bytes) (db : gmap (list Z) (list Z))
  : Collection := mkCollection prefix db.

Definition NewCollection (db : gmap (list Z) (list Z)) : Collection :=
  NewPrefixedCollection noPrefix db.

(** A [Put] staged in a batch. *)
Definition put : Type := bytes * bytes.

(** [batch.Write()]: the staged puts, in order. *)
Definition batch_Write (c : Collection) (w : list put) : Collection :=
  mkCollection (prefix c)
    (fold_left (fun m '(k, v) => <[k := v]> m) w (db c)).

(** [func (c *Collection) maybeValuePrefix(key []byte) []byte]; 118 is the
    letter v and 110 the letter n. *)
Definition maybeValuePrefix (c : Collection) (key : bytes) : exec bytes :=
  if (length (prefix c) =? 0)%nat then Panic
  else Done (prefix c ++ [118] ++ key).

Definition maybeNonValuePrefix (c : Collection) (key : bytes) : exec bytes :=
  if (length (prefix c) =? 0)%nat then Panic
  else Done (prefix c ++ [110] ++ key).

(** [func (s *Collection) Store] and [StoreValue]: the put staged. *)
Definition Store (c : Collection) (path : Hex) (version : Z) (node : bytes)
  : exec put :=
  storageKey ← NewKey path version;
  k ← maybeNonValuePrefix c storageKey;
  Done (k, node).

Definition StoreValue (c : Collection) (path : Hex) (version : Z)
    (node : bytes) : exec put :=
  storageKey ← NewKey path version;
  k ← maybeValuePrefix c storageKey;
  Done (k, node).

(** [type ChildrenMask uint16] and its [Set]. *)
Definition ChildrenMask_Set (m : Z) (offset : nat) : Z :=
  Z.lor m (Z.shiftl 1 (Z.of_nat offset)) mod 2 ^ 16.

(** [func (m *ChildrenMask) Test(offset int) bool]; the constant 1 takes
    the type of the mask, so the shifted bit is cut to 16 bits. *)
Definition ChildrenMask_Test (m : Z) (offset : nat) : bool :=
  negb (Z.land m (Z.shiftl 1 (Z.of_nat offset) mod 2 ^ 16) =? 0).

(** [func representsLeafNode(n versionnode.Node) bool] *)
Fixpoint representsLeafNode (n : Node) : bool :=
  match n with
  | Leaf _ _ _ => true
  | Stored _ isLeaf _ => isLeaf
  | WithDeletedKeys inner _ => representsLeafNode inner
  | _ => false
  end.

(** The record [storage.Full] written for a full node, as the encoder
    sees it. *)
Definition Full_item (key : Compact) (livingChildrenMask leafChildrenMask : Z)
    (versions : list Z) (children : list integritynode.Node) : rlp.item :=
  rlp.List [rlp.String key; rlp.Uint livingChildrenMask;
            rlp.Uint leafChildrenMask; rlp.List (map rlp.Uint versions);
            rlp.List (map integritynode.to_item children)].

Section Finalizer.

(** [crypto.Keccak256Hash] and [rlp.EncodeToBytes]. *)
Variable Keccak256 : bytes -> bytes.
Variable EncodeToBytes : rlp.item -> bytes.

Definition encode (n : integritynode.Node) : bytes :=
  EncodeToBytes (integritynode.to_item n).

(** [func (f *Finalizer) finalizeLeafNode]: the integrity node and the puts
    staged; [store] stands for [batch != nil]. *)
Definition finalizeLeafNode (c : Collection) (key : Hex) (value : bytes)
    (version : Z) (path : Hex) (store forceHash : bool)
  : exec (error + integritynode.Node * list put) :=
  compactKey ← Hex_Compact key;
  let integrityLeaf := integritynode.Leaf compactKey value in
  let rlp := encode integrityLeaf in
  w1 ← (if forceHash && store
        then p ← Store c path version rlp; Done [p]
        else Done []);
  w2 ← (if store then
          let storagePath := Join path key in
          if negb (length storagePath =? 65)%nat then Panic
          else p ← StoreValue c storagePath version value; Done [p]
        else Done []);
  if (HashLength <=? length rlp)%nat || forceHash
  then Done (inr (integritynode.Hash (Keccak256 rlp), w1 ++ w2))
  else Done (inr (integrityLeaf, w1 ++ w2)).

(** [func canonicalFullNodeIntegrityNodeAndRLP] *)
Definition canonicalFullNodeIntegrityNodeAndRLP (full : integritynode.Node)
    (key : Hex) : exec (integritynode.Node * bytes) :=
  let integrityRLP := encode full in
  if (length key =? 0)%nat then Done (full, integrityRLP)
  else
    let child :=
      if (HashLength <=? length integrityRLP)%nat
      then integritynode.Hash (Keccak256 integrityRLP)
      else full in
    compactKey ← Hex_Compact key;
    let extension := integritynode.Extension compactKey child in
    Done (extension, encode extension).

(** [func (f *Finalizer) storeFullNode]: the put staged. *)
Definition storeFullNode (c : Collection) (key : Hex) (children : Children)
    (version : Z) (path : Hex) (integrityChildren : list integritynode.Node)
  : exec put :=
  acc ← foldl
    (fun acc '(i, child) =>
       '(storageChildren, versions, living, leaf) ← acc;
       '(storageChildren, versions, living) ←
          (if negb (isNil child) then
             ic ← at_index integrityChildren i;
             v ← Version child;
             Done (storageChildren ++ [ic], versions ++ [v],
                   ChildrenMask_Set living i)
           else Done (storageChildren, versions, living));
       let leaf := if representsLeafNode child
                   then ChildrenMask_Set leaf i else leaf in
       Done (storageChildren, versions, living, leaf))
    (Done ([], [], 0, 0))
    (imap (fun i child => (i, child)) children);
  let '(storageChildren, versions, living, leaf) := acc in
  compactKey ← Hex_Compact key;
  let storageEnc :=
    EncodeToBytes (Full_item compactKey living leaf versions storageChildren) in
  Store c path version storageEnc.

(** [func (f *Finalizer) finalize], with [finalizeFullNode] and
    [finalizeFullNodeChildren] unfolded in the case of a full node.  The
    tombstones of an overlay are staged in the order of [map_to_list]; the
    source ranges over a Go map, whose order is unspecified. *)
Fixpoint finalize (c : Collection) (n : Node) (path : Hex)
    (store forceHash : bool) {struct n}
  : exec (error + integritynode.Node * list put) :=
  match n with
  | Nil =>
      if forceHash then Done (inr (integritynode.Hash emptyRoot, []))
      else Done (inr (integritynode.Nil, []))
  | WithDeletedKeys inner deleted =>
      w ← (if store then
             foldr (fun '(p, version) acc =>
                      x ← StoreValue c p version deletedValue;
                      ws ← acc; Done (x :: ws))
                   (Done []) (map_to_list deleted)
           else Done []);
      r ←? finalize c inner path store forceHash;
      Done (inr (r.1, w ++ r.2))
  | Leaf key value version =>
      finalizeLeafNode c key value version path store forceHash
  | Full key children version =>
      let pathToChildren := path ++ key in
      r ←? (fix finalizeFullNodeChildren (cs : list Node) (i : nat)
              : exec (error + list integritynode.Node * list put) :=
              match cs with
              | [] => Done (inr ([], []))
              | child :: cs' =>
                  let pathToChild := pathToChildren ++ [byte (Z.of_nat i)] in
                  r ←? finalize c child pathToChild store doNotForceHash;
                  rs ←? finalizeFullNodeChildren cs' (S i);
                  Done (inr (r.1 :: rs.1, r.2 ++ rs.2))
              end) children O;
      let integrityChildren := r.1 ++ [integritynode.Nil] in
      let integrityFullNode := integritynode.Full integrityChildren in
      '(canonicalIntegrityNode, canonicalIntegrityRLP) ←
         canonicalFullNodeIntegrityNodeAndRLP integrityFullNode key;
      let hashed := (HashLength <=? length canonicalIntegrityRLP)%nat
                    || forceHash in
      w ← (if store && hashed
           then p ← storeFullNode c key children version path
                      integrityChildren;
                Done [p]
           else Done []);
      if hashed
      then Done (inr (integritynode.Hash (Keccak256 canonicalIntegrityRLP),
                      r.2 ++ w))
      else Done (inr (canonicalIntegrityNode, r.2 ++ w))
  | Stored hash _ _ => Done (inr (integritynode.Hash hash, []))
  | Value _ | Hash _ => Done (inl errUnsupportedNode)
  end.

(** [func (f *Finalizer) Finalize]: the hash or the error, and the
    collection after the batch, if any, has been written. *)
Definition Finalize (c : Collection) (n : Node) (path : Hex)
    (shouldStore forceHash : bool) : exec ((error + bytes) * Collection) :=
  r ← finalize c n path shouldStore forceHash;
  match r with
  | inl e => Done (inl e, c)
  | inr (i, w) =>
      let c' := if shouldStore then batch_Write c w else c in
      match i with
      | integritynode.Hash h => Done (inr h, c')
      | _ => Panic
      end
  end.

End Finalizer.

End storage.

(** ** Package ludicroustrie: the trie engine *)

Module ludicroustrie.
Import encoding versionnode storage.

Definition keySize : nat := 32.

(** [type LudicrousTrie]; the finalizer is the collection it wraps, and
    the logger is the [FakeLogger], whose [IsTrace] and [IsDebug] are the
    constant [shouldLog = false]. *)
Record LudicrousTrie : Type := mkTrie {
  version : Z;
  root : Node;
  storage_ : Collection;
}.

Definition uint32 (x : Z) : Z := x mod 2 ^ 32.

(** [func NewEmptyLudicrousTrie], [func NewEmptyPrefixedLudicrousTrie] *)
Definition NewEmptyLudicrousTrie (db : gmap (list Z) (list Z)) (version : Z)
  : LudicrousTrie :=
  mkTrie (uint32 (version + 1)) Nil (NewCollection db).

Definition NewEmptyPrefixedLudicrousTrie (prefix : bytes)
    (db : gmap (list Z) (list Z)) (version : Z) : LudicrousTrie :=
  mkTrie (uint32 (version + 1)) Nil (NewPrefixedCollection prefix db).

(** [func (t *LudicrousTrie) checkKey(key []byte) error]; a nil slice is
    [None]. *)
Definition checkKey (key : option bytes) : option error :=
  match key with
  | None => Some errKeyNil
  | Some k => if negb (length k =? keySize)%nat then Some (errKeySize k) else None
  end.

(** [func (t *LudicrousTrie) checkValue(key []byte) error] *)
Definition checkValue (value : option bytes) : option error :=
  match value with
  | None => Some errValueNil
  | Some v => if bytes_Equal v rlp.EmptyString then Some errValueReserved else None
  end.

(** [func wasDeleted(value []byte) bool] *)
Definition wasDeleted (value : bytes) : bool := bytes_Equal value deletedValue.

(** The statuses of the three descents with what they carry. *)
Inductive getResult : Type :=
| getFound (value : option bytes)
| getNotFound
| getFailed (err : error).

Inductive updateResult : Type :=
| updateUpdated (after : Node)
| updateNotUpdated
| updateFailed (err : error).

Inductive removeResult : Type :=
| removeRemoved (after : Node) (deletedKeys : KeySet)
| removeNotRemoved
| removeFailed (err : error).

(** [noDeletedKeys]: the nil key set. *)
Definition noDeletedKeys : KeySet := ∅.

(** [logTraceGet] slices [path[:index]] and [path[index:]] before it
    consults the logger. *)
Definition logTraceGet (path : Hex) (index : nat) : exec unit :=
  _ ← slice_to path index; _ ← slice_from path index; Done tt.

Definition get_Found (path : Hex) (index : nat) (value : option bytes)
  : exec getResult := _ ← logTraceGet path index; Done (getFound value).

Definition get_NotFound (path : Hex) (index : nat) : exec getResult :=
  _ ← logTraceGet path index; Done getNotFound.

Definition get_Failed (path : Hex) (index : nat) (err : error)
  : exec getResult := _ ← logTraceGet path index; Done (getFailed err).

(** [getFailedOrNotFound], applied to a result that is not [getFound], and
    [getFound] otherwise: what each case of [get] does with the result of
    its recursive call. *)
Definition get_return (path : Hex) (index : nat) (r : getResult)
  : exec getResult :=
  match r with
  | getFound value => get_Found path index value
  | getNotFound => get_NotFound path index
  | getFailed err => get_Failed path index err
  end.

(** [get] on a [versionnode.Value]. *)
Definition get_Value (value : option bytes) (path : Hex) (index : nat)
  : exec getResult :=
  match value with
  | Some v => if wasDeleted v then get_NotFound path index
              else get_Found path index value
  | None => get_Found path index value
  end.

(** The guard that opens the three descents: the node is [Live] and its
    prefix is not contained in the path at [index]. *)
Definition prefixMismatch (n : Node) (path : Hex) (index : nat) : exec bool :=
  if isLive n then
    contained ← PrefixContainedIn n path index; Done (negb contained)
  else Done false.

(** [n.Children[childRadix]] followed by a call on the child. *)
Definition with_child {A} (children : Children) (childRadix : Z)
    (f : Node -> exec A) : exec A :=
  (fix go (cs : list Node) (i : nat) : exec A :=
     match cs with
     | [] => Panic
     | c :: cs' =>
         match i with
         | O => f c
         | S i' => go cs' i'
         end
     end) children (Z.to_nat childRadix).

Section Engine.

Variable Keccak256 : bytes -> bytes.
Variable EncodeToBytes : rlp.item -> bytes.

(** The loaders of the collection; the decoding of stored records is not
    part of the embedding. *)
Variable LoadNode : Collection -> Hex -> Z -> exec (error + Node).
Variable LoadLeafNodeWithExactPrefixAndVersion :
  Collection -> Hex -> Z -> exec (error + Node).
Variable LoadLatestValueNodeWithExactPath :
  Collection -> Hex -> Z -> exec (error + option bytes).
Variable LoadLatestRootNode : Collection -> Z -> exec (error + Node).

(** [func (t *LudicrousTrie) get] *)
Fixpoint get (t : LudicrousTrie) (n : Node) (path : Hex) (index : nat)
    {struct n} : exec getResult :=
  mismatch ← prefixMismatch n path index;
  if (mismatch : bool) then get_NotFound path index
  else
    match n return exec getResult with
    | Value v => get_Value (Some v) path index
    | Leaf key value _ =>
        r ← get_Value (Some value) path (index + length key);
        get_return path index r
    | Full key children _ =>
        let childRadixIndex := (index + length key)%nat in
        childRadix ← at_index path childRadixIndex;
        r ← with_child children childRadix
              (fun child => get t child path (childRadixIndex + 1));
        get_return path index r
    | WithDeletedKeys inner deleted =>
        if Contains deleted path then get_NotFound path index
        else r ← get t inner path index; get_return path index r
    | Stored _ _ _ =>
        loaded ← LoadLatestValueNodeWithExactPath (storage_ t) path
                   (uint32 (version t - 1));
        match loaded with
        | inl err => get_Failed path index err
        | inr value =>
            r ← get_Value value path index; get_return path index r
        end
    | Nil | Hash _ => get_Failed path index errUnsupportedNode
    end.

(** [func (t *LudicrousTrie) Get(key []byte) ([]byte, error)] *)
Definition Get (t : LudicrousTrie) (key : option bytes)
  : exec (option bytes * option error) :=
  match checkKey key, key with
  | Some err, _ => Done (None, Some err)
  | None, None => Done (None, Some errKeyNil)
  | None, Some k =>
      r ← get t (root t) (Keybytes_Hex k) 0;
      match r with
      | getFound value => Done (value, None)
      | getNotFound => Done (None, None)
      | getFailed err => Done (None, Some err)
      end
  end.

(** [func prependToKey] *)
Definition prependToKey (node : Node) (prefix : Hex) (index : Z)
    (version : Z) : exec Node :=
  oldPrefix ← Prefix node;
  let updatedPrefix := prefix ++ [byte index] ++ oldPrefix in
  ReplacePrefix node updatedPrefix version.

(** [func (t *LudicrousTrie) loadChild] *)
Definition loadChild (t : LudicrousTrie) (path prefix : Hex) (index : Z)
    (isLeaf : bool) (version : Z) : exec (error + Node) :=
  let temp := path ++ prefix ++ [byte index] in
  if isLeaf
  then LoadLeafNodeWithExactPrefixAndVersion (storage_ t) temp version
  else LoadNode (storage_ t) temp version.

(** [func (t *LudicrousTrie) replaceChild] *)
Definition replaceChild (t : LudicrousTrie) (fullKey : Hex)
    (fullChildren : Children) (newChild : Node) (newChildRadix : Z)
    (path : Hex) : exec (error + Node) :=
  updatedChildren ← Replace fullChildren newChildRadix newChild;
  let '(childRadix, onlyChild) := LastLivingChild updatedChildren in
  if onlyChild then
    child ← at_index updatedChildren (Z.to_nat childRadix);
    match child with
    | Stored _ isLeaf childVersion =>
        loaded ←? loadChild t path fullKey childRadix isLeaf childVersion;
        r ← prependToKey loaded fullKey childRadix (version t);
        Done (inr r)
    | Value _ | Hash _ => Done (inl errUnsupportedNode)
    | _ =>
        r ← prependToKey child fullKey childRadix (version t);
        Done (inr r)
    end
  else Done (inr (NewFull fullKey updatedChildren (version t))).

(** [func (t *LudicrousTrie) loadForUpdate]; [loadForRemove] loads the
    same record. *)
Definition loadForUpdate (t : LudicrousTrie) (isLeaf : bool)
    (storedVersion : Z) (path : Hex) : exec (error + Node) :=
  if isLeaf
  then LoadLeafNodeWithExactPrefixAndVersion (storage_ t) path storedVersion
  else LoadNode (storage_ t) path storedVersion.

(** The check of a loaded node against the hash of its placeholder:
    [Finalize] without store and without forced hash, a panic on an error
    and on a different hash. *)
Definition checkLoaded (t : LudicrousTrie) (loaded : Node) (path : Hex)
    (hash : bytes) : exec unit :=
  r ← Finalize Keccak256 EncodeToBytes (storage_ t) loaded path
        doNotStore doNotForceHash;
  match r.1 with
  | inl _ => Panic
  | inr h => if bytes_Equal h hash then Done tt else Panic
  end.

(** [updateFailedOrNotUpdated] on a result that is not [updateUpdated]. *)
Definition updateFailedOrNotUpdated (r : updateResult) : updateResult :=
  match r with
  | updateFailed err => updateFailed err
  | _ => updateNotUpdated
  end.

(** [func (t *LudicrousTrie) update]; [loads] bounds the number of stored
    nodes that are loaded on the way down. *)
Fixpoint update (t : LudicrousTrie) (loads : nat)
  : Node -> Hex -> nat -> bytes -> exec updateResult :=
  fix update_node (before : Node) (path : Hex) (index : nat) (value : bytes)
      {struct before} : exec updateResult :=
    mismatch ← prefixMismatch before path index;
    if (mismatch : bool) then
      key ← slice_from path index;
      after ← AddSibling before key path value (version t);
      Done (updateUpdated after)
    else
      match before return exec updateResult with
      | Leaf key nValue _ =>
          if HasSameValue nValue value then Done updateNotUpdated
          else Done (updateUpdated (NewLeaf key value (version t)))
      | Full key children _ =>
          let childRadixIndex := (index + length key)%nat in
          childRadix ← at_index path childRadixIndex;
          r ← with_child children childRadix
                (fun child => update_node child path (childRadixIndex + 1)%nat
                                value);
          match r with
          | updateUpdated afterChild =>
              pathToNode ← slice_to path index;
              after ← replaceChild t key children afterChild childRadix
                        pathToNode;
              match after with
              | inl err => Done (updateFailed err)
              | inr after => Done (updateUpdated after)
              end
          | _ => Done (updateFailedOrNotUpdated r)
          end
      | WithDeletedKeys inner deleted =>
          r ← update_node inner path index value;
          match r with
          | updateUpdated after =>
              if Contains deleted path then
                let withoutKey := Remove deleted path in
                Done (updateUpdated (WithDeletedKeys after withoutKey))
              else Done (updateUpdated (WithDeletedKeys after deleted))
          | _ => Done (updateFailedOrNotUpdated r)
          end
      | Stored hash isLeaf storedVersion =>
          pathToNode ← slice_to path index;
          loaded ← loadForUpdate t isLeaf storedVersion pathToNode;
          match loaded with
          | inl err => Done (updateFailed err)
          | inr loaded =>
              _ ← checkLoaded t loaded path hash;
              match loads with
              | O => OutOfFuel
              | S loads' =>
                  r ← update t loads' loaded path index value;
                  match r with
                  | updateUpdated after => Done (updateUpdated after)
                  | _ => Done (updateFailedOrNotUpdated r)
                  end
              end
          end
      | Nil | Value _ | Hash _ => Done (updateFailed errUnsupportedNode)
      end.

(** [func (t *LudicrousTrie) Update(key, value []byte) error]: the trie
    afterwards, the status of the descent when there was one, and the
    error returned. *)
Definition Update_status (t : LudicrousTrie) (loads : nat)
    (key value : option bytes)
  : exec (LudicrousTrie * option updateResult * option error) :=
  match checkKey key, key with
  | Some err, _ => Done (t, None, Some err)
  | None, None => Done (t, None, Some errKeyNil)
  | None, Some k =>
      match checkValue value, value with
      | Some err, _ => Done (t, None, Some err)
      | None, None => Done (t, None, Some errValueNil)
      | None, Some v =>
          r ← update t loads (root t) (Keybytes_Hex k) 0 v;
          match r with
          | updateUpdated updated =>
              Done (mkTrie (version t) updated (storage_ t), Some r, None)
          | updateNotUpdated => Done (t, Some r, None)
          | updateFailed err => Done (t, Some r, Some err)
          end
      end
  end.

Definition Update (t : LudicrousTrie) (loads : nat) (key value : option bytes)
  : exec (LudicrousTrie * option error) :=
  r ← Update_status t loads key value; Done (r.1.1, r.2).

(** [removeFailedOrNotRemoved] on a result that is not [removeRemoved]. *)
Definition removeFailedOrNotRemoved (r : removeResult) : removeResult :=
  match r with
  | removeFailed err => removeFailed err
  | _ => removeNotRemoved
  end.

(** [func (t *LudicrousTrie) remove] *)
Fixpoint remove (t : LudicrousTrie) (loads : nat)
  : Node -> Hex -> nat -> exec removeResult :=
  fix remove_node (before : Node) (path : Hex) (index : nat)
      {struct before} : exec removeResult :=
    mismatch ← prefixMismatch before path index;
    if (mismatch : bool) then Done removeNotRemoved
    else
      match before return exec removeResult with
      | Leaf key nValue _ =>
          if wasDeleted nValue then Panic
          else Done (removeRemoved Nil (NewKeySet path (version t)))
      | Full key children _ =>
          let childRadixIndex := (index + length key)%nat in
          childRadix ← at_index path childRadixIndex;
          r ← with_child children childRadix
                (fun child => remove_node child path (childRadixIndex + 1)%nat);
          match r with
          | removeRemoved afterChild deletedKeys =>
              pathToNode ← slice_to path index;
              after ← replaceChild t key children afterChild childRadix
                        pathToNode;
              match after with
              | inl err => Done (removeFailed err)
              | inr after =>
                  if (size deletedKeys =? 0)%nat
                  then Done (removeRemoved after noDeletedKeys)
                  else Done (removeRemoved (WithDeletedKeys after deletedKeys)
                               noDeletedKeys)
              end
          | _ => Done (removeFailedOrNotRemoved r)
          end
      | WithDeletedKeys inner deleted =>
          if Contains deleted path then Done removeNotRemoved
          else
            r ← remove_node inner path index;
            match r with
            | removeRemoved after newDeletedKeys =>
                let allDeletedKeys := Merge deleted newDeletedKeys in
                if isNil after then Done (removeRemoved after allDeletedKeys)
                else Done (removeRemoved (WithDeletedKeys after allDeletedKeys)
                             noDeletedKeys)
            | _ => Done (removeFailedOrNotRemoved r)
            end
      | Stored hash isLeaf storedVersion =>
          pathToNode ← slice_to path index;
          loaded ← loadForUpdate t isLeaf storedVersion pathToNode;
          match loaded with
          | inl err => Done (removeFailed err)
          | inr loaded =>
              rest ← slice_from path index;
              _ ← checkLoaded t loaded rest hash;
              match loads with
              | O => OutOfFuel
              | S loads' =>
                  r ← remove t loads' loaded path index;
                  match r with
                  | removeRemoved after newDeletedKeys =>
                      Done (removeRemoved after newDeletedKeys)
                  | _ => Done (removeFailedOrNotRemoved r)
                  end
              end
          end
      | Nil | Value _ | Hash _ => Done (removeFailed errUnsupportedNode)
      end.

(** [func (t *LudicrousTrie) Remove(key []byte) error] *)
Definition Remove_status (t : LudicrousTrie) (loads : nat)
    (key : option bytes)
  : exec (LudicrousTrie * option removeResult * option error) :=
  match checkKey key, key with
  | Some err, _ => Done (t, None, Some err)
  | None, None => Done (t, None, Some errKeyNil)
  | None, Some k =>
      r ← remove t loads (root t) (Keybytes_Hex k) 0;
      match r with
      | removeRemoved newRoot deletedKeys =>
          let newRoot :=
            if isNil newRoot && (0 <? size deletedKeys)%nat
            then WithDeletedKeys newRoot deletedKeys else newRoot in
          Done (mkTrie (version t) newRoot (storage_ t), Some r, None)
      | removeNotRemoved => Done (t, Some r, None)
      | removeFailed err => Done (t, Some r, Some err)
      end
  end.

Definition Remove (t : LudicrousTrie) (loads : nat) (key : option bytes)
  : exec (LudicrousTrie * option error) :=
  r ← Remove_status t loads key; Done (r.1.1, r.2).

(** [func (t *LudicrousTrie) Hash() (common.Hash, error)], with the
    collection afterwards. *)
Definition Hash_ (t : LudicrousTrie) : exec ((error + bytes) * Collection) :=
  Finalize Keccak256 EncodeToBytes (storage_ t) (root t) [] doNotStore
    doForceHash.

(** [func (t *LudicrousTrie) Commit() (common.Hash, error)] *)
Definition Commit (t : LudicrousTrie)
  : exec ((error + bytes) * LudicrousTrie) :=
  let t1 := mkTrie (uint32 (version t + 1)) (root t) (storage_ t) in
  r ← Finalize Keccak256 EncodeToBytes (storage_ t1) (root t1) [] doStore
        doForceHash;
  Done (r.1, mkTrie (version t1) (root t1) r.2).

(** [trie.root = root] *)
Definition set_root (t : LudicrousTrie) (n : Node) : LudicrousTrie :=
  mkTrie (version t) n (storage_ t).

(** What the two loading constructors do once the root is in place: the
    root is finalized without a store and its hash compared with the
    requested one. *)
Definition checkRoot (trie : LudicrousTrie) (hash : bytes)
  : exec (error + LudicrousTrie) :=
  r ← Finalize Keccak256 EncodeToBytes (storage_ trie) (root trie) rootPath
        doNotStore doForceHash;
  match r.1 with
  | inl err => Done (inl err)
  | inr rootHash =>
      if negb (bytes_Equal rootHash hash) then Done (inl errRootMismatch)
      else Done (inr (mkTrie (version trie) (root trie) r.2))
  end.

(** [func NewPrefixedLudicrousTrie] and [func NewLudicrousTrie] *)
Definition NewPrefixedLudicrousTrie (prefix : bytes)
    (db : gmap (list Z) (list Z)) (hash : bytes) (version : Z)
  : exec (error + LudicrousTrie) :=
  let trie := NewEmptyPrefixedLudicrousTrie prefix db version in
  trie ←? (if negb (bytes_Equal hash emptyRoot)
           then root ←? LoadNode (storage_ trie) rootPath version;
                Done (inr (set_root trie root))
           else Done (inr trie));
  checkRoot trie hash.

Definition NewLudicrousTrie (db : gmap (list Z) (list Z)) (hash : bytes)
    (version : Z) : exec (error + LudicrousTrie) :=
  NewPrefixedLudicrousTrie noPrefix db hash version.

(** [func NewPrefixedLudicrousTrieAtLatestVersion] *)
Definition NewPrefixedLudicrousTrieAtLatestVersion (prefix : bytes)
    (db : gmap (list Z) (list Z)) (hash : bytes) (version : Z)
  : exec (error + LudicrousTrie) :=
  let trie := NewEmptyPrefixedLudicrousTrie prefix db version in
  trie ←? (if negb (bytes_Equal hash emptyRoot)
           then root ←? LoadLatestRootNode (storage_ trie) version;
                Done (inr (set_root trie root))
           else Done (inr trie));
  checkRoot trie hash.

(** [common.Hash{}]: 32 zero bytes. *)
Definition zeroHash : bytes := replicate 32 0.

(** [func (db *turboTrieStateDB) OpenTrie] and [OpenStorageTrie]; 121 is
    the letter y and 120 the letter x.  The wrapper returned is the trie
    it wraps. *)
Definition OpenTrie (db : gmap (list Z) (list Z)) (root : bytes) (version : Z)
  : exec (error + LudicrousTrie) :=
  let prefix := [121] in
  if bytes_Equal root zeroHash
  then Done (inr (NewEmptyPrefixedLudicrousTrie prefix db version))
  else NewPrefixedLudicrousTrie prefix db root version.

Definition OpenStorageTrie (db : gmap (list Z) (list Z))
    (addrHash root : bytes) (version : Z) : exec (error + LudicrousTrie) :=
  let prefix := [120] ++ addrHash in
  if bytes_Equal root zeroHash
  then Done (inr (NewEmptyPrefixedLudicrousTrie prefix db version))
  else NewPrefixedLudicrousTrieAtLatestVersion prefix db root version.

(** [crypto.Keccak256(key)]: a nil key is hashed as the empty input. *)
Definition hashKey (key : option bytes) : option bytes :=
  Some (Keccak256 (default [] key)).

(** [func (t *turboTrieWrapper) TryGet], [TryUpdate], [TryDelete] *)
Definition TryGet (t : LudicrousTrie) (key : option bytes)
  : exec (option bytes * option error) :=
  Get t (hashKey key).

Definition TryUpdate (t : LudicrousTrie) (loads : nat)
    (key value : option bytes) : exec (LudicrousTrie * option error) :=
  Update t loads (hashKey key) value.

Definition TryDelete (t : LudicrousTrie) (loads : nat) (key : option bytes)
  : exec (LudicrousTrie * option error) :=
  Remove t loads (hashKey key).

(** [func (t *turboTrieWrapper) Hash() common.Hash]: an error of the
    wrapped [Hash] is a panic. *)
Definition wrapper_Hash (t : LudicrousTrie) : exec (bytes * Collection) :=
  r ← Hash_ t;
  match r.1 with
  | inl err => Panic
  | inr hash => Done (hash, r.2)
  end.

End Engine.

End ludicroustrie.

(** ** What a trie holds, and the shape it keeps *)

Module trie_model.
Import encoding versionnode storage ludicroustrie.

(** The union of [f i c] over the children [c] at the slots [i, i+1, ...]. *)
Definition children_union (f : nat -> Node -> gmap (list Z) (list Z))
    (cs : list Node) (i : nat) : gmap (list Z) (list Z) :=
  (fix go (cs : list Node) (i : nat) : gmap (list Z) (list Z) :=
     match cs with
     | [] => ∅
     | c :: cs' => f i c ∪ go cs' (S i)
     end) cs i.

(** The path of the child in slot [i] of a full node with prefix [k] that
    sits at [pre]. *)
Definition child_path (pre k : Hex) (i : nat) : Hex :=
  (pre ++ k) ++ [Z.of_nat i].

(** The map from full paths to values that the subtree [n] at the path
    [pre] holds in memory: the leaves below it, without the paths that an
    overlay on the way marks as deleted. *)
Fixpoint contents (pre : Hex) (n : Node) : gmap (list Z) (list Z) :=
  match n with
  | Leaf k v _ => {[ pre ++ k := v ]}
  | Full k cs _ => children_union (fun i c => contents (child_path pre k i) c) cs 0
  | WithDeletedKeys inner deleted =>
      filter (fun e => deleted !! e.1 = None) (contents pre inner)
  | Nil | Value _ | Hash _ | Stored _ _ _ => ∅
  end.

(** The number of living (non-nil) children. *)
Definition living (cs : list Node) : nat :=
  length (List.filter (fun c => negb (isNil c)) cs).

(** A path that ends with the terminator and has nibbles before it. *)
Definition terminated (p : Hex) : Prop :=
  exists body, p = body ++ [16] /\ Forall is_nibble body.

(** The length of a full path: 64 nibbles and the terminator. *)
Definition pathLen : nat := 65.

(** The subtrees that [Update] and [Remove] build in memory at the path
    [pre]: leaves that end a full path with a live value, full nodes with
    sixteen slots of which two or more live, overlays whose tombstones lie
    below them and hide no value. *)
Inductive wf : Hex -> Node -> Prop :=
| wf_Leaf pre k v ver :
    (length pre + length k = pathLen)%nat -> terminated k ->
    v <> deletedValue ->
    wf pre (Leaf k v ver)
| wf_Full pre k cs ver :
    Forall is_nibble k ->
    (length pre + length k + 2 <= pathLen)%nat ->
    length cs = NumChildren ->
    (forall i c, cs !! i = Some c -> c = Nil \/ wf (child_path pre k i) c) ->
    (2 <= living cs)%nat ->
    wf pre (Full k cs ver)
| wf_WithDeletedKeys pre n deleted :
    wf pre n ->
    (forall p, is_Some (deleted !! p) ->
               pre `prefix_of` p /\ contents pre n !! p = None) ->
    wf pre (WithDeletedKeys n deleted).

(** The roots: the nil node, alone or under an overlay, or a subtree. *)
Definition wf_root (n : Node) : Prop :=
  n = Nil \/ (exists deleted, n = WithDeletedKeys Nil deleted) \/ wf [] n.

(** Every full node reachable in memory has two living children or more. *)
Fixpoint canonical_shape (n : Node) : bool :=
  match n with
  | Full _ cs _ => (2 <=? living cs)%nat && forallb canonical_shape cs
  | WithDeletedKeys inner _ => canonical_shape inner
  | _ => true
  end.

(** The calls of a client, and a run of them from a trie. *)
Inductive op : Type :=
| OpUpdate (key value : option bytes)
| OpRemove (key : option bytes).

Definition is_byte (x : Z) : Prop := 0 <= x < 256.

Definition is_bytes (b : option bytes) : Prop :=
  match b with
  | Some l => Forall is_byte l
  | None => True
  end.

Definition well_typed (o : op) : Prop :=
  match o with
  | OpUpdate key value => is_bytes key /\ is_bytes value
  | OpRemove key => is_bytes key
  end.

Section Run.

Variable Keccak256 : bytes -> bytes.
Variable EncodeToBytes : rlp.item -> bytes.
Variable LoadNode : Collection -> Hex -> Z -> exec (error + Node).
Variable LoadLeaf : Collection -> Hex -> Z -> exec (error + Node).
Variable loads : nat.

Definition apply_op (t : LudicrousTrie) (o : op) : exec LudicrousTrie :=
  match o with
  | OpUpdate key value =>
      r ← Update Keccak256 EncodeToBytes LoadNode LoadLeaf t loads key value;
      Done r.1
  | OpRemove key =>
      r ← Remove Keccak256 EncodeToBytes LoadNode LoadLeaf t loads key;
      Done r.1
  end.

Fixpoint run (t : LudicrousTrie) (ops : list op) : exec LudicrousTrie :=
  match ops with
  | [] => Done t
  | o :: ops' => t' ← apply_op t o; run t' ops'
  end.

End Run.

(** A path of the trie in full: the 64 nibbles of a key and the
    terminator. *)
Definition full_path (path : Hex) : Prop :=
  terminated path /\ length path = pathLen.

(** The result of [get] for the entry of a path in the contents. *)
Definition of_lookup (o : option bytes) : getResult :=
  match o with
  | Some v => getFound (Some v)
  | None => getNotFound
  end.

(** The keys [checkKey] accepts and the values [checkValue] accepts. *)
Definition valid_key (k : bytes) : Prop :=
  length k = keySize /\ Forall is_byte k.

Definition valid_value (v : bytes) : Prop :=
  Forall is_byte v /\ v <> rlp.EmptyString.

(** Concrete stand-ins for the libraries and the loaders, for the closed
    examples: a hash that returns its input and loaders that fail. *)
Definition idKeccak (b : bytes) : bytes := b.
Definition nullEncode (i : rlp.item) : bytes := [].
(** A stand-in for the hash of the keys that returns 32 bytes for every
    input: the input cut or padded with zeros. *)
Definition padKeccak (b : bytes) : bytes :=
  map byte (take 32 (b ++ replicate 32 0)).
Definition noNode (c : Collection) (p : Hex) (v : Z) : exec (error + Node) :=
  Done (inl (errStorage 0)).
Definition noValue (c : Collection) (p : Hex) (v : Z)
  : exec (error + option bytes) := Done (inl (errStorage 0)).

(** A key the public boundary rejects: nil, or not 32 bytes long. *)
Definition bad_key (key : option bytes) : Prop :=
  match key with
  | None => True
  | Some k => length k <> keySize
  end.

(** A value [Update] rejects: nil, or the reserved empty RLP string. *)
Definition bad_value (value : option bytes) : Prop :=
  value = None \/ value = Some rlp.EmptyString.

(** The keys 00..00, 00..01 and 00..02 and the trie of the scenario:
    the three keys inserted, the second removed. *)
Definition key_ending (last : Z) : option bytes := Some (replicate 31 0 ++ [last]).

Definition do_Update (t : LudicrousTrie) (key value : option bytes)
  : LudicrousTrie :=
  match ludicroustrie.Update idKeccak nullEncode noNode noNode t 0 key value with
  | Done (t', _) => t'
  | _ => t
  end.

Definition do_Remove (t : LudicrousTrie) (key : option bytes) : LudicrousTrie :=
  match ludicroustrie.Remove idKeccak nullEncode noNode noNode t 0 key with
  | Done (t', _) => t'
  | _ => t
  end.

Definition overlay_trie : LudicrousTrie :=
  do_Remove
    (do_Update
       (do_Update
          (do_Update (NewEmptyLudicrousTrie ∅ 0) (key_ending 0) (Some [0]))
          (key_ending 1) (Some [1]))
       (key_ending 2) (Some [2]))
    (key_ending 1).




End trie_model.

(** ** The reference trie *)

Module reference.
Import encoding.

(** Modelled from the spec: the classical hexary Merkle-Patricia trie that
    the root hash is compared with.  A key is read as its nibbles, high
    nibble first, with the terminator after them. *)
Fixpoint key_nibbles (k : bytes) : Hex :=
  match k with
  | [] => [16]
  | b :: k' => b / 16 :: b mod 16 :: key_nibbles k'
  end.

(** Modelled from the spec: two nibbles make a byte, the high nibble
    first. *)
Fixpoint pack (l : Hex) : bytes :=
  match l with
  | hi :: lo :: rest => 16 * hi + lo :: pack rest
  | _ => []
  end.

(** Modelled from the spec: the compact encoding.  The high nibble of the
    first byte holds the leaf flag (the path ends with the terminator) and
    the odd-length flag; its low nibble is the first nibble of an odd path
    and zero otherwise. *)
Definition to_compact (h : Hex) : bytes :=
  let is_leaf := bool_decide (last h = Some 16) in
  let nibbles := if is_leaf then take (length h - 1) h else h in
  let flag := if is_leaf then 2 else 0 in
  if Nat.odd (length nibbles) then pack (flag + 1 :: nibbles)
  else pack (flag :: 0 :: nibbles).

Section Trie.

Variable Keccak256 : bytes -> bytes.
Variable EncodeToBytes : rlp.item -> bytes.

(** Modelled from the spec: the encoding of a node of the classical
    trie. *)
Definition encode (n : integritynode.Node) : bytes :=
  EncodeToBytes (integritynode.to_item n).

(** Modelled from the spec: a node whose encoding has 32 bytes or more is
    referred to by its hash, a shorter one is held inline. *)
Definition cap (n : integritynode.Node) : integritynode.Node :=
  if (length (encode n) <? 32)%nat then n
  else integritynode.Hash (Keccak256 (encode n)).

(** Modelled from the spec: the length of the prefix that [p] shares with
    every path of [J]. *)
Definition shared (J : gmap Hex bytes) (p : Hex) : nat :=
  foldr (fun e l => Nat.min (PrefixLen p e.1) l) (length p) (map_to_list J).

(** Modelled from the spec: the node for the pairs [J], whose paths agree
    on their first [i] nibbles.  One pair is a leaf with the rest of its
    path; more pairs are a full node at the end of their shared prefix, with
    the pairs divided by their next nibble into sixteen children and an
    empty value slot, under an extension for the part of the shared prefix
    after [i], if any. *)
Fixpoint structure (fuel : nat) (J : gmap Hex bytes) (i : nat)
  : integritynode.Node :=
  match fuel with
  | O => integritynode.Nil
  | S fuel' =>
      match map_to_list J with
      | [] => integritynode.Nil
      | [(p, v)] => integritynode.Leaf (to_compact (drop i p)) v
      | (p, _) :: _ =>
          let j := shared J p in
          let child (r : nat) :=
            let Jr := filter (fun e => e.1 !! j = Some (Z.of_nat r)) J in
            if decide (Jr = ∅) then integritynode.Nil
            else cap (structure fuel' Jr (S j)) in
          let branch :=
            integritynode.Full (map child (seq 0 16) ++ [integritynode.Nil]) in
          if (i <? j)%nat
          then integritynode.Extension
                 (to_compact (take (j - i) (drop i p))) (cap branch)
          else branch
      end
  end.

(** Modelled from the spec: the root hash is the hash of the encoding of
    the root node, the empty string for no pairs.  A path has 65 entries,
    so 66 levels are enough. *)
Definition root_hash (J : gmap Hex bytes) : bytes :=
  Keccak256 (encode (structure 66 J 0)).

End Trie.

(** Modelled from the spec: the pairs as a map from paths to values; a
    later pair replaces an earlier one with the same key. *)
Definition pairs_map (pairs : list (bytes * bytes)) : gmap Hex bytes :=
  foldl (fun m kv => <[key_nibbles kv.1 := kv.2]> m) ∅ pairs.

End reference.

(* ===================================================================== *)
(** * Properties *)
(* ===================================================================== *)

(** ** The fridge scenario *)

Module vectordb_props.
Import vectordb.

Example fridge3_Items : Items fridge3 = 3.
Proof. reflexivity. Qed.

Example fridge3_Get :
  Get fridge3 0 = inr [1] /\ Get fridge3 1 = inr [2; 2]
  /\ Get fridge3 2 = inr [3; 3; 3].
Proof. repeat split; reflexivity. Qed.

(** C8 (the code at the scenario): [Truncate 2] on the three-item fridge
    does not return nil: the index file is cut to two entries first and the
    entry at position 2 is read afterwards, which is a short read, so the
    call returns [io.EOF].  The item count has already been lowered, so the
    reads of the scenario behave as stated: [Get 2] fails, [Get 0] and
    [Get 1] return the first two blobs. *)
Theorem C8_Truncate_returns_EOF :
  snd (Truncate fridge3 2) = Some errEOF
  /\ Items (fst (Truncate fridge3 2)) = 2
  /\ Get (fst (Truncate fridge3 2)) 2 = inl (errOutOfRange 2 2)
  /\ Get (fst (Truncate fridge3 2)) 0 = inr [1]
  /\ Get (fst (Truncate fridge3 2)) 1 = inr [2; 2].
Proof. repeat split; vm_compute; reflexivity. Qed.

(** Every in-range [Truncate] of an open fridge whose index file holds
    exactly [items] entries fails in the same way. *)
Lemma Truncate_in_range_fails (idx dat : file) (n len : Z) :
  0 <= len < n -> n < 2 ^ 59 ->
  Z.of_nat (length idx) = n * indexEntryLen ->
  snd (Truncate (mkVectorDB n (Some idx) (Some dat)) len) = Some errEOF.
Proof.
  intros Hlen Hn Hidx. unfold Truncate; simpl.
  destruct (n <=? len) eqn:E; [apply Z.leb_le in E; lia|].
  assert (Hu : uint64 (len * indexEntryLen) = len * 16).
  { unfold uint64, indexEntryLen. apply Z.mod_small. lia. }
  rewrite Hu.
  assert (Hi : int64 (len * 16) = len * 16).
  { unfold int64. rewrite Z.mod_small by lia. lia. }
  rewrite Hi. unfold file_Truncate.
  destruct (len * 16 <? 0) eqn:E2; [apply Z.ltb_lt in E2; lia|].
  unfold indexEntry_at, indexOffset, indexEntryLen.
  assert (Hp : int64 len = len) by (unfold int64; rewrite Z.mod_small by lia; lia).
  rewrite Hp, Hi. unfold ReadAt. rewrite E2.
  set (got := take _ (drop _ _)).
  assert (Hg : length got = 0%nat).
  { unfold got. rewrite length_take, length_drop, length_app, length_take,
      length_replicate. unfold indexEntryLen in Hidx. lia. }
  rewrite Hg. reflexivity.
Qed.

End vectordb_props.

(** ** Encodings of nibble paths *)

Module encoding_props.
Import encoding.

(** Case analysis on a nibble: sixteen concrete values. *)
Ltac nibble_cases x H :=
  let H' := fresh in
  assert (H' : x = 0 \/ x = 1 \/ x = 2 \/ x = 3 \/ x = 4 \/ x = 5 \/ x = 6
               \/ x = 7 \/ x = 8 \/ x = 9 \/ x = 10 \/ x = 11 \/ x = 12
               \/ x = 13 \/ x = 14 \/ x = 15) by (unfold is_nibble in H; lia);
  repeat (destruct H' as [H' | H']; [subst x|]); [..|subst x].

Lemma pack_unpack (hi lo : Z) :
  is_nibble hi -> is_nibble lo ->
  let b := Z.lor (byte (Z.shiftl hi 4)) lo in
  b / 16 = hi /\ b mod 16 = lo /\ 0 <= b < 256.
Proof.
  intros Hhi Hlo. nibble_cases hi Hhi; nibble_cases lo Hlo;
    vm_compute; repeat split; congruence.
Qed.

Lemma pack_eq (hi lo : Z) :
  is_nibble hi -> is_nibble lo ->
  Z.lor (byte (Z.shiftl hi 4)) lo = hi * 16 + lo.
Proof.
  intros Hhi Hlo. nibble_cases hi Hhi; nibble_cases lo Hlo; reflexivity.
Qed.

Lemma Keybytes_Hex_expand kb : Keybytes_Hex kb = expand kb ++ [16].
Proof. reflexivity. Qed.

(** Induction two elements at a time. *)
Lemma pair_induction {A} (P : list A -> Prop) :
  P [] -> (forall x, P [x]) -> (forall x y l, P l -> P (x :: y :: l)) ->
  forall l, P l.
Proof.
  intros H0 H1 H2 l.
  assert (H : P l /\ forall x, P (x :: l)); [|tauto].
  induction l as [|a l [IH1 IH2]]; split; auto.
Qed.

Lemma decodeNibbles_even (l : Hex) :
  Forall is_nibble l -> Nat.even (length l) = true ->
  exists bs, decodeNibbles l = Done bs /\ expand bs = l
             /\ length l = (2 * length bs)%nat.
Proof.
  induction l as [| x | x y l IH] using pair_induction; intros Hl Hev.
  - exists []. auto.
  - discriminate.
  - inversion Hl as [|? ? Hx Hl']; subst. inversion Hl' as [|? ? Hy Hl'']; subst.
    destruct IH as (bs & Hd & He & Hlen); [done | exact Hev |].
    exists (Z.lor (byte (Z.shiftl x 4)) y :: bs). simpl. rewrite Hd. simpl.
    destruct (pack_unpack x y Hx Hy) as (-> & -> & _).
    split; [reflexivity|]. split; [by f_equal; f_equal | lia].
Qed.

Lemma HasTerm_app_term (l : Hex) : HasTerm (l ++ [16]) = true.
Proof. unfold HasTerm. by rewrite last_snoc. Qed.

Lemma HasTerm_nibbles (l : Hex) : Forall is_nibble l -> HasTerm l = false.
Proof.
  intros Hl. unfold HasTerm. destruct (last l) as [t|] eqn:E; [|done].
  apply last_Some in E as [l' ->]. apply Forall_app in Hl as [_ Ht].
  inversion Ht as [|? ? Hn _]; subst. unfold is_nibble in Hn.
  apply Z.eqb_neq. lia.
Qed.

Lemma take_length_pred_snoc {A} (l : list A) x :
  take (length (l ++ [x]) - 1) (l ++ [x]) = l.
Proof.
  rewrite length_app. simpl.
  replace (length l + 1 - 1)%nat with (length l) by lia.
  by rewrite take_app_length.
Qed.

(** What [Hex.Compact] computes, by the parity of the path and the
    terminator flag: the classical hex-prefix encoding. *)
Lemma Hex_Compact_body (body : Hex) (term : bool) :
  Forall is_nibble body ->
  exists c, Hex_Compact (if term then body ++ [16] else body) = Done c
    /\ Keybytes_Hex c =
         (if Nat.odd (length body)
          then [(if term then 3 else 1)]
          else [(if term then 2 else 0); 0]) ++ body ++ [16].
Proof.
  intros Hb. unfold Hex_Compact.
  assert (Hhex : (if HasTerm (if term then body ++ [16] else body)
                  then take (length (if term then body ++ [16] else body) - 1)
                         (if term then body ++ [16] else body)
                  else (if term then body ++ [16] else body)) = body).
  { destruct term.
    - rewrite HasTerm_app_term. apply take_length_pred_snoc.
    - by rewrite HasTerm_nibbles. }
  rewrite Hhex.
  assert (Ht : HasTerm (if term then body ++ [16] else body) = term).
  { destruct term; [apply HasTerm_app_term | by apply HasTerm_nibbles]. }
  rewrite Ht. clear Hhex Ht.
  destruct (Nat.odd (length body)) eqn:Hodd.
  - destruct body as [|first rest]; [discriminate|].
    inversion Hb as [|? ? Hf Hr]; subst.
    destruct (decodeNibbles_even rest Hr) as (bs & Hd & He & _).
    { simpl in Hodd. rewrite Nat.odd_succ in Hodd. exact Hodd. }
    rewrite Hd. simpl. eexists. split; [reflexivity|].
    rewrite Keybytes_Hex_expand. simpl. fold (expand bs). rewrite He.
    destruct term; nibble_cases first Hf; reflexivity.
  - destruct (decodeNibbles_even body Hb) as (bs & Hd & He & _).
    { rewrite <- Nat.negb_odd, Hodd. reflexivity. }
    rewrite Hd. simpl. eexists. split; [reflexivity|].
    rewrite Keybytes_Hex_expand. simpl. fold (expand bs). rewrite He.
    destruct term; reflexivity.
Qed.

(** C10: for a hex path of nibbles with an optional trailing terminator,
    [Compact] succeeds and [Hex] of the result is the path again. *)
Theorem C10_Compact_Hex_roundtrip (body : Hex) (term : bool) :
  Forall is_nibble body ->
  let h := if term then body ++ [16] else body in
  (c ← Hex_Compact h; Compact_Hex c) = Done h.
Proof.
  intros Hb h. subst h.
  destruct (Hex_Compact_body body term Hb) as (c & -> & Hk).
  simpl. unfold Compact_Hex. rewrite Hk.
  destruct (Nat.odd (length body)), term; simpl.
  - unfold slice_from. simpl. done.
  - rewrite length_app. simpl.
    replace (length body + 1 - 0)%nat with (S (length body)) by lia.
    simpl. rewrite take_app_length. simpl. unfold slice_from. simpl. done.
  - unfold slice_from. simpl. done.
  - rewrite length_app. simpl.
    replace (length body + 1)%nat with (S (length body)) by lia.
    simpl. rewrite take_app_length. unfold slice_from. simpl. done.
Qed.

Lemma C10_Compact_Hex_roundtrip_witness :
  Forall is_nibble [1; 2; 3]
  /\ (c ← Hex_Compact [1; 2; 3; 16]; Compact_Hex c) = Done [1; 2; 3; 16].
Proof.
  assert (H : Forall is_nibble [1; 2; 3])
    by (repeat constructor; unfold is_nibble; lia).
  split; [exact H | exact (C10_Compact_Hex_roundtrip [1; 2; 3] true H)].
Defined.

End encoding_props.

(** ** The storage key *)

Module storagekey_props.
Import encoding storagekey encoding_props.

Lemma bytes_Compare_app (x a b : bytes) :
  bytes_Compare (x ++ a) (x ++ b) = bytes_Compare a b.
Proof. induction x as [|y x IH]; simpl; [done|]. by rewrite Z.compare_refl. Qed.

Lemma padded_cons2 x y l : padded (x :: y :: l) = x :: y :: padded l.
Proof.
  unfold padded. simpl length. rewrite Nat.odd_succ, Nat.even_succ.
  by destruct (Nat.odd (length l)).
Qed.

Lemma odd_flag_cons2 x y l : odd_flag (x :: y :: l) = odd_flag l.
Proof. unfold odd_flag. simpl length. by rewrite Nat.odd_succ, Nat.even_succ. Qed.

Lemma padded_even l : Nat.even (length (padded l)) = true.
Proof.
  unfold padded. destruct (Nat.odd (length l)) eqn:E.
  - rewrite length_app. simpl. rewrite Nat.add_1_r, Nat.even_succ. done.
  - by rewrite <- Nat.negb_odd, E.
Qed.

Lemma padded_nibbles l : Forall is_nibble l -> Forall is_nibble (padded l).
Proof.
  intros H. unfold padded. destruct (Nat.odd _); [|done].
  apply Forall_app. split; [done|]. repeat constructor; unfold is_nibble; lia.
Qed.

Lemma decode_padded l :
  Forall is_nibble l -> exists bs, decodeNibbles (padded l) = Done bs.
Proof.
  intros H. destruct (decodeNibbles_even (padded l)) as (bs & Hbs & _);
    eauto using padded_nibbles, padded_even.
Qed.

(** [NewKey] on a prefix of at most 64 nibbles. *)
Lemma NewKey_prefix (P : Hex) (v : Z) :
  Forall is_nibble P -> (length P <= 64)%nat ->
  NewKey P v =
    (bs ← decodeNibbles (padded P); Done (bs ++ odd_flag P :: PutUint32 v)).
Proof.
  intros HP Hlen. unfold NewKey.
  assert (H65 : (length P =? 65)%nat = false) by (apply Nat.eqb_neq; lia).
  rewrite H65. simpl negb. rewrite andb_true_l.
  assert (Hodd : (length P mod 2 =? 1)%nat = Nat.odd (length P)).
  { rewrite <- Nat.bit0_mod. rewrite Nat.bit0_odd.
    by destruct (Nat.odd (length P)). }
  rewrite Hodd. unfold Hex_Keybytes, padded, odd_flag.
  destruct (Nat.odd (length P)) eqn:E.
  - rewrite HasTerm_nibbles
      by (apply Forall_app; split; [done|]; repeat constructor;
          unfold is_nibble; lia).
    assert (Nat.odd (length (P ++ [0])) = false) as ->; [|done].
    rewrite length_app. simpl. rewrite Nat.add_1_r, Nat.odd_succ.
    by rewrite <- Nat.negb_odd, E.
  - rewrite HasTerm_nibbles by done. by rewrite E.
Qed.

(** [NewKey] on a full path with its terminator. *)
Lemma NewKey_full (body : Hex) (v : Z) :
  Forall is_nibble body -> length body = 64%nat ->
  NewKey (body ++ [16]) v =
    (bs ← decodeNibbles (padded body);
     Done (bs ++ odd_flag body :: PutUint32 v)).
Proof.
  intros HP Hlen. unfold NewKey, padded, odd_flag.
  rewrite length_app, Hlen. simpl negb. simpl andb. cbv iota.
  unfold Hex_Keybytes. rewrite HasTerm_app_term, take_length_pred_snoc, Hlen.
  reflexivity.
Qed.

(** The body of a storage path, and the key in terms of it. *)
Lemma NewKey_storage_path (P : Hex) :
  storage_path P ->
  exists body, Forall is_nibble body
    /\ (P = body \/ P = body ++ [16])
    /\ forall v, NewKey P v =
         (bs ← decodeNibbles (padded body);
          Done (bs ++ odd_flag body :: PutUint32 v)).
Proof.
  intros [[HP Hlen] | (body & -> & Hb & Hlen)].
  - exists P. split; [done|]. split; [by left|]. intros v. by apply NewKey_prefix.
  - exists body. split; [done|]. split; [by right|]. intros v. by apply NewKey_full.
Qed.

Lemma PutUint32_lt (v1 v2 : Z) :
  0 <= v1 < v2 -> v2 < 2 ^ 32 -> bytes_lt (PutUint32 v1) (PutUint32 v2).
Proof.
  intros H1 H2. unfold bytes_lt, PutUint32, byte.
  rewrite !Z.shiftr_div_pow2 by lia.
  change (2 ^ 24) with 16777216. change (2 ^ 16) with 65536.
  change (2 ^ 8) with 256. change (2 ^ 32) with 4294967296 in H2.
  set (a1 := (v1 / 16777216) mod 256). set (a2 := (v2 / 16777216) mod 256).
  set (b1 := (v1 / 65536) mod 256). set (b2 := (v2 / 65536) mod 256).
  set (c1 := (v1 / 256) mod 256). set (c2 := (v2 / 256) mod 256).
  set (d1 := v1 mod 256). set (d2 := v2 mod 256).
  assert (Hv1 : v1 = ((a1 * 256 + b1) * 256 + c1) * 256 + d1
                /\ 0 <= a1 < 256 /\ 0 <= b1 < 256 /\ 0 <= c1 < 256
                /\ 0 <= d1 < 256).
  { subst a1 b1 c1 d1. Z.to_euclidean_division_equations. lia. }
  assert (Hv2 : v2 = ((a2 * 256 + b2) * 256 + c2) * 256 + d2
                /\ 0 <= a2 < 256 /\ 0 <= b2 < 256 /\ 0 <= c2 < 256
                /\ 0 <= d2 < 256).
  { subst a2 b2 c2 d2. Z.to_euclidean_division_equations. lia. }
  clearbody a1 a2 b1 b2 c1 c2 d1 d2.
  cbn [bytes_Compare].
  destruct (Z.compare_spec a1 a2); [|done|exfalso; lia].
  destruct (Z.compare_spec b1 b2); [|done|exfalso; lia].
  destruct (Z.compare_spec c1 c2); [|done|exfalso; lia].
  destruct (Z.compare_spec d1 d2); [exfalso; lia|done|exfalso; lia].
Qed.

(** The packed bytes of a path and of one of its extensions by a non-zero
    nibble differ at the byte that holds the first new nibble. *)
Lemma packed_extension_lt (P : Hex) :
  forall (c : Z) (rest : Hex) (t t' : bytes),
  Forall is_nibble P -> is_nibble c -> 1 <= c -> Forall is_nibble rest ->
  exists b b',
    decodeNibbles (padded P) = Done b
    /\ decodeNibbles (padded (P ++ c :: rest)) = Done b'
    /\ bytes_lt (b ++ odd_flag P :: t) (b' ++ t').
Proof.
  induction P as [| a | x y l IH] using pair_induction;
    intros c rest t t' HP Hc Hc1 Hrest; pose proof Hc as Hc'; unfold is_nibble in Hc'.
  - destruct rest as [|r rest].
    + exists [], [Z.lor (byte (Z.shiftl c 4)) 0]. repeat split.
      unfold bytes_lt; cbn [bytes_Compare app]; change (odd_flag []) with 0. rewrite pack_eq by (done || unfold is_nibble; lia).
      destruct (Z.compare_spec 0 (c * 16 + 0)); [exfalso; lia | done | exfalso; lia].
    + inversion Hrest as [|? ? Hr Hrest']; subst.
      destruct (decode_padded rest Hrest') as [bs Hbs].
      exists [], (Z.lor (byte (Z.shiftl c 4)) r :: bs).
      split; [done|]. split.
      * change ([] ++ c :: r :: rest) with (c :: r :: rest).
        rewrite padded_cons2. simpl. by rewrite Hbs.
      * unfold bytes_lt; cbn [bytes_Compare app]; change (odd_flag []) with 0. rewrite pack_eq by done.
        unfold is_nibble in Hr.
        destruct (Z.compare_spec 0 (c * 16 + r)); [exfalso; lia | done | exfalso; lia].
  - inversion HP as [|? ? Ha _]; subst. pose proof Ha as Ha'; unfold is_nibble in Ha'.
    destruct (decode_padded rest Hrest) as [bs Hbs].
    exists [Z.lor (byte (Z.shiftl a 4)) 0], (Z.lor (byte (Z.shiftl a 4)) c :: bs).
    split; [done|]. split.
    + change ([a] ++ c :: rest) with (a :: c :: rest).
      rewrite padded_cons2. simpl. by rewrite Hbs.
    + unfold bytes_lt; cbn [bytes_Compare app]; change (odd_flag []) with 0.
      rewrite !pack_eq by (done || unfold is_nibble; lia).
      destruct (Z.compare_spec (a * 16 + 0) (a * 16 + c)); [exfalso; lia | done | exfalso; lia].
  - inversion HP as [|? ? Hx HP']; subst. inversion HP' as [|? ? Hy HP'']; subst.
    destruct (IH c rest t t' HP'' Hc Hc1 Hrest) as (b & b' & Hb & Hb' & Hlt).
    exists (Z.lor (byte (Z.shiftl x 4)) y :: b),
           (Z.lor (byte (Z.shiftl x 4)) y :: b').
    split; [rewrite padded_cons2; simpl; by rewrite Hb|]. split.
    + change ((x :: y :: l) ++ c :: rest) with (x :: y :: (l ++ c :: rest)).
      rewrite padded_cons2. simpl. by rewrite Hb'.
    + unfold bytes_lt; cbn [bytes_Compare app]; change (odd_flag []) with 0. rewrite Z.compare_refl, odd_flag_cons2. exact Hlt.
Qed.

(** Splitting an extension of a storage path at its body. *)
Lemma storage_path_extension (P : Hex) (c : Z) (rest : Hex) :
  storage_path (P ++ c :: rest) -> 1 <= c <= 15 ->
  exists rest',
    Forall is_nibble P /\ Forall is_nibble rest'
    /\ forall v, NewKey (P ++ c :: rest) v =
         (bs ← decodeNibbles (padded (P ++ c :: rest'));
          Done (bs ++ odd_flag (P ++ c :: rest') :: PutUint32 v)).
Proof.
  intros Hsp Hc.
  destruct (NewKey_storage_path _ Hsp) as (body & Hb & [Heq | Heq] & Hkey).
  - subst body. apply Forall_app in Hb as [HP Hb].
    inversion Hb as [|? ? _ Hrest]; subst. exists rest. auto.
  - destruct (decide (rest = [])) as [-> | Hne].
    + apply (f_equal last) in Heq. rewrite !last_snoc in Heq.
      injection Heq as ->. lia.
    + destruct (exists_last Hne) as (rest' & z & ->).
      change (P ++ c :: rest' ++ [z]) with (P ++ (c :: rest') ++ [z]) in Heq.
      rewrite app_assoc in Heq. apply app_inj_tail in Heq as [Heq ->].
      subst body. apply Forall_app in Hb as [HP Hb].
      inversion Hb as [|? ? _ Hrest]; subst. exists rest'. auto.
Qed.

(** C3 (amended): for a storage path [P] and 32-bit versions [v1 < v2] the
    key of [(P, v1)] is strictly below the key of [(P, v2)] in byte order;
    and when [P] is extended by a non-zero nibble [c] (and anything after
    it), every key of [P] is strictly below every key of the extension. *)
Theorem C3_NewKey_order :
  (forall (P : Hex) (v1 v2 : Z),
      storage_path P -> 0 <= v1 < v2 -> v2 < 2 ^ 32 ->
      exists k1 k2, NewKey P v1 = Done k1 /\ NewKey P v2 = Done k2
                    /\ bytes_lt k1 k2)
  /\ (forall (P : Hex) (c : Z) (rest : Hex) (v v' : Z),
      storage_path (P ++ c :: rest) -> 1 <= c <= 15 ->
      exists k k', NewKey P v = Done k /\ NewKey (P ++ c :: rest) v' = Done k'
                   /\ bytes_lt k k').
Proof.
  split.
  - intros P v1 v2 HP Hv Hv2.
    destruct (NewKey_storage_path P HP) as (body & Hb & _ & Hkey).
    destruct (decode_padded body Hb) as [bs Hbs].
    exists (bs ++ odd_flag body :: PutUint32 v1),
           (bs ++ odd_flag body :: PutUint32 v2).
    rewrite !Hkey, Hbs. split; [done|]. split; [done|].
    unfold bytes_lt. rewrite bytes_Compare_app. cbn [bytes_Compare].
    rewrite Z.compare_refl. by apply PutUint32_lt.
  - intros P c rest v v' Hsp Hc.
    destruct (storage_path_extension P c rest Hsp Hc)
      as (rest' & HP & Hrest' & Hkey').
    assert (Hcn : is_nibble c) by (unfold is_nibble; lia).
    destruct (packed_extension_lt P c rest' (PutUint32 v)
                (odd_flag (P ++ c :: rest') :: PutUint32 v') HP Hcn
                ltac:(lia) Hrest') as (b & b' & Hb & Hb' & Hlt).
    exists (b ++ odd_flag P :: PutUint32 v),
           (b' ++ odd_flag (P ++ c :: rest') :: PutUint32 v').
    rewrite Hkey', Hb'. split; [|split; [done | exact Hlt]].
    assert (Hlen : (length P <= 64)%nat).
    { destruct Hsp as [[_ Hl] | (body & Heq & _ & Hl)].
      - rewrite length_app in Hl. simpl in Hl. lia.
      - apply (f_equal length) in Heq. rewrite !length_app in Heq.
        simpl in Heq. lia. }
    rewrite NewKey_prefix, Hb by done. done.
Qed.

Lemma storage_path_short (P : Hex) :
  Forall is_nibble P -> (length P <= 64)%nat -> storage_path P.
Proof. intros. left. done. Qed.

Lemma C3_NewKey_order_witness :
  (exists k1 k2, NewKey [1; 2] 3 = Done k1 /\ NewKey [1; 2] 4 = Done k2
                 /\ bytes_lt k1 k2)
  /\ (exists k k', NewKey [1] 7 = Done k /\ NewKey [1; 2] 0 = Done k'
                   /\ bytes_lt k k').
Proof.
  assert (H12 : storage_path [1; 2]).
  { apply storage_path_short; [|simpl; lia].
    repeat constructor; unfold is_nibble; lia. }
  split.
  - apply (proj1 C3_NewKey_order [1; 2] 3 4 H12); lia.
  - apply (proj2 C3_NewKey_order [1] 2 [] 7 0 H12); lia.
Defined.

(** C3 (as stated, refuted): [[1]] is a strict prefix of [[1; 0]], yet the
    key of [([1], 0)] sorts after the key of [([1; 0], 0)]: the odd-length
    flag byte of the shorter path is compared with the zero flag of the
    longer one. *)
Lemma C3_prefix_order_counterexample :
  [1] `prefix_of` [1; 0] /\ [1] <> [1; 0]
  /\ NewKey [1] 0 = Done [16; 1; 0; 0; 0; 0]
  /\ NewKey [1; 0] 0 = Done [16; 0; 0; 0; 0; 0]
  /\ ~ bytes_lt [16; 1; 0; 0; 0; 0] [16; 0; 0; 0; 0; 0].
Proof.
  split; [by exists [0]|]. split; [discriminate|].
  split; [reflexivity|]. split; [reflexivity|]. unfold bytes_lt. discriminate.
Qed.

End storagekey_props.

(** ** The trie engine *)

Module trie_props.
Import encoding versionnode storage ludicroustrie trie_model encoding_props.

Section Boundary.

Variable Keccak256 : bytes -> bytes.
Variable EncodeToBytes : rlp.item -> bytes.
Variable LoadNode : Collection -> Hex -> Z -> exec (error + Node).
Variable LoadLeaf : Collection -> Hex -> Z -> exec (error + Node).
Variable LoadValue : Collection -> Hex -> Z -> exec (error + option bytes).

Local Abbreviation Get := (ludicroustrie.Get LoadValue).
Local Abbreviation Update :=
  (ludicroustrie.Update Keccak256 EncodeToBytes LoadNode LoadLeaf).
Local Abbreviation Remove :=
  (ludicroustrie.Remove Keccak256 EncodeToBytes LoadNode LoadLeaf).
Local Abbreviation Hash_ := (ludicroustrie.Hash_ Keccak256 EncodeToBytes).

Lemma checkKey_bad key : bad_key key -> exists e, checkKey key = Some e.
Proof.
  destruct key as [k|]; simpl; intros H; [|eauto].
  destruct (length k =? keySize)%nat eqn:E; [|simpl; eauto].
  apply Nat.eqb_eq in E. done.
Qed.

Lemma checkValue_bad value : bad_value value -> exists e, checkValue value = Some e.
Proof. intros [-> | ->]; simpl; eauto. Qed.

(** C5: a nil or wrongly sized key makes [Get], [Update] and [Remove]
    return an error, a nil or reserved value makes [Update] return an error,
    and in each case the trie, its root included, is the one before. *)
Theorem C5_rejected_at_boundary (t : LudicrousTrie) (loads : nat)
    (key value : option bytes) :
  (bad_key key ->
     (exists e, Get t key = Done (None, Some e))
     /\ (exists e, Update t loads key value = Done (t, Some e))
     /\ (exists e, Remove t loads key = Done (t, Some e)))
  /\ (bad_value value -> exists e, Update t loads key value = Done (t, Some e)).
Proof.
  split.
  - intros Hk. destruct (checkKey_bad key Hk) as [e He].
    unfold ludicroustrie.Get, ludicroustrie.Update, ludicroustrie.Remove,
      Update_status, Remove_status.
    rewrite He. simpl. repeat split; eauto.
  - intros Hv. destruct (checkValue_bad value Hv) as [e He].
    unfold ludicroustrie.Update, Update_status.
    destruct (checkKey key) as [e'|] eqn:Ek; [simpl; eauto|].
    destruct key as [k|]; [|simpl; eauto].
    rewrite He. simpl. eauto.
Qed.

(** C9: on a freshly created empty trie, prefixed or not and at any initial
    version, [Hash] returns the constant empty root; no loader is involved
    and the collection is the one before, whatever the database holds. *)
Theorem C9_empty_trie_hash (prefix : bytes) (db : gmap (list Z) (list Z))
    (version : Z) :
  Hash_ (NewEmptyLudicrousTrie db version)
    = Done (inr emptyRoot, NewCollection db)
  /\ Hash_ (NewEmptyPrefixedLudicrousTrie prefix db version)
    = Done (inr emptyRoot, NewPrefixedCollection prefix db)
  /\ emptyRoot =
       [0x56; 0xe8; 0x1f; 0x17; 0x1b; 0xcc; 0x55; 0xa6; 0xff; 0x83; 0x45;
        0xe6; 0x92; 0xc0; 0xf8; 0x6e; 0x5b; 0x48; 0xe0; 0x1b; 0x99; 0x6c;
        0xad; 0xc0; 0x01; 0x62; 0x2f; 0xb5; 0xe3; 0x63; 0xb4; 0x21].
Proof. repeat split. Qed.

End Boundary.

Lemma C5_rejected_at_boundary_witness :
  let t := NewEmptyLudicrousTrie ∅ 0 in
  (bad_key (Some [1; 2; 3]) /\ bad_value (Some [128]))
  /\ (exists e, ludicroustrie.Get noValue t (Some [1; 2; 3]) = Done (None, Some e))
  /\ (exists e, ludicroustrie.Update idKeccak nullEncode noNode noNode t 0
                  (Some [1; 2; 3]) (Some [128]) = Done (t, Some e)).
Proof.
  intros t.
  assert (Hk : bad_key (Some [1; 2; 3])) by (simpl; unfold keySize; lia).
  assert (Hv : bad_value (Some [128])) by (by right).
  pose proof (C5_rejected_at_boundary idKeccak nullEncode noNode noNode noValue
                t 0 (Some [1; 2; 3]) (Some [128])) as [H1 H2].
  split; [done|]. split; [exact (proj1 (H1 Hk)) | exact (H2 Hv)].
Defined.


(** *** The overlay with tombstones under [Update] *)

Section Overlay.

Variable Keccak256 : bytes -> bytes.
Variable EncodeToBytes : rlp.item -> bytes.
Variable LoadNode : Collection -> Hex -> Z -> exec (error + Node).
Variable LoadLeaf : Collection -> Hex -> Z -> exec (error + Node).

Local Abbreviation update :=
  (ludicroustrie.update Keccak256 EncodeToBytes LoadNode LoadLeaf).

(** What the descent does at an overlay whose inner prefix lies on the
    path: it recurses into the inner node, drops the path from the
    tombstones, and keeps the overlay, whatever is left of the set. *)
Lemma update_overlay_descent (t : LudicrousTrie) (loads : nat) (inner : Node)
    (deleted : KeySet) (path : Hex) (index : nat) (value : bytes)
    (after : Node) :
  prefixMismatch (WithDeletedKeys inner deleted) path index = Done false ->
  update t loads inner path index value = Done (updateUpdated after) ->
  update t loads (WithDeletedKeys inner deleted) path index value
  = Done (updateUpdated
            (WithDeletedKeys after
               (if Contains deleted path then versionnode.Remove deleted path
                else deleted))).
Proof.
  intros Hm Hu. destruct loads; simpl in *; rewrite Hm; simpl; rewrite Hu;
    simpl; by destruct (Contains deleted path).
Qed.

(** What it does when the inner prefix leaves the path: the sibling is
    added below the overlay, and the overlay is dropped when its last
    tombstone was the path. *)
Lemma update_overlay_sibling (t : LudicrousTrie) (loads : nat) (inner : Node)
    (deleted : KeySet) (path : Hex) (index : nat) (value : bytes)
    (newNode : Node) :
  prefixMismatch (WithDeletedKeys inner deleted) path index = Done true ->
  AddSibling inner (drop index path) path value (version t) = Done newNode ->
  (index <= length path)%nat ->
  update t loads (WithDeletedKeys inner deleted) path index value
  = Done (updateUpdated
            (if negb (Contains deleted path)
             then WithDeletedKeys newNode deleted
             else if (size (versionnode.Remove deleted path) =? 0)%nat then newNode
                  else WithDeletedKeys newNode (versionnode.Remove deleted path))).
Proof.
  intros Hm Ha Hi.
  assert (Hs : slice_from path index = Done (drop index path)).
  { unfold slice_from. by apply Nat.leb_le in Hi as ->. }
  destruct loads; simpl in *; rewrite Hm; simpl; rewrite Hs; simpl;
    rewrite Ha; simpl; by repeat case_match.
Qed.

End Overlay.

(** C7 (the code at the scenario): after the second key is removed the
    root is an overlay whose only tombstone is that key; updating the key
    again descends through the overlay, drops the tombstone, and leaves an
    overlay with an empty tombstone set around the branch: the wrapper is
    not removed. *)
Theorem C7_empty_overlay_kept :
  (exists inner,
      root overlay_trie
      = WithDeletedKeys inner
          (NewKeySet (Keybytes_Hex (replicate 31 0 ++ [1])) 1))
  /\ root (do_Update overlay_trie (key_ending 1) (Some [7]))
     = WithDeletedKeys
         (Full (replicate 63 0)
            ([Leaf [16] [0] 1; Leaf [16] [7] 1; Leaf [16] [2] 1]
               ++ replicate 13 Nil) 1)
         ∅.
Proof.
  split; [eexists|]; vm_compute; reflexivity.
Qed.

End trie_props.


(** ** The contents of a trie and its invariant *)

Module trie_inv.
Import encoding versionnode storage ludicroustrie trie_model encoding_props.

(** Induction on nodes, with the children of a full node. *)
Lemma Node_ind' (P : Node -> Prop) :
  P Nil ->
  (forall k v ver, P (Leaf k v ver)) ->
  (forall k cs ver, Forall P cs -> P (Full k cs ver)) ->
  (forall v, P (Value v)) ->
  (forall h, P (Hash h)) ->
  (forall h l ver, P (Stored h l ver)) ->
  (forall n dk, P n -> P (WithDeletedKeys n dk)) ->
  forall n, P n.
Proof.
  intros HNil HLeaf HFull HValue HHash HStored HW.
  fix IH 1. intros [| k v ver | k cs ver | v | h | h l ver | n dk].
  - exact HNil.
  - apply HLeaf.
  - apply HFull. induction cs as [|c cs IHcs]; constructor; [apply IH | exact IHcs].
  - apply HValue.
  - apply HHash.
  - apply HStored.
  - apply HW, IH.
Qed.

Lemma with_child_lookup {A} (cs : Children) (r : Z) (f : Node -> exec A) :
  with_child cs r f =
    match cs !! Z.to_nat r with
    | Some c => f c
    | None => Panic
    end.
Proof.
  unfold with_child. generalize (Z.to_nat r). intros i. revert i.
  induction cs as [|c cs IH]; intros [|i]; simpl; auto.
Qed.

(** *** The living children *)

Lemma living_app (l1 l2 : list Node) : living (l1 ++ l2) = (living l1 + living l2)%nat.
Proof. unfold living. by rewrite List.filter_app, length_app. Qed.

Lemma living_cons c cs :
  living (c :: cs) = ((if isNil c then 0 else 1) + living cs)%nat.
Proof. unfold living. simpl. by destruct (isNil c). Qed.

Lemma living_replicate_Nil n : living (replicate n Nil) = 0%nat.
Proof. induction n; [done|]. simpl. by rewrite living_cons, IHn. Qed.

Lemma living_insert (cs : list Node) (i : nat) (c x : Node) :
  cs !! i = Some c ->
  (living (<[i := x]> cs) + (if isNil c then 0 else 1)
   = living cs + (if isNil x then 0 else 1))%nat.
Proof.
  revert i. induction cs as [|y cs IH]; intros [|i] H; simpl in *; try done.
  - injection H as ->. rewrite !living_cons. lia.
  - rewrite !living_cons. specialize (IH i H). lia.
Qed.

(** [LastLivingChild]: -1 and false without a living child; otherwise the
    slot of the last living child, and whether it is the only one. *)
Lemma LastLivingChild_spec (cs : list Node) :
  let '(index, onlyChild) := LastLivingChild cs in
  (living cs = 0%nat /\ index = -1 /\ onlyChild = false)
  \/ (exists i c, index = Z.of_nat i /\ cs !! i = Some c /\ isNil c = false
                  /\ (forall j c', cs !! j = Some c' -> (i < j)%nat -> c' = Nil)
                  /\ onlyChild = bool_decide (living cs = 1%nat)).
Proof.
  unfold LastLivingChild.
  induction cs as [|x cs IH] using rev_ind.
  - simpl. left. done.
  - rewrite imap_app, fold_left_app. simpl.
    destruct (fold_left _ (imap _ cs) (-1, false)) as [index only].
    rewrite Nat.add_0_r, living_app, living_cons.
    change (living []) with 0%nat.
    destruct (isNil x) eqn:Ex.
    + destruct IH as [(Hl & -> & ->) | (i & c & -> & Hi & Hc & Hafter & ->)].
      * left. split; [lia|done].
      * right. exists i, c. split; [done|]. split; [by apply lookup_app_l_Some|].
        split; [done|]. split.
        -- intros j c' Hj Hij. apply lookup_app_Some in Hj as [Hj | [_ Hj]].
           ++ eauto.
           ++ apply list_lookup_singleton_Some in Hj as [_ <-].
              by destruct x.
        -- apply bool_decide_ext. lia.
    + right. exists (length cs), x. split; [done|].
      split; [by rewrite lookup_app_r, Nat.sub_diag|]. split; [done|]. split.
      * intros j c' Hj Hij. apply lookup_lt_Some in Hj.
        rewrite length_app in Hj. simpl in Hj. lia.
      * destruct IH as [(Hl & -> & ->) | (i & c & -> & Hi & Hc & Hafter & ->)].
        -- simpl. symmetry. apply bool_decide_eq_true. lia.
        -- assert (Hge : (1 <= living cs)%nat).
           { apply take_drop_middle in Hi. rewrite <- Hi, living_app, living_cons, Hc. lia. }
           transitivity false.
           ++ apply Z.eqb_neq. lia.
           ++ symmetry. apply bool_decide_eq_false. lia.
Qed.


(** *** The contents of a subtree *)

Lemma children_union_Some f cs i0 q v :
  children_union f cs i0 !! q = Some v ->
  exists j c, cs !! j = Some c /\ f (i0 + j)%nat c !! q = Some v.
Proof.
  revert i0. induction cs as [|c cs IH]; intros i0 H; simpl in H.
  - by rewrite lookup_empty in H.
  - apply lookup_union_Some_raw in H as [H | [_ H]].
    + exists 0%nat, c. by rewrite Nat.add_0_r.
    + apply IH in H as (j & c' & Hj & Hq). exists (S j), c'.
      split; [done|]. by replace (i0 + S j)%nat with (S i0 + j)%nat by lia.
Qed.

Lemma children_union_None f cs i0 q :
  (forall j c, cs !! j = Some c -> f (i0 + j)%nat c !! q = None) ->
  children_union f cs i0 !! q = None.
Proof.
  intros H. destruct (children_union f cs i0 !! q) as [v|] eqn:E; [|done].
  apply children_union_Some in E as (j & c & Hj & Hq).
  by rewrite (H j c Hj) in Hq.
Qed.

Lemma children_union_unique f cs i0 q j c :
  cs !! j = Some c ->
  (forall j' c', j' <> j -> cs !! j' = Some c' -> f (i0 + j')%nat c' !! q = None) ->
  children_union f cs i0 !! q = f (i0 + j)%nat c !! q.
Proof.
  revert i0 j. induction cs as [|x cs IH]; intros i0 [|j] Hj Hothers;
    simpl in *; try done.
  - injection Hj as ->. rewrite Nat.add_0_r.
    fold (children_union f cs (S i0)).
    rewrite lookup_union_l; [done|].
    apply children_union_None. intros j c' Hc'.
    replace (S i0 + j)%nat with (i0 + S j)%nat by lia.
    by apply (Hothers (S j) c').
  - fold (children_union f cs (S i0)).
    rewrite lookup_union_r.
    + replace (i0 + S j)%nat with (S i0 + j)%nat by lia.
      apply IH; [done|]. intros j' c' Hne Hc'.
      replace (S i0 + j')%nat with (i0 + S j')%nat by lia.
      apply (Hothers (S j') c'); [lia | done].
    + rewrite <- (Nat.add_0_r i0). by apply (Hothers 0%nat x).
Qed.

Lemma contents_Full_eq pre k cs ver :
  contents pre (Full k cs ver)
  = children_union (fun i c => contents (child_path pre k i) c) cs 0.
Proof. reflexivity. Qed.

Lemma contents_Leaf_eq pre k v ver : contents pre (Leaf k v ver) = {[ pre ++ k := v ]}.
Proof. reflexivity. Qed.

Lemma contents_Nil_eq pre : contents pre Nil = ∅.
Proof. reflexivity. Qed.

Lemma contents_WithDeletedKeys_eq pre n dk :
  contents pre (WithDeletedKeys n dk)
  = filter (fun e => dk !! e.1 = None) (contents pre n).
Proof. reflexivity. Qed.

#[local] Arguments contents : simpl never.

(** The paths below a subtree extend the path of the subtree. *)
Lemma contents_extends (n : Node) :
  forall pre q v, contents pre n !! q = Some v -> pre `prefix_of` q.
Proof.
  induction n as [| k v0 ver | k cs ver IH | v0 | h | h l ver | n dk IH]
    using Node_ind';
    intros pre q v H; try by (unfold contents in H; rewrite lookup_empty in H).
  - rewrite contents_Leaf_eq in H.
    apply lookup_singleton_Some in H as [<- _]. by exists k.
  - rewrite contents_Full_eq in H.
    apply children_union_Some in H as (j & c & Hj & Hq).
    rewrite Forall_lookup in IH. apply (IH j c Hj) in Hq.
    unfold child_path in Hq. destruct Hq as [s ->].
    exists (k ++ [Z.of_nat (0 + j)] ++ s). by rewrite <- !app_assoc.
  - rewrite contents_WithDeletedKeys_eq in H.
    apply map_lookup_filter_Some in H as [H _]. eauto.
Qed.

Lemma child_path_lookup pre k i s :
  (child_path pre k i ++ s) !! length (pre ++ k) = Some (Z.of_nat i).
Proof.
  unfold child_path. rewrite <- app_assoc.
  rewrite lookup_app_r by lia. by rewrite Nat.sub_diag.
Qed.

(** A lookup below a full node goes to the child that the path selects. *)
Lemma lookup_contents_Full pre k cs ver q :
  contents pre (Full k cs ver) !! q =
    match q !! length (pre ++ k) with
    | Some r =>
        if decide (0 <= r) then
          match cs !! Z.to_nat r with
          | Some c => contents (child_path pre k (Z.to_nat r)) c !! q
          | None => None
          end
        else None
    | None => None
    end.
Proof.
  rewrite contents_Full_eq.
  assert (Hsel : forall j c v, contents (child_path pre k j) c !! q = Some v ->
                               q !! length (pre ++ k) = Some (Z.of_nat j)).
  { intros j c v H. apply contents_extends in H as [s ->].
    apply child_path_lookup. }
  destruct (q !! length (pre ++ k)) as [r|] eqn:Hr.
  - destruct (decide (0 <= r)) as [Hr0|Hr0].
    + destruct (cs !! Z.to_nat r) as [c|] eqn:Hc.
      * rewrite (children_union_unique _ cs 0 q (Z.to_nat r) c Hc); [done|].
        intros j' c' Hne _. simpl.
        destruct (contents (child_path pre k j') c' !! q) as [v|] eqn:E; [|done].
        apply Hsel in E. injection E as ->. lia.
      * apply children_union_None. intros j c Hj. simpl.
        destruct (contents (child_path pre k j) c !! q) as [v|] eqn:E; [|done].
        apply Hsel in E. injection E as ->.
        rewrite Nat2Z.id in Hc. congruence.
    + apply children_union_None. intros j c Hj. simpl.
      destruct (contents (child_path pre k j) c !! q) as [v|] eqn:E; [|done].
      apply Hsel in E. injection E as ->. lia.
  - apply children_union_None. intros j c Hj. simpl.
    destruct (contents (child_path pre k j) c !! q) as [v|] eqn:E; [|done].
    apply Hsel in E. congruence.
Qed.

Lemma lookup_contents_WithDeletedKeys pre n dk q :
  contents pre (WithDeletedKeys n dk) !! q =
    if Contains dk q then None else contents pre n !! q.
Proof.
  rewrite contents_WithDeletedKeys_eq. unfold Contains. case_bool_decide as Hd.
  - apply map_lookup_filter_None. right. intros v _. simpl.
    destruct Hd as [x Hx]. congruence.
  - destruct (contents pre n !! q) as [v|] eqn:E.
    + apply map_lookup_filter_Some. split; [done|]. simpl.
      destruct (dk !! q) eqn:Ed; [|done]. exfalso. apply Hd. eauto.
    + apply map_lookup_filter_None. by left.
Qed.

(** The contents of a full node depend on its position and prefix only
    through their concatenation. *)
Lemma contents_Full_reposition pre k pre' k' cs ver ver' :
  pre ++ k = pre' ++ k' ->
  contents pre (Full k cs ver) = contents pre' (Full k' cs ver').
Proof. intros H. rewrite !contents_Full_eq. unfold child_path. by rewrite H. Qed.


(** *** Paths *)

Lemma PrefixLen_le_l (a b : Hex) : (PrefixLen a b <= length a)%nat.
Proof.
  revert b. induction a as [|x a IH]; intros [|y b]; simpl; try lia.
  destruct (x =? y); simpl; [specialize (IH b)|]; lia.
Qed.

Lemma PrefixLen_le_r (a b : Hex) : (PrefixLen a b <= length b)%nat.
Proof.
  revert b. induction a as [|x a IH]; intros [|y b]; simpl; try lia.
  destruct (x =? y); simpl; [specialize (IH b)|]; lia.
Qed.

Lemma PrefixLen_comm (a b : Hex) : PrefixLen a b = PrefixLen b a.
Proof.
  revert b. induction a as [|x a IH]; intros [|y b]; simpl; try done.
  rewrite (Z.eqb_sym y x). destruct (x =? y); [by rewrite IH | done].
Qed.

Lemma PrefixLen_take (a b : Hex) :
  take (PrefixLen a b) a = take (PrefixLen a b) b.
Proof.
  revert b. induction a as [|x a IH]; intros [|y b]; simpl; try done.
  destruct (x =? y) eqn:E; simpl; [|done].
  apply Z.eqb_eq in E as ->. by rewrite IH.
Qed.

Lemma PrefixLen_mismatch (a b : Hex) x y :
  a !! PrefixLen a b = Some x -> b !! PrefixLen a b = Some y -> x <> y.
Proof.
  revert b. induction a as [|x' a IH]; intros [|y' b]; simpl; try done.
  destruct (x' =? y') eqn:E; simpl.
  - apply IH.
  - intros [= ->] [= ->]. by apply Z.eqb_neq.
Qed.

Lemma PrefixLen_full (a b : Hex) :
  PrefixLen a b = length a <-> a `prefix_of` b.
Proof.
  split.
  - intros H. exists (drop (length a) b).
    rewrite <- (take_drop (length a) b) at 1. f_equal.
    rewrite <- H, <- PrefixLen_take, H. by rewrite take_ge.
  - intros [s ->]. induction a as [|x a IH]; simpl; [done|].
    by rewrite Z.eqb_refl, IH.
Qed.

Lemma prefixContainedIn_spec (prefix path : Hex) (start : nat) :
  (start <= length path)%nat ->
  prefixContainedIn prefix path start
  = Done (bool_decide (prefix `prefix_of` drop start path)).
Proof.
  intros H. unfold prefixContainedIn, slice_from.
  apply Nat.leb_le in H as ->. simpl. f_equal.
  destruct (PrefixLen prefix (drop start path) =? length prefix)%nat eqn:E.
  - apply Nat.eqb_eq, PrefixLen_full in E. by rewrite bool_decide_eq_true_2.
  - apply Nat.eqb_neq in E. rewrite bool_decide_eq_false_2; [done|].
    by rewrite <- PrefixLen_full.
Qed.

Lemma terminated_length p : terminated p -> (1 <= length p)%nat.
Proof. intros (b & -> & _). rewrite length_app. simpl. lia. Qed.

Lemma terminated_lookup p i :
  terminated p -> (i + 1 < length p)%nat ->
  exists r, p !! i = Some r /\ is_nibble r.
Proof.
  intros (b & -> & Hb) Hi. rewrite length_app in Hi. simpl in Hi.
  destruct (lookup_lt_is_Some_2 b i) as [r Hr]; [lia|].
  exists r. split; [by apply lookup_app_l_Some|].
  rewrite Forall_lookup in Hb. eauto.
Qed.

Lemma terminated_last p : terminated p -> p !! (length p - 1)%nat = Some 16.
Proof.
  intros (b & -> & _). rewrite length_app. simpl.
  rewrite lookup_app_r by lia.
  by replace (length b + 1 - 1 - length b)%nat with 0%nat by lia.
Qed.

Lemma terminated_drop p i :
  terminated p -> (i < length p)%nat -> terminated (drop i p).
Proof.
  intros (b & -> & Hb) Hi. rewrite length_app in Hi. simpl in Hi.
  exists (drop i b). rewrite drop_app_le by lia.
  split; [done|]. by apply Forall_drop.
Qed.

Lemma terminated_take_nibbles p i :
  terminated p -> (i < length p)%nat -> Forall is_nibble (take i p).
Proof.
  intros (b & -> & Hb) Hi. rewrite length_app in Hi. simpl in Hi.
  rewrite take_app_le by lia. by apply Forall_take.
Qed.

(** Two terminated paths of one length differ before the terminator. *)
Lemma terminated_PrefixLen a b :
  terminated a -> terminated b -> length a = length b -> a <> b ->
  (PrefixLen a b + 1 < length a)%nat.
Proof.
  intros Ha Hb Hlen Hne.
  pose proof (PrefixLen_le_l a b) as Hle.
  destruct (decide (PrefixLen a b = length a)) as [E|E].
  { apply PrefixLen_full in E as [s Hs]. exfalso. apply Hne.
    apply (f_equal length) in Hs as Hl. rewrite length_app in Hl.
    assert (s = []) as -> by (apply nil_length_inv; lia).
    by rewrite app_nil_r in Hs. }
  destruct (decide (PrefixLen a b + 1 = length a)%nat) as [E'|E']; [|lia].
  exfalso.
  pose proof (terminated_last a Ha) as Hla.
  pose proof (terminated_last b Hb) as Hlb.
  rewrite <- Hlen in Hlb.
  replace (length a - 1)%nat with (PrefixLen a b) in Hla, Hlb by lia.
  by apply (PrefixLen_mismatch a b 16 16).
Qed.

Lemma full_path_slices path index :
  (index <= length path)%nat ->
  slice_from path index = Done (drop index path)
  /\ slice_to path index = Done (take index path)
  /\ logTraceGet path index = Done tt.
Proof.
  intros H. unfold logTraceGet, slice_from, slice_to.
  by apply Nat.leb_le in H as ->.
Qed.


(** *** The descents on the subtrees built in memory *)

Lemma wf_isLive pre n : wf pre n -> isLive n = true /\ isNil n = false.
Proof. by intros []. Qed.

Lemma wf_pre_length pre n : wf pre n -> (length pre < pathLen)%nat.
Proof.
  induction 1 as [pre k v ver Hl Ht _ | pre k cs ver _ Hl _ _ _ | ]; [|lia|done].
  apply terminated_length in Ht. lia.
Qed.

Lemma prefixMismatch_WithDeletedKeys n dk path index :
  isLive n = true ->
  prefixMismatch (WithDeletedKeys n dk) path index = prefixMismatch n path index.
Proof. unfold prefixMismatch. simpl. by intros ->. Qed.

Lemma prefixMismatch_wf pre n path index :
  wf pre n -> (index <= length path)%nat ->
  exists b, prefixMismatch n path index = Done b.
Proof.
  induction 1 as [pre k v ver | pre k cs ver | pre n dk Hn IH _]; intros Hi.
  - unfold prefixMismatch. simpl. rewrite prefixContainedIn_spec by done.
    simpl. eauto.
  - unfold prefixMismatch. simpl. rewrite prefixContainedIn_spec by done.
    simpl. eauto.
  - rewrite prefixMismatch_WithDeletedKeys by exact (proj1 (wf_isLive _ _ Hn)).
    auto.
Qed.

Lemma take_drop_prefix (path k : Hex) (index : nat) :
  k `prefix_of` drop index path ->
  take index path ++ k = take (index + length k) path.
Proof.
  intros [s Hs]. destruct (decide (index <= length path)%nat) as [Hi|Hi].
  - rewrite <- (take_drop index path) at 2. rewrite Hs.
    rewrite take_app_ge by (rewrite length_take; lia).
    rewrite length_take, Nat.min_l by done.
    replace (index + length k - index)%nat with (length k) by lia.
    by rewrite take_app_length.
  - rewrite drop_ge in Hs by lia. symmetry in Hs.
    apply app_eq_nil in Hs as [-> ->]. simpl.
    rewrite app_nil_r, Nat.add_0_r. done.
Qed.

Lemma take_S_lookup (path : Hex) (i : nat) (r : Z) :
  path !! i = Some r -> take i path ++ [r] = take (S i) path.
Proof. intros H. by rewrite (take_S_r _ _ _ H). Qed.


(** *** Adding a sibling *)

Lemma contents_selects pre k i c q v :
  contents (child_path pre k i) c !! q = Some v ->
  q !! length (pre ++ k) = Some (Z.of_nat i).
Proof. intros H. apply contents_extends in H as [s ->]. apply child_path_lookup. Qed.

Lemma contents_Full_extends pre k cs ver q v :
  contents pre (Full k cs ver) !! q = Some v -> (pre ++ k) `prefix_of` q.
Proof.
  rewrite contents_Full_eq. intros H.
  apply children_union_Some in H as (j & c & _ & H).
  apply contents_extends in H as [s ->]. unfold child_path.
  exists ([Z.of_nat (0 + j)] ++ s). by rewrite <- !app_assoc.
Qed.

Lemma NilChildren_lookup i c : NilChildren !! i = Some c -> c = Nil.
Proof. unfold NilChildren. intros H. by apply lookup_replicate in H as [-> _]. Qed.

(** The contents of a full node with two children. *)
Lemma contents_two_children pre k (a b : Z) x y ver :
  is_nibble a -> is_nibble b -> a <> b ->
  contents pre
    (Full k (<[Z.to_nat b := y]> (<[Z.to_nat a := x]> NilChildren)) ver)
  = contents (child_path pre k (Z.to_nat a)) x
    ∪ contents (child_path pre k (Z.to_nat b)) y.
Proof.
  unfold is_nibble. intros Ha Hb Hab. apply map_eq. intros q.
  rewrite lookup_contents_Full.
  set (A := contents (child_path pre k (Z.to_nat a)) x).
  set (B := contents (child_path pre k (Z.to_nat b)) y).
  assert (HA : forall v, A !! q = Some v -> q !! length (pre ++ k) = Some a).
  { intros v H. apply contents_selects in H. by rewrite Z2Nat.id in H by lia. }
  assert (HB : forall v, B !! q = Some v -> q !! length (pre ++ k) = Some b).
  { intros v H. apply contents_selects in H. by rewrite Z2Nat.id in H by lia. }
  assert (Hnone : q !! length (pre ++ k) <> Some a ->
                  q !! length (pre ++ k) <> Some b -> (A ∪ B) !! q = None).
  { intros Hna Hnb. apply lookup_union_None. split.
    - destruct (A !! q) eqn:E; [|done]. exfalso. eauto.
    - destruct (B !! q) eqn:E; [|done]. exfalso. eauto. }
  destruct (q !! length (pre ++ k)) as [r|] eqn:Hr;
    [|symmetry; apply Hnone; congruence].
  destruct (decide (0 <= r)) as [Hr0|Hr0];
    [|symmetry; apply Hnone; intros [= ->]; lia].
  destruct (decide (r = b)) as [->|Hrb].
  - rewrite list_lookup_insert_eq
      by (rewrite length_insert; unfold NilChildren, NumChildren;
          rewrite length_replicate; lia).
    fold B. rewrite lookup_union_r; [done|].
    destruct (A !! q) eqn:E; [|done]. specialize (HA _ eq_refl). congruence.
  - rewrite list_lookup_insert_ne by lia.
    destruct (decide (r = a)) as [->|Hra].
    + rewrite list_lookup_insert_eq
        by (unfold NilChildren, NumChildren; rewrite length_replicate; lia).
      fold A. rewrite lookup_union_l; [done|].
      destruct (B !! q) eqn:E; [|done]. specialize (HB _ eq_refl). congruence.
    + rewrite list_lookup_insert_ne by lia.
      rewrite Hnone by congruence.
      destruct (NilChildren !! Z.to_nat r) as [c|] eqn:E; [|done].
      apply NilChildren_lookup in E as ->.
      by rewrite contents_Nil_eq, lookup_empty.
Qed.

Lemma living_two_children (a b : Z) x y :
  is_nibble a -> is_nibble b -> a <> b -> isNil x = false -> isNil y = false ->
  living (<[Z.to_nat b := y]> (<[Z.to_nat a := x]> NilChildren)) = 2%nat.
Proof.
  unfold is_nibble. intros Ha Hb Hab Hx Hy.
  assert (H1 : NilChildren !! Z.to_nat a = Some Nil).
  { apply lookup_replicate. unfold NumChildren. split; [done|lia]. }
  pose proof (living_insert NilChildren _ _ x H1) as E1.
  assert (H2 : <[Z.to_nat a := x]> NilChildren !! Z.to_nat b = Some Nil).
  { rewrite list_lookup_insert_ne by lia. apply lookup_replicate.
    unfold NumChildren. split; [done|lia]. }
  pose proof (living_insert _ _ _ y H2) as E2.
  unfold NilChildren in *. rewrite living_replicate_Nil in E1.
  rewrite Hx in E1. rewrite Hy in E2. simpl in *. lia.
Qed.

Lemma two_children_lookup (a b : Z) x y i c :
  <[Z.to_nat b := y]> (<[Z.to_nat a := x]> NilChildren) !! i = Some c ->
  (i = Z.to_nat b /\ c = y) \/ (i = Z.to_nat a /\ c = x) \/ c = Nil.
Proof.
  intros H. apply list_lookup_insert_Some in H as [(<- & <- & _) | [Hne H]];
    [by left|].
  apply list_lookup_insert_Some in H as [(<- & <- & _) | [Hne' H]];
    [right; by left|].
  right; right. by apply NilChildren_lookup in H.
Qed.

Lemma set_child_ok (cs : Children) (r : Z) (x : Node) :
  is_nibble r -> length cs = NumChildren ->
  set_child cs (Z.to_nat r) x = Done (<[Z.to_nat r := x]> cs).
Proof.
  unfold is_nibble, set_child, NumChildren. intros Hr ->.
  destruct (Z.to_nat r <? 16)%nat eqn:E; [done|].
  apply Nat.ltb_ge in E. lia.
Qed.

Lemma insert_fresh_union (m : gmap (list Z) (list Z)) (p : list Z) (v : list Z) :
  m !! p = None -> m ∪ {[ p := v ]} = <[p := v]> m.
Proof.
  intros H. rewrite insert_union_singleton_l. apply map_union_comm.
  by apply map_disjoint_singleton_r.
Qed.

Lemma middle_eq (s : Hex) (m : nat) (r : Z) :
  s !! m = Some r -> (take m s ++ [r]) ++ drop (S m) s = s.
Proof. intros H. rewrite <- app_assoc. by apply take_drop_middle. Qed.


Lemma Contains_delete (dk : KeySet) (path q : Hex) :
  Contains (versionnode.Remove dk path) q
  = Contains dk q && negb (bool_decide (q = path)).
Proof.
  unfold Contains, versionnode.Remove.
  destruct (decide (q = path)) as [->|Hq].
  - rewrite lookup_delete_eq, (bool_decide_eq_true_2 (path = path)) by done.
    rewrite andb_false_r. apply bool_decide_eq_false. by intros [x Hx].
  - rewrite lookup_delete_ne, (bool_decide_eq_false_2 (q = path)) by done.
    by rewrite andb_true_r.
Qed.

(** [AddSibling] on a subtree whose prefix leaves the path: the result is
    a subtree at the same place, with the new value added. *)
Lemma AddSibling_wf pre n :
  wf pre n ->
  forall path index value ver,
  full_path path -> (index <= length path)%nat -> pre = take index path ->
  prefixMismatch n path index = Done true -> value <> deletedValue ->
  exists after,
    AddSibling n (drop index path) path value ver = Done after
    /\ wf pre after
    /\ contents pre after = <[path := value]> (contents pre n).
Proof.
  induction 1 as [pre k nv nver Hl Hk Hnv | pre k cs nver Hk Hl Hcs Hch Hliv
                  | pre n dk Hn IH Hdk];
    intros path index value ver [Hterm Hlen] Hi Hpre Hmis Hval.
  - (* Leaf *)
    subst pre. rewrite length_take, Nat.min_l in Hl by done.
    unfold prefixMismatch in Hmis. simpl in Hmis.
    rewrite prefixContainedIn_spec in Hmis by done. simpl in Hmis.
    injection Hmis as Hmis. apply negb_true_iff, bool_decide_eq_false in Hmis.
    set (s := drop index path) in *.
    assert (Hs : terminated s)
      by (apply terminated_drop; [done | unfold pathLen in *; apply terminated_length in Hk; lia]).
    assert (Hsl : length s = length k)
      by (unfold s; rewrite length_drop; unfold pathLen in *; lia).
    assert (Hne : s <> k).
    { intros E. apply Hmis. rewrite E. done. }
    pose proof (terminated_PrefixLen s k Hs Hk Hsl Hne) as Hm.
    set (m := PrefixLen s k) in *.
    destruct (terminated_lookup k m Hk) as (kc & Hkc & Hkcn); [lia|].
    destruct (terminated_lookup s m Hs) as (sc & Hsc & Hscn); [lia|].
    assert (Hcne : sc <> kc) by (apply (PrefixLen_mismatch s k); done).
    simpl. fold m. unfold at_index, slice_from. rewrite Hkc, Hsc. simpl.
    assert ((m + 1 <=? length k)%nat = true) as -> by (apply Nat.leb_le; lia).
    assert ((m + 1 <=? length s)%nat = true) as -> by (apply Nat.leb_le; lia).
    simpl. unfold NewFullNodeWithTwoChildren.
    rewrite set_child_ok by done. simpl.
    rewrite set_child_ok by (by rewrite ?length_insert). simpl.
    eexists. split; [reflexivity|].
    assert (Hps : take index path ++ s = path) by apply take_drop.
    assert (Hcpk : child_path (take index path) (take m s) (Z.to_nat kc)
                     ++ drop (m + 1) k = take index path ++ k).
    { unfold child_path. rewrite Z2Nat.id by (unfold is_nibble in *; lia).
      rewrite <- !app_assoc. f_equal. unfold m. rewrite PrefixLen_take.
      fold m. rewrite Nat.add_1_r. by apply take_drop_middle. }
    assert (Hcps : child_path (take index path) (take m s) (Z.to_nat sc)
                     ++ drop (m + 1) s = path).
    { unfold child_path. rewrite Z2Nat.id by (unfold is_nibble in *; lia).
      rewrite <- !app_assoc. rewrite <- Hps at 2. f_equal.
      rewrite Nat.add_1_r. by apply take_drop_middle. }
    split.
    + constructor.
      * apply terminated_take_nibbles; [done|lia].
      * rewrite length_take, length_take, Nat.min_l by done.
        unfold pathLen in *. lia.
      * by rewrite !length_insert.
      * intros i c Hic.
        apply two_children_lookup in Hic as [[-> ->] | [[-> ->] | ->]];
          [right | right | by left].
        -- constructor; [|apply terminated_drop; [done|lia] | done].
           unfold child_path. rewrite !length_app, !length_take, length_drop.
           simpl. unfold pathLen in *. lia.
        -- constructor; [|apply terminated_drop; [done|lia] | done].
           unfold child_path. rewrite !length_app, !length_take, length_drop.
           simpl. unfold pathLen in *. lia.
      * by rewrite living_two_children.
    + rewrite contents_two_children by done.
      rewrite !contents_Leaf_eq, Hcpk, Hcps.
      apply insert_fresh_union. apply lookup_singleton_ne.
      intros E. apply Hne. symmetry. apply (app_inv_head (take index path)).
      by rewrite Hps.
  - (* Full *)
    subst pre. rewrite length_take, Nat.min_l in Hl by done.
    unfold prefixMismatch in Hmis. simpl in Hmis.
    rewrite prefixContainedIn_spec in Hmis by done. simpl in Hmis.
    injection Hmis as Hmis. apply negb_true_iff, bool_decide_eq_false in Hmis.
    set (s := drop index path) in *.
    assert (Hs : terminated s)
      by (apply terminated_drop; [done | unfold pathLen in *; lia]).
    assert (Hsl : (length s = pathLen - index)%nat)
      by (unfold s; rewrite length_drop; unfold pathLen in *; lia).
    set (m := PrefixLen s k).
    assert (Hm : (m < length k)%nat).
    { pose proof (PrefixLen_le_r s k). fold m in H.
      destruct (decide (m = length k)) as [E|E]; [|lia].
      exfalso. apply Hmis. apply PrefixLen_full. by rewrite PrefixLen_comm. }
    destruct (lookup_lt_is_Some_2 k m Hm) as [kc Hkc].
    assert (Hkcn : is_nibble kc) by (rewrite Forall_lookup in Hk; eauto).
    destruct (terminated_lookup s m Hs) as (sc & Hsc & Hscn);
      [unfold pathLen in *; lia|].
    assert (Hcne : sc <> kc) by (apply (PrefixLen_mismatch s k); done).
    simpl. fold m. unfold at_index, slice_from. rewrite Hkc, Hsc. simpl.
    assert ((m + 1 <=? length k)%nat = true) as -> by (apply Nat.leb_le; lia).
    assert ((m + 1 <=? length s)%nat = true) as ->
      by (apply Nat.leb_le; unfold pathLen in *; lia).
    simpl. rewrite set_child_ok by done. simpl.
    rewrite set_child_ok by (by rewrite ?length_insert). simpl.
    eexists. split; [reflexivity|].
    assert (Hps : take index path ++ s = path) by apply take_drop.
    assert (Hcpk : child_path (take index path) (take m s) (Z.to_nat kc)
                     ++ drop (m + 1) k = take index path ++ k).
    { unfold child_path. rewrite Z2Nat.id by (unfold is_nibble in *; lia).
      rewrite <- !app_assoc. f_equal. unfold m. rewrite PrefixLen_take.
      fold m. rewrite Nat.add_1_r. by apply take_drop_middle. }
    assert (Hcps : child_path (take index path) (take m s) (Z.to_nat sc)
                     ++ drop (m + 1) s = path).
    { unfold child_path. rewrite Z2Nat.id by (unfold is_nibble in *; lia).
      rewrite <- !app_assoc. rewrite <- Hps at 2. f_equal.
      rewrite Nat.add_1_r. by apply take_drop_middle. }
    split.
    + constructor.
      * apply terminated_take_nibbles; [done|unfold pathLen in *; lia].
      * rewrite length_take, length_take, Nat.min_l by (unfold pathLen in *; lia).
        unfold pathLen in *. lia.
      * by rewrite !length_insert.
      * intros i c Hic.
        apply two_children_lookup in Hic as [[-> ->] | [[-> ->] | ->]];
          [right | right | by left].
        -- constructor; [|apply terminated_drop; [done|unfold pathLen in *; lia] | done].
           unfold child_path. rewrite !length_app, !length_take, length_drop.
           simpl. unfold pathLen in *. lia.
        -- constructor.
           ++ by apply Forall_drop.
           ++ unfold child_path.
              rewrite !length_app, !length_take, length_drop. simpl.
              unfold pathLen in *. lia.
           ++ done.
           ++ intros j c Hj. unfold child_path at 1. rewrite Hcpk.
              apply (Hch j c Hj).
           ++ done.
      * by rewrite living_two_children.
    + rewrite contents_two_children by done. unfold NewFull, NewLeaf.
      rewrite (contents_Full_reposition _ (drop (m + 1) k) (take index path) k
                 cs ver nver Hcpk).
      rewrite contents_Leaf_eq, Hcps.
      apply insert_fresh_union.
      destruct (contents (take index path) (Full k cs nver) !! path) eqn:E;
        [|done].
      exfalso. apply Hmis. apply contents_Full_extends in E as [x Hx].
      exists x. unfold s. rewrite Hx at 1. rewrite <- app_assoc.
      rewrite drop_app_length'; [done|]. rewrite length_take. lia.
  - (* WithDeletedKeys *)
    rewrite prefixMismatch_WithDeletedKeys in Hmis
      by exact (proj1 (wf_isLive _ _ Hn)).
    destruct (IH path index value ver (conj Hterm Hlen) Hi Hpre Hmis Hval)
      as (newNode & Hadd & Hwf & Hc).
    simpl. rewrite Hadd. simpl.
    destruct (Contains dk path) eqn:Econt; simpl.
    + destruct (size (versionnode.Remove dk path) =? 0)%nat eqn:Esize.
      * exists newNode. split; [done|]. split; [done|].
        rewrite Hc. apply map_eq. intros q.
        destruct (decide (q = path)) as [->|Hq].
        { by rewrite !lookup_insert_eq. }
        rewrite !lookup_insert_ne by done.
        rewrite lookup_contents_WithDeletedKeys.
        apply Nat.eqb_eq, map_size_empty_inv in Esize.
        assert (Contains dk q = false) as ->; [|done].
        apply (f_equal (fun d => Contains d q)) in Esize.
        rewrite Contains_delete in Esize.
        rewrite bool_decide_eq_false_2 in Esize by done.
        by rewrite andb_true_r in Esize.
      * eexists. split; [reflexivity|]. split.
        -- constructor; [done|]. intros p Hp.
           unfold versionnode.Remove in Hp.
           destruct (decide (p = path)) as [->|Hpp];
             [rewrite lookup_delete_eq in Hp; by destruct Hp|].
           rewrite lookup_delete_ne in Hp by done.
           destruct (Hdk p Hp) as [Hpre' Hnone]. split; [done|].
           by rewrite Hc, lookup_insert_ne.
        -- apply map_eq. intros q.
           rewrite lookup_contents_WithDeletedKeys, Contains_delete, Hc.
           destruct (decide (q = path)) as [->|Hq].
           ++ rewrite bool_decide_eq_true_2 by done.
              by rewrite andb_false_r, !lookup_insert_eq.
           ++ rewrite bool_decide_eq_false_2 by done.
              rewrite andb_true_r, !lookup_insert_ne by done.
              by rewrite lookup_contents_WithDeletedKeys.
    + eexists. split; [reflexivity|].
      assert (Hnp : dk !! path = None).
      { unfold Contains in Econt. apply bool_decide_eq_false in Econt.
        destruct (dk !! path) eqn:E; [|done]. exfalso. apply Econt. eauto. }
      split.
      * constructor; [done|]. intros p Hp.
        destruct (Hdk p Hp) as [Hpre' Hnone]. split; [done|].
        rewrite Hc, lookup_insert_ne; [done|].
        intros ->. rewrite Hnp in Hp. by destruct Hp.
      * apply map_eq. intros q.
        rewrite lookup_contents_WithDeletedKeys, Hc.
        destruct (decide (q = path)) as [->|Hq].
        -- rewrite Econt. by rewrite !lookup_insert_eq.
        -- rewrite !lookup_insert_ne by done.
           by rewrite lookup_contents_WithDeletedKeys.
Qed.


(** *** Replacing a child *)

Lemma lookup_replace_child pre k cs ver ver' (i : nat) x q :
  (i < length cs)%nat ->
  contents pre (Full k (<[i := x]> cs) ver') !! q =
    if decide (q !! length (pre ++ k) = Some (Z.of_nat i))
    then contents (child_path pre k i) x !! q
    else contents pre (Full k cs ver) !! q.
Proof.
  intros Hi. rewrite !lookup_contents_Full.
  destruct (q !! length (pre ++ k)) as [r|] eqn:Hr; [|by rewrite decide_False].
  destruct (decide (0 <= r)) as [Hr0|Hr0].
  - destruct (decide (Some r = Some (Z.of_nat i))) as [[= ->]|Hne].
    + by rewrite Nat2Z.id, list_lookup_insert_eq.
    + rewrite list_lookup_insert_ne; [done|]. intros E. apply Hne.
      rewrite E. by rewrite Z2Nat.id.
  - rewrite decide_False; [done|]. intros [= ->]. lia.
Qed.

Lemma contents_insert_child pre k cs ver ver' (r : Z) c x path v :
  0 <= r -> cs !! Z.to_nat r = Some c ->
  path !! length (pre ++ k) = Some r ->
  contents (child_path pre k (Z.to_nat r)) x
  = <[path := v]> (contents (child_path pre k (Z.to_nat r)) c) ->
  contents pre (Full k (<[Z.to_nat r := x]> cs) ver')
  = <[path := v]> (contents pre (Full k cs ver)).
Proof.
  intros Hr Hc Hp Hx. apply map_eq. intros q.
  rewrite (lookup_replace_child pre k cs ver ver')
    by (by apply lookup_lt_Some in Hc).
  rewrite Z2Nat.id by done.
  destruct (decide (q !! length (pre ++ k) = Some r)) as [Hq|Hq].
  - rewrite Hx. destruct (decide (q = path)) as [->|Hne].
    + by rewrite !lookup_insert_eq.
    + rewrite !lookup_insert_ne by done.
      by rewrite lookup_contents_Full, Hq, decide_True, Hc.
  - rewrite lookup_insert_ne; [done|]. intros ->. done.
Qed.

Lemma contents_delete_child pre k cs ver ver' (r : Z) c x path :
  0 <= r -> cs !! Z.to_nat r = Some c ->
  path !! length (pre ++ k) = Some r ->
  contents (child_path pre k (Z.to_nat r)) x
  = delete path (contents (child_path pre k (Z.to_nat r)) c) ->
  contents pre (Full k (<[Z.to_nat r := x]> cs) ver')
  = delete path (contents pre (Full k cs ver)).
Proof.
  intros Hr Hc Hp Hx. apply map_eq. intros q.
  rewrite (lookup_replace_child pre k cs ver ver')
    by (by apply lookup_lt_Some in Hc).
  rewrite Z2Nat.id by done.
  destruct (decide (q !! length (pre ++ k) = Some r)) as [Hq|Hq].
  - rewrite Hx. destruct (decide (q = path)) as [->|Hne].
    + by rewrite !lookup_delete_eq.
    + rewrite !lookup_delete_ne by done.
      by rewrite lookup_contents_Full, Hq, decide_True, Hc.
  - rewrite lookup_delete_ne; [done|]. intros ->. done.
Qed.

Lemma lookup_contents_Full_path pre k cs ver path (r : Z) c :
  path !! length (pre ++ k) = Some r -> 0 <= r -> cs !! Z.to_nat r = Some c ->
  contents pre (Full k cs ver) !! path
  = contents (child_path pre k (Z.to_nat r)) c !! path.
Proof. intros Hp Hr Hc. by rewrite lookup_contents_Full, Hp, decide_True, Hc. Qed.

(** *** Overlays *)

Lemma dropped_tombstone (dk : KeySet) (path p : Hex) :
  is_Some ((if Contains dk path then versionnode.Remove dk path else dk) !! p) ->
  is_Some (dk !! p) /\ p <> path.
Proof.
  destruct (Contains dk path) eqn:E.
  - unfold versionnode.Remove. intros H.
    destruct (decide (p = path)) as [->|Hne];
      [rewrite lookup_delete_eq in H; by destruct H|].
    by rewrite lookup_delete_ne in H.
  - intros H. split; [done|]. intros ->.
    unfold Contains in E. by apply bool_decide_eq_false in E.
Qed.

Lemma wf_overlay_insert pre inner after dk path v :
  wf pre (WithDeletedKeys inner dk) -> wf pre after ->
  contents pre after = <[path := v]> (contents pre inner) ->
  wf pre (WithDeletedKeys after
            (if Contains dk path then versionnode.Remove dk path else dk)).
Proof.
  intros Hw Ha Hc. inversion Hw as [| | ? ? ? Hn Hdk]; subst.
  constructor; [done|]. intros p Hp.
  apply dropped_tombstone in Hp as [Hp Hne].
  destruct (Hdk p Hp) as [Hpre Hnone]. split; [done|].
  by rewrite Hc, lookup_insert_ne.
Qed.

Lemma contents_overlay_insert pre inner after dk path v :
  contents pre after = <[path := v]> (contents pre inner) ->
  contents pre (WithDeletedKeys after
                  (if Contains dk path then versionnode.Remove dk path else dk))
  = <[path := v]> (contents pre (WithDeletedKeys inner dk)).
Proof.
  intros Hc. apply map_eq. intros q.
  rewrite lookup_contents_WithDeletedKeys, Hc.
  destruct (decide (q = path)) as [->|Hq].
  - rewrite !lookup_insert_eq. destruct (Contains dk path) eqn:E.
    + rewrite Contains_delete, bool_decide_eq_true_2 by done.
      by rewrite andb_false_r.
    + by rewrite E.
  - rewrite !lookup_insert_ne by done.
    rewrite lookup_contents_WithDeletedKeys.
    destruct (Contains dk path) eqn:E; [|done].
    rewrite Contains_delete, bool_decide_eq_false_2 by done.
    by rewrite andb_true_r.
Qed.


(** *** Collapsing a full node into its only child *)

Lemma living_one (cs : list Node) (j : nat) (c : Node) :
  living cs = 1%nat -> cs !! j = Some c -> isNil c = false ->
  forall i c', i <> j -> cs !! i = Some c' -> c' = Nil.
Proof.
  intros Hliv Hj Hc i c' Hij Hi.
  destruct (isNil c') eqn:E; [by destruct c'|]. exfalso.
  pose proof (living_insert cs i c' Nil Hi) as E1.
  assert (Hj' : <[i := Nil]> cs !! j = Some c)
    by (by rewrite list_lookup_insert_ne).
  pose proof (living_insert _ j c Nil Hj') as E2.
  rewrite E in E1. rewrite Hc in E2. simpl in *. lia.
Qed.

Lemma contents_only_child pre k cs ver (j : nat) c :
  cs !! j = Some c ->
  (forall i c', i <> j -> cs !! i = Some c' -> c' = Nil) ->
  contents pre (Full k cs ver) = contents (child_path pre k j) c.
Proof.
  intros Hj Hothers. apply map_eq. intros q. rewrite lookup_contents_Full.
  destruct (contents (child_path pre k j) c !! q) as [v|] eqn:E.
  - apply contents_selects in E as Hq. rewrite Hq.
    rewrite decide_True by lia. by rewrite Nat2Z.id, Hj.
  - destruct (q !! length (pre ++ k)) as [r|]; [|done].
    destruct (decide (0 <= r)); [|done].
    destruct (cs !! Z.to_nat r) as [c'|] eqn:Hc'; [|done].
    destruct (decide (Z.to_nat r = j)) as [<-|Hne].
    + by rewrite Hj in Hc'; injection Hc' as <-.
    + rewrite (Hothers _ _ Hne Hc'). by rewrite contents_Nil_eq, lookup_empty.
Qed.

Lemma child_path_assoc pre k (j : nat) k' (i : nat) :
  child_path (child_path pre k j) k' i
  = child_path pre (k ++ [Z.of_nat j] ++ k') i.
Proof. unfold child_path. by rewrite <- !app_assoc. Qed.

Lemma prependToKey_wf pre k (j : nat) ver c0 pre0 :
  wf pre0 c0 -> pre0 = child_path pre k j ->
  Forall is_nibble k -> (j < 16)%nat ->
  exists X, prependToKey c0 k (Z.of_nat j) ver = Done X
            /\ wf pre X
            /\ contents pre X = contents (child_path pre k j) c0.
Proof.
  assert (Hb : byte (Z.of_nat j) = Z.of_nat j \/ (16 <= j)%nat).
  { destruct (decide (j < 16)%nat); [left|right; lia].
    unfold byte. apply Z.mod_small. lia. }
  induction 1 as [pre0 lk v lver Hl Hk Hv | pre0 fk cs fver Hk Hl Hcs Hch Hliv
                  | pre0 n dk Hn IH Hdk];
    intros -> Hkn Hj; destruct Hb as [Hb|Hb]; try lia.
  - unfold prependToKey. simpl. rewrite Hb. eexists. split; [reflexivity|].
    unfold child_path in Hl. rewrite !length_app in Hl. simpl in Hl.
    split.
    + apply wf_Leaf; [rewrite !length_app; simpl; lia | | done].
      destruct Hk as (body & -> & Hbody).
      exists (k ++ [Z.of_nat j] ++ body). split; [by rewrite <- !app_assoc|].
      apply Forall_app. split; [done|]. apply Forall_app. split; [|done].
      repeat constructor; unfold is_nibble; lia.
    + unfold NewLeaf. rewrite !contents_Leaf_eq. unfold child_path.
      by rewrite <- !app_assoc.
  - unfold prependToKey. simpl. rewrite Hb. eexists. split; [reflexivity|].
    unfold child_path in Hl. rewrite !length_app in Hl. simpl in Hl.
    split.
    + apply wf_Full; [ | rewrite !length_app; simpl; lia | done | | done].
      * apply Forall_app. split; [done|].
        constructor; [unfold is_nibble; lia | done].
      * intros i c Hi. pose proof (child_path_assoc pre k j fk i) as E.
        simpl in E. rewrite <- E. by apply Hch.
    + unfold NewFull. apply contents_Full_reposition. unfold child_path.
      by rewrite <- !app_assoc.
  - destruct (IH eq_refl Hkn Hj) as (X & HX & Hw & Hc).
    unfold prependToKey in *. simpl.
    destruct (Prefix n) as [old| |]; simpl in *; try discriminate.
    rewrite HX. simpl. eexists. split; [reflexivity|]. split.
    + constructor; [done|]. intros p Hp. destruct (Hdk p Hp) as [Hpre Hnone].
      split; [|by rewrite Hc]. destruct Hpre as [s ->]. unfold child_path.
      exists (k ++ [Z.of_nat j] ++ s). by rewrite <- !app_assoc.
    + by rewrite !contents_WithDeletedKeys_eq, Hc.
Qed.

Section Descent.

Variable Keccak256 : bytes -> bytes.
Variable EncodeToBytes : rlp.item -> bytes.
Variable LoadNode : Collection -> Hex -> Z -> exec (error + Node).
Variable LoadLeaf : Collection -> Hex -> Z -> exec (error + Node).
Variable LoadValue : Collection -> Hex -> Z -> exec (error + option bytes).
Variable t : LudicrousTrie.
Variable loads : nat.

Local Abbreviation get := (ludicroustrie.get LoadValue t).
Local Abbreviation update :=
  (ludicroustrie.update Keccak256 EncodeToBytes LoadNode LoadLeaf t loads).
Local Abbreviation remove :=
  (ludicroustrie.remove Keccak256 EncodeToBytes LoadNode LoadLeaf t loads).

Lemma get_mismatch n path index :
  prefixMismatch n path index = Done true ->
  get n path index = get_NotFound path index.
Proof.
  intros H. destruct n; unfold prefixMismatch in H; simpl in *;
    try discriminate; try done; unfold prefixMismatch; simpl; by rewrite H.
Qed.

Lemma get_Nil path index :
  (index <= length path)%nat -> get Nil path index = Done getNotFound.
Proof.
  intros H. rewrite get_mismatch by done. unfold get_NotFound.
  by destruct (full_path_slices path index H) as (_ & _ & ->).
Qed.

Lemma get_return_of_lookup path index o :
  (index <= length path)%nat ->
  get_return path index (of_lookup o) = Done (of_lookup o).
Proof.
  intros H. destruct (full_path_slices path index H) as (_ & _ & Hl).
  destruct o; simpl; unfold get_Found, get_NotFound; by rewrite Hl.
Qed.

(** [get] reads the contents. *)
Lemma get_contents (n : Node) :
  forall path index,
  full_path path -> (index <= length path)%nat -> wf (take index path) n ->
  get n path index = Done (of_lookup (contents (take index path) n !! path)).
Proof.
  induction n as [| k v ver | k cs ver IH | v | h | h l ver | n dk IH]
    using Node_ind'; intros path index [Hterm Hlen] Hi Hwf;
    inversion Hwf as [? ? ? ? Hl Hk Hv | ? ? ? ? Hk Hl Hcs Hch Hliv
                      | ? ? ? Hn Hdk]; subst.
  - (* Leaf *)
    rewrite length_take, Nat.min_l in Hl by done.
    destruct (full_path_slices path index Hi) as (_ & _ & Hlog).
    simpl. unfold prefixMismatch. simpl.
    rewrite prefixContainedIn_spec by done. simpl.
    case_bool_decide as Hpre; simpl.
    + assert (k = drop index path) as ->.
      { destruct Hpre as [s Hs]. apply (f_equal length) in Hs as Hl'.
        rewrite length_app, length_drop in Hl'.
        assert (s = []) as -> by (apply nil_length_inv; unfold pathLen in *; lia).
        by rewrite app_nil_r in Hs. }
      rewrite contents_Leaf_eq, take_drop, lookup_singleton_eq. simpl.
      unfold wasDeleted, bytes_Equal. rewrite bool_decide_eq_false_2 by done.
      unfold get_Found.
      destruct (full_path_slices path (index + length (drop index path)))
        as (_ & _ & ->); [rewrite length_drop; lia|].
      simpl. unfold get_Found. by rewrite Hlog.
    + unfold get_NotFound. rewrite Hlog. simpl.
      rewrite contents_Leaf_eq, lookup_singleton_ne; [done|].
      intros E. apply Hpre. exists []. rewrite app_nil_r.
      rewrite <- E. rewrite drop_app_length'; [done|].
      rewrite length_take. lia.
  - (* Full *)
    rewrite length_take, Nat.min_l in Hl by done.
    destruct (full_path_slices path index Hi) as (_ & _ & Hlog).
    simpl. unfold prefixMismatch. simpl.
    rewrite prefixContainedIn_spec by done. simpl.
    rewrite lookup_contents_Full.
    rewrite length_app, length_take, Nat.min_l by done.
    destruct (terminated_lookup path (index + length k) Hterm) as (r & Hr & Hrn);
      [unfold pathLen in *; lia|].
    rewrite Hr. unfold is_nibble in Hrn.
    rewrite decide_True by lia.
    destruct (lookup_lt_is_Some_2 cs (Z.to_nat r)) as [c Hc];
      [rewrite Hcs; unfold NumChildren; lia|].
    rewrite Hc.
    case_bool_decide as Hpre; simpl.
    + unfold at_index. rewrite Hr. simpl. rewrite with_child_lookup, Hc.
      assert (Hcp : child_path (take index path) k (Z.to_nat r)
                    = take (index + length k + 1) path).
      { unfold child_path. rewrite take_drop_prefix by done.
        rewrite Z2Nat.id by lia. rewrite (take_S_lookup _ _ _ Hr).
        f_equal. lia. }
      rewrite Hcp.
      destruct (Hch _ _ Hc) as [-> | Hwc].
      * rewrite get_Nil by (unfold pathLen in *; lia). simpl.
        rewrite contents_Nil_eq, lookup_empty. unfold get_NotFound.
        by rewrite Hlog.
      * rewrite Forall_lookup in IH. rewrite Hcp in Hwc.
        rewrite (IH _ _ Hc path (index + length k + 1)%nat);
          [|done|unfold pathLen in *; lia|done].
        simpl. by apply get_return_of_lookup.
    + unfold get_NotFound. rewrite Hlog. simpl.
      destruct (contents _ c !! path) as [v|] eqn:E; [|done].
      exfalso. apply Hpre. apply contents_extends in E as [s Hs].
      unfold child_path in Hs. rewrite <- !app_assoc in Hs.
      exists ([Z.of_nat (Z.to_nat r)] ++ s).
      rewrite Hs at 1. rewrite drop_app_length'; [done|].
      rewrite length_take. lia.
  - (* WithDeletedKeys *)
    destruct (full_path_slices path index Hi) as (_ & _ & Hlog).
    specialize (IH path index (conj Hterm Hlen) Hi Hn).
    rewrite lookup_contents_WithDeletedKeys.
    destruct (prefixMismatch_wf _ _ path index Hn Hi) as [b Hb].
    simpl. rewrite prefixMismatch_WithDeletedKeys by exact (proj1 (wf_isLive _ _ Hn)).
    rewrite Hb. simpl. destruct b.
    + rewrite get_mismatch in IH by done.
      unfold get_NotFound in *. rewrite Hlog in *. simpl in *.
      destruct (contents _ n !! path); [done|]. by destruct (Contains dk path).
    + destruct (Contains dk path).
      * unfold get_NotFound. by rewrite Hlog.
      * rewrite IH. simpl. by apply get_return_of_lookup.
Qed.


(** The equations of [update], case by case. *)
Lemma update_mismatch n path index value :
  prefixMismatch n path index = Done true ->
  update n path index value =
    (key ← slice_from path index;
     after ← AddSibling n key path value (version t);
     Done (updateUpdated after)).
Proof.
  intros H. destruct loads, n; unfold prefixMismatch in H; simpl in *;
    try discriminate; try done; unfold prefixMismatch; simpl; by rewrite H.
Qed.

Lemma update_Leaf k nv ver path index value :
  prefixMismatch (Leaf k nv ver) path index = Done false ->
  update (Leaf k nv ver) path index value =
    if HasSameValue nv value then Done updateNotUpdated
    else Done (updateUpdated (NewLeaf k value (version t))).
Proof.
  intros H. destruct loads; unfold prefixMismatch in H; simpl in *;
    unfold prefixMismatch; simpl; by rewrite H.
Qed.

Lemma update_Full k cs ver path index value :
  prefixMismatch (Full k cs ver) path index = Done false ->
  update (Full k cs ver) path index value =
    (childRadix ← at_index path (index + length k);
     r ← with_child cs childRadix
           (fun child => update child path (index + length k + 1)%nat value);
     match r with
     | updateUpdated afterChild =>
         pathToNode ← slice_to path index;
         after ← replaceChild LoadNode LoadLeaf t k cs afterChild childRadix
                   pathToNode;
         match after with
         | inl err => Done (updateFailed err)
         | inr after => Done (updateUpdated after)
         end
     | _ => Done (updateFailedOrNotUpdated r)
     end).
Proof.
  intros H. destruct loads; unfold prefixMismatch in H; simpl in *;
    unfold prefixMismatch; simpl; by rewrite H.
Qed.

Lemma update_WithDeletedKeys inner dk path index value :
  prefixMismatch (WithDeletedKeys inner dk) path index = Done false ->
  update (WithDeletedKeys inner dk) path index value =
    (r ← update inner path index value;
     match r with
     | updateUpdated after =>
         if Contains dk path
         then Done (updateUpdated
                      (WithDeletedKeys after (versionnode.Remove dk path)))
         else Done (updateUpdated (WithDeletedKeys after dk))
     | _ => Done (updateFailedOrNotUpdated r)
     end).
Proof.
  intros H. destruct loads; unfold prefixMismatch in H; simpl in *;
    unfold prefixMismatch; simpl; by rewrite H.
Qed.

(** Under a mismatch the path is not among the contents. *)
Lemma mismatch_contents_None n path index :
  full_path path -> (index <= length path)%nat -> wf (take index path) n ->
  prefixMismatch n path index = Done true ->
  contents (take index path) n !! path = None.
Proof.
  intros Hp Hi Hwf Hmis. pose proof (get_contents n path index Hp Hi Hwf) as Hg.
  rewrite get_mismatch in Hg by done. unfold get_NotFound in Hg.
  destruct (full_path_slices path index Hi) as (_ & _ & Hlog).
  rewrite Hlog in Hg. simpl in Hg.
  by destruct (contents (take index path) n !! path).
Qed.

(** [replaceChild] when two children or more live afterwards. *)
Lemma replaceChild_many k cs x (r : Z) pathToNode :
  is_nibble r -> length cs = NumChildren ->
  (2 <= living (<[Z.to_nat r := x]> cs))%nat ->
  replaceChild LoadNode LoadLeaf t k cs x r pathToNode
  = Done (inr (NewFull k (<[Z.to_nat r := x]> cs) (version t))).
Proof.
  intros Hr Hcs Hliv. unfold replaceChild, Replace.
  rewrite set_child_ok by done. simpl.
  pose proof (LastLivingChild_spec (<[Z.to_nat r := x]> cs)) as Hll.
  destruct (LastLivingChild (<[Z.to_nat r := x]> cs)) as [i only].
  destruct Hll as [(H0 & _) | (j & c & _ & _ & _ & _ & ->)]; [lia|].
  rewrite bool_decide_eq_false_2 by lia. done.
Qed.

Lemma update_mismatch_wf n path index value :
  full_path path -> (index <= length path)%nat -> wf (take index path) n ->
  value <> deletedValue -> prefixMismatch n path index = Done true ->
  contents (take index path) n !! path <> Some value
  /\ exists after,
       update n path index value = Done (updateUpdated after)
       /\ wf (take index path) after
       /\ contents (take index path) after
          = <[path := value]> (contents (take index path) n).
Proof.
  intros Hp Hi Hwf Hval Hmis.
  rewrite (mismatch_contents_None _ _ _ Hp Hi Hwf Hmis). split; [done|].
  destruct (AddSibling_wf _ _ Hwf path index value (version t) Hp Hi
              eq_refl Hmis Hval) as (after & Hadd & Ha & Hc).
  exists after. split; [|done]. rewrite update_mismatch by done.
  destruct (full_path_slices path index Hi) as (-> & _ & _).
  change (update n path index value) with (update n path index value).
  cbn [mbind exec_bind]. rewrite Hadd. done.
Qed.

(** [update] on a subtree: nothing changes when the path already holds
    the value; otherwise the result is a subtree at the same place whose
    contents are those before with the value at the path. *)
Lemma update_contents (n : Node) :
  forall path index value,
  full_path path -> (index <= length path)%nat -> wf (take index path) n ->
  value <> deletedValue ->
  (contents (take index path) n !! path = Some value
   /\ update n path index value = Done updateNotUpdated)
  \/ (contents (take index path) n !! path <> Some value
      /\ exists after,
           update n path index value = Done (updateUpdated after)
           /\ wf (take index path) after
           /\ contents (take index path) after
              = <[path := value]> (contents (take index path) n)).
Proof.
  induction n as [| k nv ver | k cs ver IH | v | h | h l ver | n dk IH]
    using Node_ind'; intros path index value Hp Hi Hwf Hval;
    try (by inversion Hwf).
  - (* Leaf *)
    destruct (prefixMismatch_wf _ _ path index Hwf Hi) as [[] Hmis].
    { right. by apply update_mismatch_wf. }
    rewrite update_Leaf by done.
    pose proof (get_contents _ path index Hp Hi Hwf) as Hg.
    inversion Hwf as [? ? ? ? Hl Hk Hv | |]; subst.
    rewrite contents_Leaf_eq in *.
    assert (Hkey : take index path ++ k = path).
    { unfold prefixMismatch in Hmis. simpl in Hmis.
      rewrite prefixContainedIn_spec in Hmis by done. simpl in Hmis.
      injection Hmis as Hmis. apply negb_false_iff, bool_decide_eq_true in Hmis.
      destruct Hmis as [s Hs]. destruct Hp as [_ Hlen].
      rewrite length_take, Nat.min_l in Hl by done.
      apply (f_equal length) in Hs as Hl'.
      rewrite length_app, length_drop in Hl'.
      assert (s = []) as -> by (apply nil_length_inv; unfold pathLen in *; lia).
      rewrite app_nil_r in Hs. rewrite <- Hs. apply take_drop. }
    rewrite Hkey, lookup_singleton_eq.
    unfold HasSameValue, bytes_Equal. case_bool_decide as Hsame.
    + left. by subst.
    + right. split; [congruence|]. eexists. split; [reflexivity|]. split.
      * by constructor.
      * unfold NewLeaf. rewrite contents_Leaf_eq, Hkey.
        by rewrite insert_singleton_eq.
  - (* Full *)
    destruct (prefixMismatch_wf _ _ path index Hwf Hi) as [[] Hmis].
    { right. by apply update_mismatch_wf. }
    rewrite update_Full by done.
    inversion Hwf as [| ? ? ? ? Hk Hl Hcs Hch Hliv |]; subst.
    destruct Hp as [Hterm Hlen].
    rewrite length_take, Nat.min_l in Hl by done.
    assert (Hpre : k `prefix_of` drop index path).
    { unfold prefixMismatch in Hmis. simpl in Hmis.
      rewrite prefixContainedIn_spec in Hmis by done. simpl in Hmis.
      injection Hmis as Hmis. by apply negb_false_iff, bool_decide_eq_true in Hmis. }
    destruct (terminated_lookup path (index + length k) Hterm) as (r & Hr & Hrn);
      [unfold pathLen in *; lia|].
    pose proof Hrn as Hrn'. unfold is_nibble in Hrn'.
    destruct (lookup_lt_is_Some_2 cs (Z.to_nat r)) as [c Hc];
      [rewrite Hcs; unfold NumChildren; lia|].
    assert (Hcp : child_path (take index path) k (Z.to_nat r)
                  = take (index + length k + 1) path).
    { unfold child_path. rewrite take_drop_prefix by done.
      rewrite Z2Nat.id by lia. rewrite (take_S_lookup _ _ _ Hr).
      f_equal. lia. }
    assert (Hsel : path !! length (take index path ++ k) = Some r).
    { by rewrite length_app, length_take, Nat.min_l. }
    rewrite (lookup_contents_Full_path _ _ _ _ _ r c Hsel) by (done || lia).
    unfold at_index. rewrite Hr. simpl. rewrite with_child_lookup, Hc.
    destruct (full_path_slices path index Hi) as (_ & Hto & _).
    assert (Hchild :
      (contents (child_path (take index path) k (Z.to_nat r)) c !! path
         = Some value
       /\ update c path (index + length k + 1)%nat value = Done updateNotUpdated)
      \/ (contents (child_path (take index path) k (Z.to_nat r)) c !! path
            <> Some value
          /\ exists after,
               update c path (index + length k + 1)%nat value
                 = Done (updateUpdated after)
               /\ wf (child_path (take index path) k (Z.to_nat r)) after
               /\ contents (child_path (take index path) k (Z.to_nat r)) after
                  = <[path := value]>
                      (contents (child_path (take index path) k (Z.to_nat r)) c))).
    { destruct (Hch _ _ Hc) as [-> | Hwc].
      - right. rewrite contents_Nil_eq, lookup_empty. split; [done|].
        rewrite update_mismatch by done.
        destruct (full_path_slices path (index + length k + 1))
          as (-> & _ & _); [unfold pathLen in *; lia|].
        simpl. eexists. split; [reflexivity|]. rewrite Hcp. split.
        + constructor; [|apply terminated_drop; [done|unfold pathLen in *; lia]
                        |done].
          rewrite length_take, length_drop. unfold pathLen in *. lia.
        + unfold NewLeaf. rewrite contents_Leaf_eq, take_drop.
          by rewrite insert_empty.
      - rewrite Forall_lookup in IH. rewrite Hcp in *.
        apply (IH _ _ Hc); [done | unfold pathLen in *; lia | done | done]. }
    destruct Hchild as [[Hsome ->] | [Hne (afterChild & -> & Hwa & Hca)]].
    + left. done.
    + right. split; [done|]. simpl. rewrite Hto. simpl.
      assert (Hliv' : (2 <= living (<[Z.to_nat r := afterChild]> cs))%nat).
      { pose proof (living_insert cs _ _ afterChild Hc) as E.
        rewrite (proj2 (wf_isLive _ _ Hwa)) in E.
        destruct (isNil c); lia. }
      rewrite replaceChild_many by done. simpl.
      eexists. split; [reflexivity|]. split.
      * apply wf_Full; [done | rewrite length_take; lia
                      | by rewrite length_insert | | done].
        intros i c' Hi'.
        apply list_lookup_insert_Some in Hi' as [(<- & <- & _) | [Hne' Hi']];
          [by right | by apply Hch].
      * unfold NewFull.
        apply (contents_insert_child _ _ _ ver _ r c); [lia|done..].
  - (* WithDeletedKeys *)
    destruct (prefixMismatch_wf _ _ path index Hwf Hi) as [[] Hmis].
    { right. by apply update_mismatch_wf. }
    rewrite update_WithDeletedKeys by done.
    inversion Hwf as [| | ? ? ? Hn Hdk]; subst.
    rewrite lookup_contents_WithDeletedKeys.
    destruct (IH path index value Hp Hi Hn Hval)
      as [[Hsome ->] | [Hne (after & -> & Hwa & Hca)]]; simpl.
    + left. split; [|done].
      assert (Contains dk path = false) as ->; [|done].
      apply bool_decide_eq_false. intros Hin.
      destruct (Hdk path Hin) as [_ Hnone]. congruence.
    + right. split; [by destruct (Contains dk path)|].
      exists (WithDeletedKeys after
                (if Contains dk path then versionnode.Remove dk path else dk)).
      split; [by destruct (Contains dk path)|]. split.
      * by apply (wf_overlay_insert _ n _ _ _ value).
      * by apply contents_overlay_insert.
Qed.


(** The equations of [remove], case by case. *)
Lemma remove_mismatch n path index :
  prefixMismatch n path index = Done true ->
  remove n path index = Done removeNotRemoved.
Proof.
  intros H. destruct loads, n; unfold prefixMismatch in H; simpl in *;
    try discriminate; try done; unfold prefixMismatch; simpl; by rewrite H.
Qed.

Lemma remove_Leaf k nv ver path index :
  prefixMismatch (Leaf k nv ver) path index = Done false ->
  remove (Leaf k nv ver) path index =
    if wasDeleted nv then Panic
    else Done (removeRemoved Nil (NewKeySet path (version t))).
Proof.
  intros H. destruct loads; unfold prefixMismatch in H; simpl in *;
    unfold prefixMismatch; simpl; by rewrite H.
Qed.

Lemma remove_Full k cs ver path index :
  prefixMismatch (Full k cs ver) path index = Done false ->
  remove (Full k cs ver) path index =
    (childRadix ← at_index path (index + length k);
     r ← with_child cs childRadix
           (fun child => remove child path (index + length k + 1)%nat);
     match r with
     | removeRemoved afterChild deletedKeys =>
         pathToNode ← slice_to path index;
         after ← replaceChild LoadNode LoadLeaf t k cs afterChild childRadix
                   pathToNode;
         match after with
         | inl err => Done (removeFailed err)
         | inr after =>
             if (size deletedKeys =? 0)%nat
             then Done (removeRemoved after noDeletedKeys)
             else Done (removeRemoved (WithDeletedKeys after deletedKeys)
                          noDeletedKeys)
         end
     | _ => Done (removeFailedOrNotRemoved r)
     end).
Proof.
  intros H. destruct loads; unfold prefixMismatch in H; simpl in *;
    unfold prefixMismatch; simpl; by rewrite H.
Qed.

Lemma remove_WithDeletedKeys inner dk path index :
  prefixMismatch (WithDeletedKeys inner dk) path index = Done false ->
  remove (WithDeletedKeys inner dk) path index =
    if Contains dk path then Done removeNotRemoved
    else
      r ← remove inner path index;
      match r with
      | removeRemoved after newDeletedKeys =>
          let allDeletedKeys := Merge dk newDeletedKeys in
          if isNil after then Done (removeRemoved after allDeletedKeys)
          else Done (removeRemoved (WithDeletedKeys after allDeletedKeys)
                       noDeletedKeys)
      | _ => Done (removeFailedOrNotRemoved r)
      end.
Proof.
  intros H. destruct loads; unfold prefixMismatch in H; simpl in *;
    unfold prefixMismatch; simpl; by rewrite H.
Qed.

(** [replaceChild] on the children of a subtree, one of which has been
    replaced by the nil node or by a subtree: the result is a subtree at
    the same place with the contents of the new children. *)
Lemma replaceChild_wf pre k cs ver (r : Z) c x pathToNode :
  wf pre (Full k cs ver) -> is_nibble r -> cs !! Z.to_nat r = Some c ->
  isNil c = false ->
  x = Nil \/ wf (child_path pre k (Z.to_nat r)) x ->
  exists after,
    replaceChild LoadNode LoadLeaf t k cs x r pathToNode = Done (inr after)
    /\ wf pre after
    /\ contents pre after
       = contents pre (Full k (<[Z.to_nat r := x]> cs) ver).
Proof.
  intros Hwf Hr Hc Hcl Hx.
  inversion Hwf as [| ? ? ? ? Hk Hl Hcs Hch Hliv |]; subst.
  set (cs' := <[Z.to_nat r := x]> cs).
  assert (Hch' : forall i c', cs' !! i = Some c' ->
                              c' = Nil \/ wf (child_path pre k i) c').
  { intros i c' Hi.
    apply list_lookup_insert_Some in Hi as [(<- & <- & _) | [Hne' Hi]];
      [done | by apply Hch]. }
  assert (Hliv' : (1 <= living cs')%nat).
  { pose proof (living_insert cs _ _ x Hc) as E. fold cs' in E.
    rewrite Hcl in E. destruct (isNil x); lia. }
  unfold replaceChild, Replace. rewrite set_child_ok by done. simpl.
  fold cs'. pose proof (LastLivingChild_spec cs') as Hll.
  destruct (LastLivingChild cs') as [i only].
  destruct Hll as [(H0 & _) | (j & c' & -> & Hj & Hc' & _ & ->)]; [lia|].
  case_bool_decide as Hone.
  - unfold at_index. rewrite Nat2Z.id, Hj. simpl.
    assert (Hj16 : (j < 16)%nat).
    { apply lookup_lt_Some in Hj. unfold cs' in Hj.
      rewrite length_insert, Hcs in Hj. exact Hj. }
    destruct (Hch' _ _ Hj) as [-> | Hwc]; [done|].
    destruct (prependToKey_wf pre k j (version t) c' _ Hwc eq_refl Hk Hj16)
      as (X & HX & HwX & HcX).
    exists X. split.
    + destruct Hwc; rewrite HX; done.
    + split; [done|]. rewrite HcX. symmetry.
      apply contents_only_child; [done|].
      by apply (living_one cs' j c').
  - eexists. split; [reflexivity|]. split; [|done].
    apply wf_Full; [done | done | by unfold cs'; rewrite length_insert
                    | done | lia].
Qed.

(** [remove] on a subtree: nothing changes when the path holds no value;
    otherwise the result has the contents before without the path, and it
    is either the nil node with tombstones below the place of the
    subtree, or a subtree at the same place without tombstones to hand
    up. *)
Lemma remove_contents (n : Node) :
  forall path index,
  full_path path -> (index <= length path)%nat -> wf (take index path) n ->
  (contents (take index path) n !! path = None
   /\ remove n path index = Done removeNotRemoved)
  \/ (is_Some (contents (take index path) n !! path)
      /\ exists after dk,
           remove n path index = Done (removeRemoved after dk)
           /\ contents (take index path) after
              = delete path (contents (take index path) n)
           /\ ((after = Nil
                /\ forall p, is_Some (dk !! p) -> take index path `prefix_of` p)
               \/ (wf (take index path) after /\ dk = ∅))).
Proof.
  induction n as [| k nv ver | k cs ver IH | v | h | h l ver | n dk IH]
    using Node_ind'; intros path index Hp Hi Hwf;
    try (by inversion Hwf);
    (destruct (prefixMismatch_wf _ _ path index Hwf Hi) as [[] Hmis];
     [left; split; [by apply (mismatch_contents_None _ _ _ Hp Hi Hwf Hmis)
                   | by apply remove_mismatch] |]).
  - (* Leaf *)
    rewrite remove_Leaf by done.
    inversion Hwf as [? ? ? ? Hl Hk Hv | |]; subst.
    rewrite contents_Leaf_eq in *.
    assert (Hkey : take index path ++ k = path).
    { unfold prefixMismatch in Hmis. simpl in Hmis.
      rewrite prefixContainedIn_spec in Hmis by done. simpl in Hmis.
      injection Hmis as Hmis. apply negb_false_iff, bool_decide_eq_true in Hmis.
      destruct Hmis as [s Hs]. destruct Hp as [_ Hlen].
      rewrite length_take, Nat.min_l in Hl by done.
      apply (f_equal length) in Hs as Hl'.
      rewrite length_app, length_drop in Hl'.
      assert (s = []) as -> by (apply nil_length_inv; unfold pathLen in *; lia).
      rewrite app_nil_r in Hs. rewrite <- Hs. apply take_drop. }
    rewrite Hkey, lookup_singleton_eq.
    unfold wasDeleted, bytes_Equal. rewrite bool_decide_eq_false_2 by done.
    right. split; [done|]. eexists _, _. split; [reflexivity|]. split.
    + by rewrite contents_Nil_eq, delete_singleton_eq.
    + left. split; [done|]. intros p Hp'. unfold NewKeySet in Hp'.
      destruct Hp' as [x Hx]. apply lookup_singleton_Some in Hx as [<- _].
      exists k. by rewrite Hkey.
  - (* Full *)
    rewrite remove_Full by done.
    inversion Hwf as [| ? ? ? ? Hk Hl Hcs Hch Hliv |]; subst.
    destruct Hp as [Hterm Hlen].
    rewrite length_take, Nat.min_l in Hl by done.
    assert (Hpre : k `prefix_of` drop index path).
    { unfold prefixMismatch in Hmis. simpl in Hmis.
      rewrite prefixContainedIn_spec in Hmis by done. simpl in Hmis.
      injection Hmis as Hmis. by apply negb_false_iff, bool_decide_eq_true in Hmis. }
    destruct (terminated_lookup path (index + length k) Hterm) as (r & Hr & Hrn);
      [unfold pathLen in *; lia|].
    pose proof Hrn as Hrn'. unfold is_nibble in Hrn'.
    destruct (lookup_lt_is_Some_2 cs (Z.to_nat r)) as [c Hc];
      [rewrite Hcs; unfold NumChildren; lia|].
    assert (Hcp : child_path (take index path) k (Z.to_nat r)
                  = take (index + length k + 1) path).
    { unfold child_path. rewrite take_drop_prefix by done.
      rewrite Z2Nat.id by lia. rewrite (take_S_lookup _ _ _ Hr).
      f_equal. lia. }
    assert (Hsel : path !! length (take index path ++ k) = Some r).
    { by rewrite length_app, length_take, Nat.min_l. }
    rewrite (lookup_contents_Full_path _ _ _ _ _ r c Hsel) by (done || lia).
    unfold at_index. rewrite Hr. simpl. rewrite with_child_lookup, Hc.
    destruct (full_path_slices path index Hi) as (_ & Hto & _).
    destruct (Hch _ _ Hc) as [-> | Hwc].
    { left. rewrite contents_Nil_eq, lookup_empty. split; [done|].
      by rewrite remove_mismatch. }
    rewrite Forall_lookup in IH.
    pose proof (IH _ _ Hc path (index + length k + 1)%nat (conj Hterm Hlen))
      as IHc.
    rewrite <- Hcp in IHc.
    destruct IHc as [[Hnone ->] | [Hsome (afterChild & dkc & -> & Hca & Hshape)]];
      [unfold pathLen in *; lia | done | by left |].
    right. split; [done|]. simpl. rewrite Hto. simpl.
    assert (Hx : afterChild = Nil
                 \/ wf (child_path (take index path) k (Z.to_nat r)) afterChild).
    { destruct Hshape as [[-> _] | [H _]]; auto. }
    destruct (replaceChild_wf _ _ _ _ r c afterChild (take index path) Hwf Hrn
                Hc (proj2 (wf_isLive _ _ Hwc)) Hx) as (X & -> & HwX & HcX).
    simpl.
    assert (HcX' : contents (take index path) X
                   = delete path (contents (take index path) (Full k cs ver))).
    { rewrite HcX. apply (contents_delete_child _ _ _ ver _ r c); [lia|done..]. }
    destruct (size dkc =? 0)%nat eqn:Esize.
    + eexists _, _. split; [reflexivity|]. split; [done|]. by right.
    + assert (Hdkc : forall p, is_Some (dkc !! p) ->
                take index path `prefix_of` p
                /\ contents (take index path) X !! p = None).
      { destruct Hshape as [[-> HT1] | [_ ->]];
          [|by rewrite map_size_empty in Esize].
        intros p Hp'. specialize (HT1 p Hp'). destruct HT1 as [s ->].
        split.
        { unfold child_path. exists (k ++ [Z.of_nat (Z.to_nat r)] ++ s).
          by rewrite <- !app_assoc. }
        rewrite HcX'. destruct (decide (child_path (take index path) k
                                          (Z.to_nat r) ++ s = path)) as [->|Hne];
          [by rewrite lookup_delete_eq|].
        rewrite lookup_delete_ne by done.
        rewrite (lookup_contents_Full_path _ _ _ _ _ r c)
          by (rewrite ?child_path_lookup, ?Z2Nat.id; (done || lia)).
        rewrite contents_Nil_eq in Hca.
        assert (E : delete path (contents (child_path (take index path) k
                                             (Z.to_nat r)) c)
                    !! (child_path (take index path) k (Z.to_nat r) ++ s) = None)
          by (by rewrite <- Hca, lookup_empty).
        by rewrite lookup_delete_ne in E. }
      eexists _, _. split; [reflexivity|]. split; [|right; split; [|done]].
      * rewrite <- HcX'. apply map_eq. intros q.
        rewrite lookup_contents_WithDeletedKeys.
        destruct (Contains dkc q) eqn:E; [|done].
        apply bool_decide_eq_true in E. symmetry. by apply Hdkc.
      * by constructor.
  - (* WithDeletedKeys *)
    rewrite remove_WithDeletedKeys by done.
    inversion Hwf as [| | ? ? ? Hn Hdk]; subst.
    rewrite lookup_contents_WithDeletedKeys.
    destruct (Contains dk path) eqn:Econt; [by left|].
    destruct (IH path index Hp Hi Hn)
      as [[Hnone ->] | [Hsome (after & dkn & -> & Hca & Hshape)]];
      [by left|].
    right. split; [done|]. simpl.
    assert (Hfilter : forall m : gmap (list Z) (list Z),
              filter (fun e : list Z * list Z => dk !! e.1 = None)
                     (delete path m)
              = delete path (filter (fun e : list Z * list Z => dk !! e.1 = None) m)).
    { intros m. apply map_eq. intros q.
      destruct (decide (q = path)) as [->|Hq].
      - rewrite lookup_delete_eq. apply map_lookup_filter_None. left.
        by rewrite lookup_delete_eq.
      - rewrite lookup_delete_ne by done.
        destruct (filter _ m !! q) as [v|] eqn:E.
        + apply map_lookup_filter_Some in E as [E1 E2].
          apply map_lookup_filter_Some. by rewrite lookup_delete_ne.
        + apply map_lookup_filter_None in E as [E|E];
            apply map_lookup_filter_None; rewrite lookup_delete_ne by done;
            [by left | by right]. }
    destruct Hshape as [[-> HT1] | [Hwa ->]]; simpl.
    + eexists _, _. split; [reflexivity|]. split.
      * rewrite contents_Nil_eq in *. rewrite contents_WithDeletedKeys_eq.
        rewrite <- Hfilter, <- Hca. by rewrite map_filter_empty.
      * left. split; [done|]. intros p Hp'. unfold Merge in Hp'.
        destruct Hp' as [x Hx]. apply lookup_union_Some_raw in Hx as [Hx|[_ Hx]].
        -- apply HT1. eauto.
        -- apply Hdk. eauto.
    + rewrite (proj2 (wf_isLive _ _ Hwa)).
      eexists _, _. split; [reflexivity|]. unfold Merge.
      rewrite (left_id_L ∅ (∪)). split; [|right; split; [|done]].
      * rewrite !contents_WithDeletedKeys_eq, Hca. apply Hfilter.
      * constructor; [done|]. intros p Hp'. destruct (Hdk p Hp') as [H1 H2].
        split; [done|]. rewrite Hca.
        destruct (decide (p = path)) as [->|Hne];
          [by rewrite lookup_delete_eq | by rewrite lookup_delete_ne].
Qed.

End Descent.

End trie_inv.


(** ** The public operations on reachable tries *)

Module trie_top.
Import encoding versionnode storage ludicroustrie trie_model encoding_props trie_inv trie_props.
#[local] Arguments contents : simpl never.

(** *** Keys and their paths *)

Lemma expand_nibbles (k : bytes) : Forall is_byte k -> Forall is_nibble (expand k).
Proof.
  induction 1 as [|b k Hb _ IH]; simpl; [done|].
  unfold is_byte in Hb. constructor; [|constructor; [|done]]; unfold is_nibble.
  - split; [apply Z.div_pos; lia | apply Z.div_lt_upper_bound; lia].
  - apply Z.mod_pos_bound. lia.
Qed.

Lemma expand_length (k : bytes) : length (expand k) = (2 * length k)%nat.
Proof. induction k as [|b k IH]; simpl; [done|]. rewrite IH. lia. Qed.

Lemma Keybytes_Hex_full_path (k : bytes) :
  valid_key k -> full_path (Keybytes_Hex k).
Proof.
  intros [Hl Hk]. rewrite Keybytes_Hex_expand. split.
  - exists (expand k). split; [done|]. by apply expand_nibbles.
  - rewrite length_app, expand_length, Hl. reflexivity.
Qed.

Lemma Keybytes_Hex_inj (k1 k2 : bytes) :
  Keybytes_Hex k1 = Keybytes_Hex k2 -> k1 = k2.
Proof.
  rewrite !Keybytes_Hex_expand. intros H. apply app_inj_tail in H as [H _].
  revert k2 H. induction k1 as [|a k1 IH]; intros [|b k2] H; simpl in H;
    try done.
  injection H as H1 H2 H3. f_equal; [|by apply IH].
  rewrite (Z.div_mod a 16), (Z.div_mod b 16) by lia. by rewrite H1, H2.
Qed.

Lemma checkKey_valid (k : bytes) : valid_key k -> checkKey (Some k) = None.
Proof. intros [Hl _]. simpl. by rewrite Hl. Qed.

Lemma checkValue_valid (v : bytes) : valid_value v -> checkValue (Some v) = None.
Proof.
  intros [_ Hv]. simpl. unfold bytes_Equal. by rewrite bool_decide_eq_false_2.
Qed.

Lemma wf_canonical_shape (n : Node) :
  forall pre, wf pre n -> canonical_shape n = true.
Proof.
  induction n as [| k v ver | k cs ver IH | v | h | h l ver | n dk IH]
    using Node_ind'; intros pre Hwf;
    inversion Hwf as [| ? ? ? ? Hk Hl Hcs Hch Hliv | ? ? ? Hn Hdk]; subst;
    simpl; try done.
  - apply andb_true_intro. split; [by apply Nat.leb_le in Hliv|].
    apply forallb_forall. intros c Hc. apply list_elem_of_In in Hc.
    apply list_elem_of_lookup in Hc as [i Hi].
    rewrite Forall_lookup in IH.
    destruct (Hch _ _ Hi) as [-> | Hw]; [done | by apply (IH _ _ Hi _ Hw)].
  - eauto.
Qed.

Lemma wf_root_canonical_shape (n : Node) : wf_root n -> canonical_shape n = true.
Proof.
  intros [-> | [[dk ->] | H]]; [done | done | by apply (wf_canonical_shape _ [])].
Qed.

Lemma contents_root_empty (n : Node) :
  n = Nil \/ (exists dk, n = WithDeletedKeys Nil dk) -> contents [] n = ∅.
Proof.
  intros [-> | [dk ->]]; [done|].
  rewrite contents_WithDeletedKeys_eq, contents_Nil_eq. apply map_filter_empty.
Qed.

Section Root.

Variable Keccak256 : bytes -> bytes.
Variable EncodeToBytes : rlp.item -> bytes.
Variable LoadNode : Collection -> Hex -> Z -> exec (error + Node).
Variable LoadLeaf : Collection -> Hex -> Z -> exec (error + Node).
Variable LoadValue : Collection -> Hex -> Z -> exec (error + option bytes).
Variable loads : nat.

Local Abbreviation Get := (ludicroustrie.Get LoadValue).
Local Abbreviation Update_status :=
  (ludicroustrie.Update_status Keccak256 EncodeToBytes LoadNode LoadLeaf).
Local Abbreviation Remove_status :=
  (ludicroustrie.Remove_status Keccak256 EncodeToBytes LoadNode LoadLeaf).
Local Abbreviation Update :=
  (ludicroustrie.Update Keccak256 EncodeToBytes LoadNode LoadLeaf).
Local Abbreviation Remove :=
  (ludicroustrie.Remove Keccak256 EncodeToBytes LoadNode LoadLeaf).
Local Abbreviation update :=
  (ludicroustrie.update Keccak256 EncodeToBytes LoadNode LoadLeaf).
Local Abbreviation remove :=
  (ludicroustrie.remove Keccak256 EncodeToBytes LoadNode LoadLeaf).
Local Abbreviation run :=
  (trie_model.run Keccak256 EncodeToBytes LoadNode LoadLeaf loads).

(** [Get] reads the contents of the root. *)
Lemma Get_root (t : LudicrousTrie) (k : bytes) :
  wf_root (root t) -> valid_key k ->
  Get t (Some k) = Done (contents [] (root t) !! Keybytes_Hex k, None).
Proof.
  intros Hroot Hk. unfold ludicroustrie.Get.
  rewrite checkKey_valid by done.
  pose proof (Keybytes_Hex_full_path k Hk) as Hp.
  assert (Hg : ludicroustrie.get LoadValue t (root t) (Keybytes_Hex k) 0
               = Done (of_lookup (contents [] (root t) !! Keybytes_Hex k))).
  { destruct Hroot as [Hn | [Hn | Hw]].
    - rewrite contents_root_empty by auto. rewrite Hn, lookup_empty.
      apply get_Nil. lia.
    - rewrite contents_root_empty by auto. destruct Hn as [dk ->].
      rewrite lookup_empty. rewrite get_mismatch by done.
      unfold get_NotFound.
      by destruct (full_path_slices (Keybytes_Hex k) 0) as (_ & _ & ->); [lia|].
    - apply (get_contents LoadValue t (root t) (Keybytes_Hex k) 0 Hp); [lia|done]. }
  rewrite Hg. by destruct (contents [] (root t) !! Keybytes_Hex k).
Qed.

(** [Update] with an accepted key and value. *)
Lemma Update_root (t : LudicrousTrie) (k v : bytes) :
  wf_root (root t) -> valid_key k -> valid_value v ->
  exists t' st,
    Update_status t loads (Some k) (Some v) = Done (t', Some st, None)
    /\ wf_root (root t')
    /\ contents [] (root t') = <[Keybytes_Hex k := v]> (contents [] (root t))
    /\ version t' = version t /\ storage_ t' = storage_ t
    /\ (contents [] (root t) !! Keybytes_Hex k = Some v ->
        st = updateNotUpdated /\ t' = t)
    /\ (st = updateNotUpdated -> t' = t).
Proof.
  intros Hroot Hk Hv. unfold ludicroustrie.Update_status.
  rewrite checkKey_valid, checkValue_valid by done.
  pose proof (Keybytes_Hex_full_path k Hk) as Hp.
  set (path := Keybytes_Hex k) in *.
  assert (Hvd : v <> deletedValue) by apply Hv.
  assert (H0 : (0 <= length path)%nat) by lia.
  destruct (full_path_slices path 0 H0) as (Hfrom & _ & _).
  destruct Hroot as [Hn | [[dk Hn] | Hw]].
  - (* the nil root *)
    rewrite Hn. rewrite update_mismatch by done. rewrite Hfrom. simpl.
    eexists _, _. split; [reflexivity|]. simpl.
    rewrite contents_Nil_eq, insert_empty, lookup_empty.
    split; [|done]. right; right. apply wf_Leaf; [|apply Hp|done].
    simpl. apply Hp.
  - (* the nil root under an overlay *)
    rewrite Hn. rewrite update_mismatch by done. rewrite Hfrom.
    rewrite contents_root_empty by eauto. rewrite insert_empty, lookup_empty.
    assert (HwL : wf [] (Leaf path v (version t)))
      by (apply wf_Leaf; [apply Hp | apply Hp | done]).
    assert (HT : forall dk' : KeySet, dk' !! path = None ->
              wf [] (WithDeletedKeys (Leaf path v (version t)) dk')
              /\ contents [] (WithDeletedKeys (Leaf path v (version t)) dk')
                 = {[ path := v ]}).
    { intros dk' Hnone. split.
      - constructor; [done|]. intros p Hp'. split; [by exists p|].
        rewrite contents_Leaf_eq. apply lookup_singleton_ne.
        intros <-. simpl in Hp'. rewrite Hnone in Hp'. by destruct Hp'.
      - apply map_eq. intros q. rewrite lookup_contents_WithDeletedKeys.
        rewrite contents_Leaf_eq. simpl.
        destruct (Contains dk' q) eqn:E; [|done].
        apply bool_decide_eq_true in E. symmetry. apply lookup_singleton_ne.
        intros <-. rewrite Hnone in E. by destruct E. }
    simpl. destruct (Contains dk path) eqn:Econt; simpl.
    + destruct (size (versionnode.Remove dk path) =? 0)%nat.
      * eexists _, _. split; [reflexivity|]. simpl. split; [by right; right|].
        by rewrite contents_Leaf_eq.
      * eexists _, _. split; [reflexivity|]. simpl.
        destruct (HT (versionnode.Remove dk path)) as [H1 H2];
          [apply lookup_delete_eq|].
        split; [by right; right|]. done.
    + eexists _, _. split; [reflexivity|]. simpl.
      destruct (HT dk) as [H1 H2].
      { apply bool_decide_eq_false in Econt.
        destruct (dk !! path) eqn:E; [|done]. exfalso. apply Econt. eauto. }
      split; [by right; right|]. done.
  - (* a subtree *)
    destruct (update_contents Keccak256 EncodeToBytes LoadNode LoadLeaf LoadValue
                t loads (root t) path 0 v Hp H0 Hw Hvd)
      as [[Hsome ->] | [Hne (after & -> & Hwa & Hca)]]; simpl in *.
    + exists t, updateNotUpdated. split; [done|]. split; [by right; right|].
      split; [by rewrite insert_id|]. done.
    + eexists _, _. split; [reflexivity|]. simpl.
      split; [by right; right|]. split; [done|]. split; [done|].
      split; [done|]. split; [done|]. done.
Qed.

(** [Remove] with an accepted key. *)
Lemma Remove_root (t : LudicrousTrie) (k : bytes) :
  wf_root (root t) -> valid_key k ->
  exists t' st,
    Remove_status t loads (Some k) = Done (t', Some st, None)
    /\ wf_root (root t')
    /\ contents [] (root t') = delete (Keybytes_Hex k) (contents [] (root t))
    /\ version t' = version t /\ storage_ t' = storage_ t
    /\ (contents [] (root t) !! Keybytes_Hex k = None ->
        st = removeNotRemoved /\ t' = t).
Proof.
  intros Hroot Hk. unfold ludicroustrie.Remove_status.
  rewrite checkKey_valid by done.
  pose proof (Keybytes_Hex_full_path k Hk) as Hp.
  set (path := Keybytes_Hex k) in *.
  assert (H0 : (0 <= length path)%nat) by lia.
  destruct Hroot as [Hn | [[dk Hn] | Hw]].
  - rewrite Hn. rewrite remove_mismatch by done. simpl.
    exists t, removeNotRemoved. rewrite Hn, contents_Nil_eq, delete_empty.
    split; [done|]. split; [by left|]. done.
  - rewrite Hn. rewrite remove_mismatch by done. simpl.
    exists t, removeNotRemoved. rewrite Hn.
    rewrite contents_root_empty by eauto. rewrite delete_empty.
    split; [done|]. split; [right; left; eauto|]. done.
  - destruct (remove_contents Keccak256 EncodeToBytes LoadNode LoadLeaf LoadValue
                t loads (root t) path 0 Hp H0 Hw)
      as [[Hnone ->] | [Hsome (after & dk & -> & Hca & Hshape)]]; simpl in *;
      change (take 0 path) with (@nil Z) in *.
    + exists t, removeNotRemoved. split; [done|]. split; [by right; right|].
      split; [by rewrite delete_id|]. done.
    + eexists _, _. split; [reflexivity|]. simpl.
      destruct Hshape as [[-> _] | [Hwa ->]]; simpl.
      * rewrite contents_Nil_eq in Hca.
        destruct (0 <? size dk)%nat.
        -- split; [right; left; eauto|].
           rewrite contents_root_empty by eauto. split; [done|].
           split; [done|]. split; [done|]. intros E. rewrite E in Hsome.
           by destruct Hsome.
        -- split; [by left|]. split; [done|].
           split; [done|]. split; [done|]. intros E. rewrite E in Hsome.
           by destruct Hsome.
      * rewrite (proj2 (wf_isLive _ _ Hwa)). simpl.
        split; [by right; right|]. split; [done|].
        split; [done|]. split; [done|]. intros E. rewrite E in Hsome.
        by destruct Hsome.
Qed.


Lemma key_cases (key : option bytes) :
  is_bytes key ->
  (exists e, checkKey key = Some e) \/ (exists k, key = Some k /\ valid_key k).
Proof.
  intros Hb. destruct key as [k|]; [|left; simpl; eauto].
  destruct (decide (length k = keySize)) as [E|E].
  - right. exists k. split; [done|]. by split.
  - left. simpl. apply Nat.eqb_neq in E. rewrite E. simpl. eauto.
Qed.

Lemma value_cases (value : option bytes) :
  is_bytes value ->
  (exists e, checkValue value = Some e)
  \/ (exists v, value = Some v /\ valid_value v).
Proof.
  intros Hb. destruct value as [v|]; [|left; simpl; eauto].
  destruct (decide (v = rlp.EmptyString)) as [->|E].
  - left. simpl. eauto.
  - right. exists v. split; [done|]. by split.
Qed.

(** One call keeps the shape of the root, and adds to the contents at most
    the path of the key it updates. *)
Lemma apply_op_wf (t : LudicrousTrie) (o : op) :
  wf_root (root t) -> well_typed o ->
  exists t',
    apply_op Keccak256 EncodeToBytes LoadNode LoadLeaf loads t o = Done t'
    /\ wf_root (root t')
    /\ version t' = version t /\ storage_ t' = storage_ t
    /\ forall p, is_Some (contents [] (root t') !! p) ->
         is_Some (contents [] (root t) !! p)
         \/ exists k v, o = OpUpdate (Some k) (Some v) /\ valid_key k
                        /\ p = Keybytes_Hex k.
Proof.
  intros Hroot Hty. destruct o as [key value | key]; simpl in *.
  - destruct Hty as [Hkb Hvb]. unfold ludicroustrie.Update.
    destruct (key_cases key Hkb) as [[e He] | (k & -> & Hk)].
    { exists t. unfold ludicroustrie.Update_status. rewrite He.
      cbn. repeat split; auto. }
    destruct (value_cases value Hvb) as [[e He] | (v & -> & Hv)].
    { exists t. unfold ludicroustrie.Update_status.
      rewrite checkKey_valid, He by done. cbn. repeat split; auto. }
    destruct (Update_root t k v Hroot Hk Hv)
      as (t' & st & -> & Hw & Hc & Hver & Hst & _).
    exists t'. simpl. split; [done|]. split; [done|]. split; [done|].
    split; [done|]. intros p Hp. rewrite Hc in Hp.
    destruct (decide (p = Keybytes_Hex k)) as [->|Hne]; [right; eauto|].
    left. by rewrite lookup_insert_ne in Hp.
  - unfold ludicroustrie.Remove.
    destruct (key_cases key Hty) as [[e He] | (k & -> & Hk)].
    { exists t. unfold ludicroustrie.Remove_status. rewrite He.
      cbn. repeat split; auto. }
    destruct (Remove_root t k Hroot Hk)
      as (t' & st & -> & Hw & Hc & Hver & Hst & _).
    exists t'. simpl. split; [done|]. split; [done|]. split; [done|].
    split; [done|]. intros p Hp. rewrite Hc in Hp. left.
    destruct (decide (p = Keybytes_Hex k)) as [->|Hne];
      [rewrite lookup_delete_eq in Hp; by destruct Hp|].
    by rewrite lookup_delete_ne in Hp.
Qed.

Lemma run_wf (ops : list op) :
  forall t0, wf_root (root t0) -> Forall well_typed ops ->
  exists t,
    run t0 ops = Done t
    /\ wf_root (root t)
    /\ forall p, is_Some (contents [] (root t) !! p) ->
         is_Some (contents [] (root t0) !! p)
         \/ exists k v, OpUpdate (Some k) (Some v) ∈ ops /\ valid_key k
                        /\ p = Keybytes_Hex k.
Proof.
  induction ops as [|o ops IH]; intros t0 Hroot Hty.
  - exists t0. simpl. auto.
  - inversion Hty as [|? ? Ho Hops]; subst.
    destruct (apply_op_wf t0 o Hroot Ho) as (t1 & Hop & Hw1 & _ & _ & Hd1).
    destruct (IH t1 Hw1 Hops) as (t & Hrun & Hw & Hd).
    exists t. simpl. rewrite Hop. simpl. split; [done|]. split; [done|].
    intros p Hp. destruct (Hd p Hp) as [H1 | (k & v & Hin & Hk & ->)].
    + destruct (Hd1 p H1) as [H0 | (k & v & -> & Hk & ->)]; [by left|].
      right. exists k, v. split; [left|]; done.
    + right. exists k, v. split; [by right|]. done.
Qed.


Lemma empty_trie_wf_root prefix db version0 :
  wf_root (root (NewEmptyPrefixedLudicrousTrie prefix db version0)).
Proof. by left. Qed.

Lemma Update_of_status t key value r :
  Update_status t loads key value = Done r ->
  Update t loads key value = Done (r.1.1, r.2).
Proof. unfold ludicroustrie.Update. by intros ->. Qed.

Lemma Remove_of_status t key r :
  Remove_status t loads key = Done r ->
  Remove t loads key = Done (r.1.1, r.2).
Proof. unfold ludicroustrie.Remove. by intros ->. Qed.

(** C1: on a trie built from an empty one by any run of calls, for a
    32-byte key and a value that is not the reserved one: [Update] then
    [Get] returns the value; [Remove] then [Get] returns nothing; and
    [Remove] of a key that no call of the run has updated returns no error
    and leaves the trie, its root included, as it is. *)
Theorem C1_round_trip (prefix : bytes) (db : gmap (list Z) (list Z))
    (version0 : Z) (ops : list op) (k v : bytes) :
  Forall well_typed ops -> valid_key k -> valid_value v ->
  exists t,
    run (NewEmptyPrefixedLudicrousTrie prefix db version0) ops = Done t
    /\ (exists t1, Update t loads (Some k) (Some v) = Done (t1, None)
                   /\ Get t1 (Some k) = Done (Some v, None))
    /\ (exists t2, Remove t loads (Some k) = Done (t2, None)
                   /\ Get t2 (Some k) = Done (None, None))
    /\ ((forall value, OpUpdate (Some k) value ∉ ops) ->
        Remove t loads (Some k) = Done (t, None)).
Proof.
  intros Hops Hk Hv.
  destruct (run_wf ops _ (empty_trie_wf_root prefix db version0) Hops)
    as (t & Hrun & Hw & Hdom).
  exists t. split; [done|]. split; [|split].
  - destruct (Update_root t k v Hw Hk Hv) as (t1 & st & Hu & Hw1 & Hc & _).
    exists t1. split; [by rewrite (Update_of_status _ _ _ _ Hu)|].
    rewrite Get_root by done. by rewrite Hc, lookup_insert_eq.
  - destruct (Remove_root t k Hw Hk) as (t2 & st & Hr & Hw2 & Hc & _).
    exists t2. split; [by rewrite (Remove_of_status _ _ _ Hr)|].
    rewrite Get_root by done. by rewrite Hc, lookup_delete_eq.
  - intros Hnever.
    destruct (Remove_root t k Hw Hk) as (t2 & st & Hr & _ & _ & _ & _ & Hnone).
    rewrite (Remove_of_status _ _ _ Hr). simpl.
    destruct Hnone as [_ ->]; [|done].
    destruct (contents [] (root t) !! Keybytes_Hex k) as [x|] eqn:E; [|done].
    exfalso. destruct (Hdom (Keybytes_Hex k)) as [H0 | (k' & v' & Hin & _ & Hkk)];
      [by rewrite E | |].
    + simpl in H0. rewrite contents_Nil_eq, lookup_empty in H0. by destruct H0.
    + apply Keybytes_Hex_inj in Hkk as <-. by apply (Hnever (Some v')).
Qed.

(** C6: on a trie built from an empty one by any run of calls, a second
    [Update] with the same key and value returns no error, reports
    [updateNotUpdated], and returns the trie of the first call: the root is
    not replaced. *)
Theorem C6_update_idempotent (prefix : bytes) (db : gmap (list Z) (list Z))
    (version0 : Z) (ops : list op) (k v : bytes) :
  Forall well_typed ops -> valid_key k -> valid_value v ->
  exists t t1 st,
    run (NewEmptyPrefixedLudicrousTrie prefix db version0) ops = Done t
    /\ Update_status t loads (Some k) (Some v) = Done (t1, Some st, None)
    /\ Update_status t1 loads (Some k) (Some v)
       = Done (t1, Some updateNotUpdated, None).
Proof.
  intros Hops Hk Hv.
  destruct (run_wf ops _ (empty_trie_wf_root prefix db version0) Hops)
    as (t & Hrun & Hw & _).
  destruct (Update_root t k v Hw Hk Hv) as (t1 & st & Hu & Hw1 & Hc & _).
  exists t, t1, st. split; [done|]. split; [done|].
  destruct (Update_root t1 k v Hw1 Hk Hv)
    as (t2 & st2 & Hu2 & _ & _ & _ & _ & Hsame & _).
  destruct Hsame as [-> ->]; [by rewrite Hc, lookup_insert_eq|]. done.
Qed.

Lemma ReplacePrefix_Prefix (c : Node) :
  forall p key ver, Prefix c = Done p ->
  exists after, ReplacePrefix c key ver = Done after /\ Prefix after = Done key
                /\ isLive c = true /\ isNil c = false.
Proof.
  induction c as [| k v ver0 | k cs ver0 _ | v | h | h l ver0 | n dk IH]
    using Node_ind'; intros p key ver Hp; simpl in *; try discriminate.
  - eexists. done.
  - eexists. done.
  - destruct (IH p key ver Hp) as (after & -> & Ha & _). simpl. eauto.
Qed.

(** C4: after any run of calls from an empty trie every full node in
    memory has two living children or more; and when replacing a child
    leaves one living child, [replaceChild] returns that child with its
    prefix replaced by the prefix of the full node, the slot of the child
    and the child's own prefix. *)
Theorem C4_canonical_shape :
  (forall (prefix : bytes) (db : gmap (list Z) (list Z)) (version0 : Z)
          (ops : list op),
      Forall well_typed ops ->
      exists t,
        run (NewEmptyPrefixedLudicrousTrie prefix db version0) ops = Done t
        /\ canonical_shape (root t) = true)
  /\ (forall (t : LudicrousTrie) (fullKey : Hex) (children : Children)
             (newChild : Node) (radix : Z) (pathToNode : Hex),
      length children = NumChildren -> is_nibble radix ->
      living (<[Z.to_nat radix := newChild]> children) = 1%nat ->
      exists (j : nat) (child : Node),
        <[Z.to_nat radix := newChild]> children !! j = Some child
        /\ isNil child = false
        /\ forall p, Prefix child = Done p ->
             exists after,
               replaceChild LoadNode LoadLeaf t fullKey children newChild radix
                 pathToNode = Done (inr after)
               /\ ReplacePrefix child (fullKey ++ [Z.of_nat j] ++ p) (version t)
                  = Done after
               /\ Prefix after = Done (fullKey ++ [Z.of_nat j] ++ p)).
Proof.
  split.
  - intros prefix db version0 ops Hops.
    destruct (run_wf ops _ (empty_trie_wf_root prefix db version0) Hops)
      as (t & Hrun & Hw & _).
    exists t. split; [done|]. by apply wf_root_canonical_shape.
  - intros t fullKey children newChild radix pathToNode Hlen Hr Hone.
    set (cs' := <[Z.to_nat radix := newChild]> children) in *.
    pose proof (LastLivingChild_spec cs') as Hll.
    destruct (LastLivingChild cs') as [i only] eqn:Ell.
    destruct Hll as [(H0 & _) | (j & c & -> & Hj & Hc & _ & ->)]; [lia|].
    exists j, c. split; [done|]. split; [done|]. intros p Hp.
    assert (Hj16 : (j < 16)%nat).
    { apply lookup_lt_Some in Hj. unfold cs' in Hj.
      by rewrite length_insert, Hlen in Hj. }
    assert (Hb : byte (Z.of_nat j) = Z.of_nat j)
      by (unfold byte; apply Z.mod_small; lia).
    destruct (ReplacePrefix_Prefix c p (fullKey ++ [Z.of_nat j] ++ p)
                (version t) Hp) as (after & Hrp & Hpa & Hlive & _).
    exists after. split; [|done].
    unfold replaceChild, Replace. rewrite set_child_ok by done. simpl.
    fold cs'. rewrite Ell. rewrite bool_decide_eq_true_2 by done.
    unfold at_index. rewrite Nat2Z.id, Hj. simpl.
    unfold prependToKey. rewrite Hb.
    destruct c; simpl in *; try discriminate; rewrite ?Hp; simpl;
      rewrite ?Hrp; simpl in *; try done.
    + injection Hp as <-. by injection Hrp as <-.
    + injection Hp as <-. by injection Hrp as <-.
Qed.

End Root.

(** Closed instances: the keys 00..00 and 00..0f differ in their last
    nibble only, so a full node holds them at the last position. *)
Lemma valid_key_zero : valid_key (replicate 32 0).
Proof. split; [done|]. apply Forall_replicate. unfold is_byte. lia. Qed.

Lemma valid_key_seven : valid_key (replicate 32 7).
Proof. split; [done|]. apply Forall_replicate. unfold is_byte. lia. Qed.

Lemma valid_value_one : valid_value [1].
Proof. split; [|done]. repeat constructor; unfold is_byte; lia. Qed.

Lemma well_typed_sample :
  Forall well_typed
    [OpUpdate (Some (replicate 31 0 ++ [15])) (Some [2]);
     OpUpdate (Some (replicate 32 0)) (Some [3]);
     OpRemove (Some (replicate 31 0 ++ [15]))].
Proof.
  repeat constructor; simpl; unfold is_byte;
    repeat (first [lia | apply Forall_cons; split | apply Forall_nil]).
Qed.

Lemma C1_round_trip_witness :
  exists t,
    run idKeccak nullEncode noNode noNode 1
      (NewEmptyPrefixedLudicrousTrie [] ∅ 0)
      [OpUpdate (Some (replicate 31 0 ++ [15])) (Some [2]);
       OpUpdate (Some (replicate 32 0)) (Some [3]);
       OpRemove (Some (replicate 31 0 ++ [15]))] = Done t
    /\ (exists t1,
          ludicroustrie.Update idKeccak nullEncode noNode noNode t 1
            (Some (replicate 32 7)) (Some [1]) = Done (t1, None)
          /\ ludicroustrie.Get noValue t1 (Some (replicate 32 7))
             = Done (Some [1], None))
    /\ (exists t2,
          ludicroustrie.Remove idKeccak nullEncode noNode noNode t 1
            (Some (replicate 32 7)) = Done (t2, None)
          /\ ludicroustrie.Get noValue t2 (Some (replicate 32 7))
             = Done (None, None))
    /\ ludicroustrie.Remove idKeccak nullEncode noNode noNode t 1
         (Some (replicate 32 7)) = Done (t, None).
Proof.
  destruct (C1_round_trip idKeccak nullEncode noNode noNode noValue 1 [] ∅ 0
              _ _ _ well_typed_sample valid_key_seven valid_value_one)
    as (t & Hrun & Hu & Hr & Hnoop).
  exists t. split; [exact Hrun|]. split; [exact Hu|]. split; [exact Hr|].
  apply Hnoop. intros value Hin.
  repeat (apply elem_of_cons in Hin as [Hin | Hin]; [discriminate Hin|]).
  by apply elem_of_nil in Hin.
Defined.

Lemma C6_update_idempotent_witness :
  exists t t1 st,
    run idKeccak nullEncode noNode noNode 1
      (NewEmptyPrefixedLudicrousTrie [] ∅ 0)
      [OpUpdate (Some (replicate 31 0 ++ [15])) (Some [2]);
       OpUpdate (Some (replicate 32 0)) (Some [3]);
       OpRemove (Some (replicate 31 0 ++ [15]))] = Done t
    /\ ludicroustrie.Update_status idKeccak nullEncode noNode noNode t 1
         (Some (replicate 32 0)) (Some [1]) = Done (t1, Some st, None)
    /\ ludicroustrie.Update_status idKeccak nullEncode noNode noNode t1 1
         (Some (replicate 32 0)) (Some [1])
       = Done (t1, Some updateNotUpdated, None).
Proof.
  exact (C6_update_idempotent idKeccak nullEncode noNode noNode noValue 1 [] ∅ 0
           _ _ _ well_typed_sample valid_key_zero valid_value_one).
Defined.

Lemma C4_canonical_shape_witness :
  (exists t,
     run idKeccak nullEncode noNode noNode 1
       (NewEmptyPrefixedLudicrousTrie [] ∅ 0)
       [OpUpdate (Some (replicate 31 0 ++ [15])) (Some [2]);
        OpUpdate (Some (replicate 32 0)) (Some [3]);
        OpRemove (Some (replicate 31 0 ++ [15]))] = Done t
     /\ canonical_shape (root t) = true)
  /\ (let t := NewEmptyPrefixedLudicrousTrie [] ∅ 7 in
      let children :=
        <[0%nat := NewLeaf [16] [3] 2]>
          (<[15%nat := NewLeaf [16] [2] 1]> NilChildren) in
      exists after,
        replaceChild noNode noNode t (replicate 63 0) children Nil 15 []
        = Done (inr after)
        /\ after = NewLeaf (replicate 63 0 ++ [0; 16]) [3] 8).
Proof.
  destruct (C4_canonical_shape idKeccak nullEncode noNode noNode noValue 1)
    as [Hshape Hcollapse].
  split; [exact (Hshape [] ∅ 0 _ well_typed_sample)|].
  intros t children.
  destruct (Hcollapse t (replicate 63 0) children Nil 15 [])
    as (j & child & Hj & Hnil & Hafter).
  - reflexivity.
  - unfold is_nibble. lia.
  - reflexivity.
  - clear Hshape. subst children.
    destruct j as [|j];
      [|exfalso;
        do 15 (destruct j as [|j];
               [simpl in Hj; injection Hj as <-; discriminate Hnil|]);
        discriminate Hj].
    injection Hj as <-.
    destruct (Hafter [16] eq_refl) as (after & Hrc & Hrp & _).
    exists after. split; [exact Hrc|].
    simpl in Hrp. injection Hrp as <-. reflexivity.
Defined.


End trie_top.


(** ** The root hash and the reference trie *)

Module hash_props.
Import encoding versionnode storage ludicroustrie trie_model encoding_props
  trie_inv trie_props trie_top reference.
#[local] Arguments contents : simpl never.

Lemma key_nibbles_eq (k : bytes) : key_nibbles k = Keybytes_Hex k.
Proof.
  induction k as [|b k IH]; [done|]. simpl. rewrite IH. reflexivity.
Qed.

Lemma decodeNibbles_pack (l : Hex) :
  Forall is_nibble l -> Nat.even (length l) = true ->
  decodeNibbles l = Done (pack l).
Proof.
  induction l as [| x | x y l IH] using pair_induction; intros Hl Hev.
  - done.
  - discriminate.
  - inversion Hl as [|? ? Hx Hl']; subst. inversion Hl' as [|? ? Hy Hl'']; subst.
    simpl. rewrite IH by done. simpl. rewrite pack_eq by done.
    do 3 f_equal. lia.
Qed.

Lemma to_compact_body (body : Hex) (term : bool) :
  Forall is_nibble body ->
  Hex_Compact (if term then body ++ [16] else body)
  = Done (to_compact (if term then body ++ [16] else body)).
Proof.
  intros Hb. unfold Hex_Compact, to_compact.
  assert (Hhex : forall b : bool, b = term ->
            (if b then take (length (if term then body ++ [16] else body) - 1)
                         (if term then body ++ [16] else body)
             else (if term then body ++ [16] else body)) = body).
  { intros b ->. destruct term; [apply take_length_pred_snoc | done]. }
  assert (Ht : HasTerm (if term then body ++ [16] else body) = term).
  { destruct term; [apply HasTerm_app_term | by apply HasTerm_nibbles]. }
  assert (Hl : bool_decide (last (if term then body ++ [16] else body) = Some 16)
               = term).
  { destruct term.
    - apply bool_decide_eq_true_2. by rewrite last_snoc.
    - apply bool_decide_eq_false_2. intros E.
      apply last_Some in E as [l' ->]. apply Forall_app in Hb as [_ Hb].
      inversion Hb as [|? ? Hn _]; subst. unfold is_nibble in Hn. lia. }
  rewrite Ht, Hl, !Hhex by done. clear Hhex Ht Hl.
  destruct (Nat.odd (length body)) eqn:Hodd.
  - destruct body as [|first rest]; [discriminate|].
    inversion Hb as [|? ? Hf Hr]; subst.
    rewrite decodeNibbles_pack; [|done|].
    2:{ simpl in Hodd. rewrite Nat.odd_succ in Hodd. exact Hodd. }
    simpl. destruct term; nibble_cases first Hf; reflexivity.
  - rewrite decodeNibbles_pack; [|done|].
    2:{ rewrite <- Nat.negb_odd, Hodd. reflexivity. }
    simpl. destruct term; reflexivity.
Qed.

Lemma to_compact_terminated (k : Hex) :
  terminated k -> Hex_Compact k = Done (to_compact k).
Proof. intros (body & -> & Hb). exact (to_compact_body body true Hb). Qed.

Lemma to_compact_nibbles (k : Hex) :
  Forall is_nibble k -> Hex_Compact k = Done (to_compact k).
Proof. exact (to_compact_body k false). Qed.

(** *** The shared prefix of a set of paths *)

Lemma PrefixLen_ge (a b : Hex) (l : nat) :
  take l a = take l b -> (l <= length a)%nat -> (l <= length b)%nat ->
  (l <= PrefixLen a b)%nat.
Proof.
  revert b l. induction a as [|x a IH]; intros [|y b] [|l] E Ha Hb;
    simpl in *; try lia.
  injection E as -> E. rewrite Z.eqb_refl.
  specialize (IH b l E). lia.
Qed.

Lemma PrefixLen_le_diff (a b : Hex) (l : nat) x y :
  a !! l = Some x -> b !! l = Some y -> x <> y -> (PrefixLen a b <= l)%nat.
Proof.
  revert b l. induction a as [|x' a IH]; intros [|y' b] [|l] Ha Hb Hxy;
    simpl in *; try lia; try discriminate.
  - injection Ha as ->. injection Hb as ->.
    destruct (x =? y) eqn:E; [apply Z.eqb_eq in E; done | lia].
  - destruct (x' =? y'); [|lia]. specialize (IH b l Ha Hb Hxy). lia.
Qed.

Lemma shared_spec (J : gmap Hex bytes) (p : Hex) (m : nat) :
  (m <= length p)%nat ->
  (forall q v, J !! q = Some v -> (m <= PrefixLen p q)%nat) ->
  (exists q v, J !! q = Some v /\ (PrefixLen p q <= m)%nat) ->
  shared J p = m.
Proof.
  intros Hm Hall (q & v & Hq & Hle). unfold shared.
  assert (Hall' : forall e, e ∈ map_to_list J -> (m <= PrefixLen p e.1)%nat).
  { intros [q' v'] He. apply elem_of_map_to_list in He. by eapply Hall. }
  assert (Hex : exists e, e ∈ map_to_list J /\ (PrefixLen p e.1 <= m)%nat).
  { exists (q, v). split; [by apply elem_of_map_to_list | done]. }
  clear Hall Hq Hle. revert Hall' Hex.
  generalize (map_to_list J) as L.
  assert (Hlow : forall L : list (Hex * bytes),
            (forall e, e ∈ L -> (m <= PrefixLen p e.1)%nat) ->
            (m <= foldr (fun e l => Nat.min (PrefixLen p e.1) l) (length p) L)%nat).
  { induction L as [|e L IH]; intros H; simpl; [done|].
    pose proof (H e ltac:(by left)).
    assert (m <= foldr (fun e l => Nat.min (PrefixLen p e.1) l) (length p) L)%nat
      by (apply IH; intros e' He'; apply H; by right).
    lia. }
  intros L Hall (e & He & Hle).
  pose proof (Hlow L Hall) as Hge.
  assert (Hup : (foldr (fun e l => Nat.min (PrefixLen p e.1) l) (length p) L
                 <= m)%nat); [|lia].
  clear Hge Hall. induction L as [|e' L IH]; [by apply elem_of_nil in He|].
  simpl. apply elem_of_cons in He as [<- | He]; [lia|].
  specialize (IH He). lia.
Qed.

(** *** The contents of the subtrees of the invariant *)

Lemma contents_overlay_wf pre n dk :
  wf pre (WithDeletedKeys n dk) ->
  contents pre (WithDeletedKeys n dk) = contents pre n.
Proof.
  intros Hw. inversion Hw as [| |? ? ? Hn Hdk]; subst.
  apply map_eq. intros q. rewrite lookup_contents_WithDeletedKeys.
  unfold Contains. case_bool_decide as E; [|done].
  symmetry. by apply Hdk.
Qed.

Lemma living_exists (cs : list Node) :
  (1 <= living cs)%nat -> exists j c, cs !! j = Some c /\ isNil c = false.
Proof.
  induction cs as [|c cs IH]; [unfold living; simpl; lia|].
  rewrite living_cons. destruct (isNil c) eqn:E.
  - intros H. destruct IH as (j & c' & Hj & Hc); [lia|]. by exists (S j), c'.
  - intros _. by exists 0%nat, c.
Qed.

Lemma living_two (cs : list Node) :
  (2 <= living cs)%nat ->
  forall r : nat, exists j c, j <> r /\ cs !! j = Some c /\ isNil c = false.
Proof.
  induction cs as [|c cs IH]; [unfold living; simpl; lia|].
  rewrite living_cons. intros H r. destruct (isNil c) eqn:E.
  - destruct r as [|r].
    + destruct (living_exists cs) as (j & c' & Hj & Hc); [lia|].
      by exists (S j), c'.
    + destruct (IH ltac:(lia) r) as (j & c' & Hjr & Hj & Hc).
      exists (S j), c'. split; [lia | done].
  - destruct r as [|r].
    + destruct (living_exists cs) as (j & c' & Hj & Hc); [lia|].
      by exists (S j), c'.
    + by exists 0%nat, c.
Qed.

Lemma isNil_false_wf pre k (cs : Children) (i : nat) c :
  (forall i c, cs !! i = Some c -> c = Nil \/ wf (child_path pre k i) c) ->
  cs !! i = Some c -> isNil c = false -> wf (child_path pre k i) c.
Proof.
  intros H Hi Hc. destruct (H i c Hi) as [-> | Hw]; [discriminate | done].
Qed.

Lemma wf_contents_nonempty (n : Node) :
  forall pre, wf pre n -> exists q v, contents pre n !! q = Some v.
Proof.
  induction n as [| k v ver | k cs ver IH | v | h | h l ver | n dk IH]
    using Node_ind'; intros pre Hw; inversion Hw; subst.
  - exists (pre ++ k), v. rewrite contents_Leaf_eq. apply lookup_singleton_eq.
  - destruct (living_exists cs) as (j & c & Hj & Hc); [lia|].
    assert (Hwc : wf (child_path pre k j) c) by (by eapply isNil_false_wf).
    rewrite Forall_lookup in IH.
    destruct (IH j c Hj _ Hwc) as (q & v & Hq).
    exists q, v.
    rewrite (lookup_contents_Full_path pre k cs ver q (Z.of_nat j) c);
      rewrite ?Nat2Z.id; try done; [|lia].
    by eapply contents_selects.
  - rewrite contents_overlay_wf by done. by apply IH.
Qed.

Lemma wf_contents_not_empty pre n : wf pre n -> contents pre n <> ∅.
Proof.
  intros Hw E. destruct (wf_contents_nonempty n pre Hw) as (q & v & Hq).
  by rewrite E, lookup_empty in Hq.
Qed.

(** *** The contents of a full node *)

Section FullNode.

Variables (pre k : Hex) (cs : Children) (ver : Z).
Hypothesis Hwf : wf pre (Full k cs ver).

Local Abbreviation J := (contents pre (Full k cs ver)).
Local Abbreviation m := (length (pre ++ k)).

Lemma Full_paths q v :
  J !! q = Some v ->
  (pre ++ k) `prefix_of` q
  /\ exists r : nat, q !! m = Some (Z.of_nat r) /\ (r < 16)%nat.
Proof.
  intros Hq. split; [by eapply contents_Full_extends|].
  rewrite lookup_contents_Full in Hq.
  destruct (q !! m) as [r|] eqn:Er; [|done].
  destruct (decide (0 <= r)) as [Hr|]; [|done].
  destruct (cs !! Z.to_nat r) as [c|] eqn:Ec; [|done].
  exists (Z.to_nat r). rewrite Z2Nat.id by done. split; [done|].
  apply lookup_lt_Some in Ec. inversion Hwf; subst.
  unfold NumChildren in *. lia.
Qed.

Lemma Full_child_filter (r : nat) c :
  cs !! r = Some c ->
  filter (fun e : Hex * bytes => e.1 !! m = Some (Z.of_nat r)) J
  = contents (child_path pre k r) c.
Proof.
  intros Hc. apply map_eq. intros q. apply option_eq. intros v.
  rewrite map_lookup_filter_Some. simpl.
  assert (Hl : q !! m = Some (Z.of_nat r) ->
               J !! q = contents (child_path pre k r) c !! q).
  { intros Hq.
    rewrite (lookup_contents_Full_path pre k cs ver q (Z.of_nat r) c);
      rewrite ?Nat2Z.id; try done. lia. }
  split.
  - intros [Hq Hr]. by rewrite <- Hl.
  - intros Hq. pose proof (contents_selects _ _ _ _ _ _ Hq) as Hr.
    split; [by rewrite Hl | done].
Qed.

Lemma Full_living_path (r : nat) :
  exists j q v, j <> r /\ J !! q = Some v /\ q !! m = Some (Z.of_nat j).
Proof.
  inversion Hwf as [|? ? ? ? Hk Hlen Hcs Hch Hliv|]; subst.
  destruct (living_two cs Hliv r) as (j & c & Hjr & Hj & Hc).
  pose proof (isNil_false_wf _ _ _ _ _ Hch Hj Hc) as Hwc.
  destruct (wf_contents_nonempty c _ Hwc) as (q & v & Hq).
  exists j, q, v. split; [done|].
  pose proof (contents_selects _ _ _ _ _ _ Hq) as Hr.
  split; [|done].
  rewrite (lookup_contents_Full_path pre k cs ver q (Z.of_nat j) c);
    rewrite ?Nat2Z.id; try done. lia.
Qed.

Lemma Full_shared p v : J !! p = Some v -> shared J p = m.
Proof.
  intros Hp. destruct (Full_paths p v Hp) as ([s ->] & rp & Hrp & _).
  apply shared_spec.
  - rewrite (length_app (pre ++ k)). lia.
  - intros q w Hq. destruct (Full_paths q w Hq) as ([s' ->] & _).
    apply PrefixLen_ge.
    + by rewrite !take_app_length.
    + rewrite (length_app (pre ++ k)). lia.
    + rewrite (length_app (pre ++ k)). lia.
  - destruct (Full_living_path rp) as (j & q & w & Hj & Hq & Hqm).
    exists q, w. split; [done|].
    eapply PrefixLen_le_diff; [exact Hrp | exact Hqm | lia].
Qed.

Lemma Full_two_paths :
  exists p v e rest, J !! p = Some v /\ map_to_list J = (p, v) :: e :: rest.
Proof.
  destruct (map_to_list J) as [|[p v] [|e rest]] eqn:EL.
  - apply map_to_list_empty_iff in EL.
    by destruct (wf_contents_not_empty _ _ Hwf).
  - exfalso.
    assert (Hp : J !! p = Some v)
      by (apply elem_of_map_to_list; rewrite EL; by left).
    destruct (Full_paths p v Hp) as (_ & rp & Hrp & _).
    destruct (Full_living_path rp) as (j & q & w & Hj & Hq & Hqm).
    apply elem_of_map_to_list in Hq. rewrite EL in Hq.
    apply list_elem_of_singleton in Hq. injection Hq as -> ->.
    rewrite Hrp in Hqm. injection Hqm as Hqm. lia.
  - exists p, v, e, rest. split; [|done].
    apply elem_of_map_to_list. rewrite EL. by left.
Qed.

Lemma Full_key_of_path p v :
  J !! p = Some v -> take (m - length pre) (drop (length pre) p) = k.
Proof.
  intros Hp. destruct (Full_paths p v Hp) as ([s ->] & _).
  rewrite <- !app_assoc, drop_app_length, length_app.
  replace (length pre + length k - length pre)%nat with (length k) by lia.
  by rewrite take_app_length.
Qed.

End FullNode.

(** *** The finalizer on the subtrees of the invariant *)

Section Hashing.

Variable Keccak256 : bytes -> bytes.
Variable EncodeToBytes : rlp.item -> bytes.

Local Abbreviation finalize := (storage.finalize Keccak256 EncodeToBytes).
Local Abbreviation structure := (reference.structure Keccak256 EncodeToBytes).
Local Abbreviation cap := (reference.cap Keccak256 EncodeToBytes).
Local Abbreviation encode := (reference.encode EncodeToBytes).

Lemma cap_alt (n : integritynode.Node) :
  cap n = if (HashLength <=? length (encode n))%nat
          then integritynode.Hash (Keccak256 (encode n)) else n.
Proof.
  unfold reference.cap, HashLength.
  destruct (Nat.ltb_spec (length (encode n)) 32),
           (Nat.leb_spec 32 (length (encode n))); (done || lia).
Qed.

Lemma hashed_or_inline (n : integritynode.Node) (force : bool) :
  (if (HashLength <=? length (encode n))%nat || force
   then integritynode.Hash (Keccak256 (encode n)) else n)
  = if force then integritynode.Hash (Keccak256 (encode n)) else cap n.
Proof.
  rewrite cap_alt.
  destruct force, (HashLength <=? length (encode n))%nat; reflexivity.
Qed.

Lemma hashed_done (n : integritynode.Node) (force : bool) (w : list put) :
  (if (HashLength <=? length (storage.encode EncodeToBytes n))%nat || force
   then Done (inr (integritynode.Hash
                     (Keccak256 (storage.encode EncodeToBytes n)), w))
   else Done (inr (n, w)))
  = Done (inr (if force then integritynode.Hash (Keccak256 (encode n))
               else cap n, w)) :> exec (error + integritynode.Node * list put).
Proof.
  rewrite <- hashed_or_inline. unfold storage.encode, reference.encode.
  by destruct ((HashLength <=? _)%nat || force).
Qed.

Lemma children_loop (g : Node -> Hex -> exec (error + integritynode.Node * list put))
    (F : nat -> integritynode.Node) (P : Hex) (cs : list Node) :
  forall i0 : nat,
  (forall j c, cs !! j = Some c ->
               g c (P ++ [byte (Z.of_nat (i0 + j))]) = Done (inr (F (i0 + j)%nat, []))) ->
  (fix loop (cs : list Node) (i : nat)
     : exec (error + list integritynode.Node * list put) :=
     match cs with
     | [] => Done (inr ([], []))
     | child :: cs' =>
         let pathToChild := P ++ [byte (Z.of_nat i)] in
         r ←? g child pathToChild;
         rs ←? loop cs' (S i);
         Done (inr (r.1 :: rs.1, r.2 ++ rs.2))
     end) cs i0
  = Done (inr (map F (seq i0 (length cs)), [])).
Proof.
  induction cs as [|c cs IH]; intros i0 H; [done|].
  cbn zeta. rewrite <- (Nat.add_0_r i0) at 1.
  rewrite (H 0%nat c eq_refl). cbn [bind_res mbind exec_bind].
  rewrite IH.
  - cbn. by rewrite Nat.add_0_r.
  - intros j c' Hj. replace (S i0 + j)%nat with (i0 + S j)%nat by lia.
    by apply H.
Qed.

Lemma structure_S (fuel : nat) (J : gmap Hex bytes) (i : nat) :
  structure (S fuel) J i =
    match map_to_list J with
    | [] => integritynode.Nil
    | [(p, v)] => integritynode.Leaf (to_compact (drop i p)) v
    | (p, _) :: _ =>
        let j := shared J p in
        let child (r : nat) :=
          let Jr := filter (fun e : Hex * bytes => e.1 !! j = Some (Z.of_nat r)) J in
          if decide (Jr = ∅) then integritynode.Nil
          else cap (structure fuel Jr (S j)) in
        let branch :=
          integritynode.Full (map child (seq 0 16) ++ [integritynode.Nil]) in
        if (i <? j)%nat
        then integritynode.Extension
               (to_compact (take (j - i) (drop i p))) (cap branch)
        else branch
    end.
Proof. reflexivity. Qed.

Lemma finalize_structure (n : Node) :
  forall (pre path : Hex) (c : Collection) (fuel : nat) (force : bool),
  wf pre n -> (pathLen < fuel + length pre)%nat ->
  finalize c n path doNotStore force
  = Done (inr (let R := structure fuel (contents pre n) (length pre) in
               if force then integritynode.Hash (Keccak256 (encode R))
               else cap R, [])).
Proof.
  induction n as [| k v ver | k cs ver IH | v | h | h l ver | n dk IH]
    using Node_ind'; intros pre path c fuel force Hw Hfuel;
    inversion Hw as [? ? ? ? Hlen Hterm Hv
                    |? ? ? ? Hk Hlen Hcs Hch Hliv
                    |? ? ? Hn Hdk]; subst.
  - (* a leaf *)
    destruct fuel as [|fuel]; [unfold pathLen in *; lia|].
    rewrite structure_S, contents_Leaf_eq, map_to_list_singleton.
    rewrite drop_app_length.
    cbn [storage.finalize]. unfold finalizeLeafNode.
    rewrite to_compact_terminated by done.
    cbn [mbind exec_bind]. unfold doNotStore. rewrite andb_false_r.
    cbn [mbind exec_bind app].
    cbn zeta. apply hashed_done.
  - (* a full node *)
    destruct fuel as [|fuel]; [unfold pathLen in *; lia|].
    destruct (Full_two_paths _ _ _ _ Hw) as (p & v & e & rest & Hp & EL).
    rewrite structure_S, EL. cbn zeta.
    rewrite (Full_shared _ _ _ _ Hw p v Hp).
    rewrite (Full_key_of_path _ _ _ _ Hw p v Hp).
    cbn [storage.finalize].
    set (F := fun r : nat =>
                if decide (filter (fun e0 : Hex * bytes =>
                                     e0.1 !! length (pre ++ k) = Some (Z.of_nat r))
                                  (contents pre (Full k cs ver)) = ∅)
                then integritynode.Nil
                else cap (structure fuel
                            (filter (fun e0 : Hex * bytes =>
                                       e0.1 !! length (pre ++ k) = Some (Z.of_nat r))
                                    (contents pre (Full k cs ver)))
                            (S (length (pre ++ k))))).
    pose proof (children_loop
               (fun child pth => finalize c child pth doNotStore doNotForceHash)
               F (path ++ k) cs 0) as Hloop.
    cbv beta zeta in Hloop. rewrite Hloop; clear Hloop.
    2:{ intros j ch Hj. simpl. unfold F.
        rewrite (Full_child_filter pre k cs ver j ch Hj).
        destruct (Hch j ch Hj) as [-> | Hwc].
        - rewrite contents_Nil_eq. by rewrite decide_True.
        - rewrite decide_False by (by apply wf_contents_not_empty).
          rewrite Forall_lookup in IH.
          rewrite (IH j ch Hj (child_path pre k j) _ c fuel false Hwc).
          + cbn zeta. unfold child_path. rewrite (length_app (pre ++ k)).
            simpl. by rewrite Nat.add_1_r.
          + unfold child_path. rewrite (length_app (pre ++ k)). simpl.
            rewrite length_app. unfold pathLen in *. lia. }
    rewrite Hcs. change NumChildren with 16%nat.
    cbn [bind_res mbind exec_bind fst snd].
    set (full := integritynode.Full (map F (seq 0 16) ++ [integritynode.Nil])).
    unfold canonicalFullNodeIntegrityNodeAndRLP.
    change (storage.encode EncodeToBytes full) with (encode full).
    rewrite <- (cap_alt full).
    destruct k as [|k0 k].
    + rewrite app_nil_r, Nat.ltb_irrefl.
      cbn [length Nat.eqb mbind exec_bind andb doNotStore app].
      apply hashed_done.
    + rewrite to_compact_nibbles by done.
      replace (length pre <? length (pre ++ k0 :: k))%nat with true
        by (symmetry; apply Nat.ltb_lt; rewrite length_app; simpl; lia).
      cbn [length Nat.eqb mbind exec_bind andb doNotStore app].
      apply hashed_done.
  - (* an overlay *)
    rewrite contents_overlay_wf by done.
    cbn [storage.finalize]. unfold doNotStore in *.
    cbn [mbind exec_bind].
    rewrite (IH pre path c fuel force Hn Hfuel).
    reflexivity.
Qed.

(** [Hash] on a root of the invariant is the reference root of its
    contents; the storage is not written. *)
Lemma Hash_root (t : LudicrousTrie) :
  Keccak256 (EncodeToBytes (rlp.String [])) = emptyRoot ->
  wf_root (root t) ->
  Hash_ Keccak256 EncodeToBytes t
  = Done (inr (reference.root_hash Keccak256 EncodeToBytes (contents [] (root t))),
          storage_ t).
Proof.
  intros Hempty Hroot. unfold Hash_, Finalize, reference.root_hash, doForceHash.
  assert (Hnil : Keccak256 (encode (structure 66 ∅ 0)) = emptyRoot).
  { rewrite structure_S, map_to_list_empty. exact Hempty. }
  destruct Hroot as [-> | [[dk ->] | Hw]].
  - rewrite contents_Nil_eq, Hnil. reflexivity.
  - rewrite contents_WithDeletedKeys_eq, contents_Nil_eq, map_filter_empty, Hnil.
    reflexivity.
  - rewrite (finalize_structure (root t) [] [] (storage_ t) 66 true Hw)
      by (unfold pathLen; simpl; lia).
    reflexivity.
Qed.

Variable LoadNode : Collection -> Hex -> Z -> exec (error + Node).
Variable LoadLeaf : Collection -> Hex -> Z -> exec (error + Node).
Variable loads : nat.

Local Abbreviation run :=
  (trie_model.run Keccak256 EncodeToBytes LoadNode LoadLeaf loads).

Lemma run_updates (pairs : list (bytes * bytes)) :
  forall t0 : LudicrousTrie,
  wf_root (root t0) ->
  Forall (fun kv => valid_key kv.1 /\ valid_value kv.2) pairs ->
  exists t,
    run t0 (map (fun kv => OpUpdate (Some kv.1) (Some kv.2)) pairs) = Done t
    /\ wf_root (root t)
    /\ storage_ t = storage_ t0
    /\ contents [] (root t)
       = foldl (fun m kv => <[key_nibbles kv.1 := kv.2]> m)
               (contents [] (root t0)) pairs.
Proof.
  induction pairs as [|[k v] pairs IH]; intros t0 Hw Hall.
  - exists t0. by repeat split.
  - inversion Hall as [|? ? [Hk Hv] Hall']; subst. simpl in Hk, Hv.
    destruct (Update_root Keccak256 EncodeToBytes LoadNode LoadLeaf
                (fun _ _ _ => Panic) loads t0 k v Hw Hk Hv)
      as (t1 & st & Hu & Hw1 & Hc & _ & Hs & _).
    destruct (IH t1 Hw1 Hall') as (t & Hrun & Hwt & Hst & Hct).
    exists t. cbn [map trie_model.run apply_op fst snd].
    unfold ludicroustrie.Update. rewrite Hu. cbn [mbind exec_bind fst snd].
    rewrite Hrun. repeat split; [done | congruence |].
    rewrite Hct, Hc. cbn [foldl fst snd]. by rewrite key_nibbles_eq.
Qed.

(** C2: for the pairs of 32-byte keys and values that are not empty and
    not the reserved one, inserted one after the other into an empty trie,
    [Hash] returns the root hash of the reference hexary Merkle-Patricia
    trie over the pairs, for a hash function that maps the encoding of the
    empty string to the empty root. *)
Theorem C2_hash_is_reference_root (prefix : bytes)
    (db : gmap (list Z) (list Z)) (version0 : Z)
    (pairs : list (bytes * bytes)) :
  Keccak256 (EncodeToBytes (rlp.String [])) = emptyRoot ->
  Forall (fun kv => valid_key kv.1 /\ valid_value kv.2 /\ kv.2 <> []) pairs ->
  exists t,
    run (NewEmptyPrefixedLudicrousTrie prefix db version0)
        (map (fun kv => OpUpdate (Some kv.1) (Some kv.2)) pairs) = Done t
    /\ Hash_ Keccak256 EncodeToBytes t
       = Done (inr (reference.root_hash Keccak256 EncodeToBytes (pairs_map pairs)),
               NewPrefixedCollection prefix db).
Proof.
  intros Hempty Hall.
  destruct (run_updates pairs (NewEmptyPrefixedLudicrousTrie prefix db version0))
    as (t & Hrun & Hw & Hs & Hc).
  - by left.
  - eapply Forall_impl; [exact Hall|]. intros kv (? & ? & _). by split.
  - exists t. split; [done|].
    rewrite (Hash_root t Hempty Hw), Hs, Hc. simpl.
    by rewrite contents_Nil_eq.
Qed.

End Hashing.

(** A hash and an encoder for a closed instance of C2: the hash is the
    constant empty root. *)
Lemma C2_hash_is_reference_root_witness :
  let pairs := [(replicate 32 0, [1]); (replicate 31 0 ++ [15], [2])] in
  exists t,
    trie_model.run (fun _ => emptyRoot) nullEncode noNode noNode 1
      (NewEmptyPrefixedLudicrousTrie [] ∅ 0)
      (map (fun kv => OpUpdate (Some kv.1) (Some kv.2)) pairs) = Done t
    /\ Hash_ (fun _ => emptyRoot) nullEncode t
       = Done (inr (reference.root_hash (fun _ => emptyRoot) nullEncode
                      (pairs_map pairs)),
               NewPrefixedCollection [] ∅).
Proof.
  intros pairs.
  apply (C2_hash_is_reference_root (fun _ => emptyRoot) nullEncode noNode noNode
           1 [] ∅ 0 pairs eq_refl).
  repeat constructor; simpl; try done; unfold is_byte;
    repeat (first [lia | apply Forall_cons; split | apply Forall_nil]).
Defined.

End hash_props.


(** ** More on the encodings *)

Module encoding_more.
Import encoding trie_model reference encoding_props trie_inv trie_top hash_props.

Lemma decodeNibbles_expand (kb : bytes) :
  Forall is_byte kb -> decodeNibbles (expand kb) = Done kb.
Proof.
  induction kb as [|b kb IH]; intros Hkb; [done|].
  inversion Hkb as [|? ? Hb Hkb']; subst. unfold is_byte in Hb.
  change (expand (b :: kb)) with (b / 16 :: b mod 16 :: expand kb).
  cbn [decodeNibbles]. rewrite IH by done. cbn [mbind exec_bind].
  rewrite pack_eq.
  - do 2 f_equal. pose proof (Z.div_mod b 16). lia.
  - unfold is_nibble. split; [apply Z.div_pos; lia|].
    apply Z.div_lt_upper_bound; lia.
  - unfold is_nibble. apply Z.mod_pos_bound. lia.
Qed.

(** X1: the nibble path of a byte string converts back to the byte string,
    and a terminated path of an even number of nibbles converts to the
    byte string whose nibble path it is. *)
Theorem X1_Keybytes_Hex_roundtrip :
  (forall kb : bytes,
      Forall is_byte kb -> Hex_Keybytes (Keybytes_Hex kb) = Done kb)
  /\ (forall body : Hex,
      Forall is_nibble body -> Nat.even (length body) = true ->
      (kb ← Hex_Keybytes (body ++ [16]); Done (Keybytes_Hex kb))
      = Done (body ++ [16])).
Proof.
  split.
  - intros kb Hkb. rewrite Keybytes_Hex_expand. unfold Hex_Keybytes.
    rewrite HasTerm_app_term, take_length_pred_snoc.
    rewrite expand_length, Nat.odd_mul, andb_false_l.
    by apply decodeNibbles_expand.
  - intros body Hb Hev. unfold Hex_Keybytes.
    rewrite HasTerm_app_term, take_length_pred_snoc.
    rewrite <- Nat.negb_even, Hev. cbn [negb].
    destruct (decodeNibbles_even body Hb Hev) as (bs & -> & He & _).
    cbn [mbind exec_bind]. by rewrite Keybytes_Hex_expand, He.
Qed.

Lemma X1_Keybytes_Hex_roundtrip_witness :
  Hex_Keybytes (Keybytes_Hex [18; 255]) = Done [18; 255]
  /\ (kb ← Hex_Keybytes ([1; 2; 15; 15] ++ [16]); Done (Keybytes_Hex kb))
     = Done ([1; 2; 15; 15] ++ [16]).
Proof.
  destruct X1_Keybytes_Hex_roundtrip as [H1 H2]. split.
  - apply H1. repeat constructor; unfold is_byte; lia.
  - apply H2; [|reflexivity]. repeat constructor; unfold is_nibble; lia.
Defined.

Lemma pack_length (l : Hex) : length (pack l) = (length l / 2)%nat.
Proof.
  induction l as [| x | x y l IH] using pair_induction; [done | done |].
  cbn [pack length]. rewrite IH.
  change (S (S (length l))) with (1 * 2 + length l)%nat.
  by rewrite Nat.div_add_l.
Qed.

Lemma to_compact_cases (body : Hex) (term : bool) :
  Forall is_nibble body ->
  to_compact (if term then body ++ [16] else body)
  = if Nat.odd (length body)
    then pack ((if term then 2 else 0) + 1 :: body)
    else pack ((if term then 2 else 0) :: 0 :: body).
Proof.
  intros Hb. unfold to_compact.
  assert (Hl : bool_decide (last (if term then body ++ [16] else body) = Some 16)
               = term).
  { destruct term.
    - apply bool_decide_eq_true_2. by rewrite last_snoc.
    - apply bool_decide_eq_false_2. intros E.
      apply last_Some in E as [l' ->]. apply Forall_app in Hb as [_ Hb].
      inversion Hb as [|? ? Hn _]; subst. unfold is_nibble in Hn. lia. }
  rewrite Hl. destruct term; [|done].
  by rewrite take_length_pred_snoc.
Qed.

(** X2: [Compact] of a path of [n] nibbles with an optional terminator has
    [n/2 + 1] bytes, and [IsLeaf] of it tells whether the path had the
    terminator. *)
Theorem X2_Compact_IsLeaf (body : Hex) (term : bool) :
  Forall is_nibble body ->
  exists c,
    Hex_Compact (if term then body ++ [16] else body) = Done c
    /\ length c = (length body / 2 + 1)%nat
    /\ Compact_IsLeaf c = Done term.
Proof.
  intros Hb. rewrite to_compact_body by done. eexists. split; [done|].
  rewrite to_compact_cases by done.
  destruct (Nat.odd (length body)) eqn:Hodd.
  - destruct body as [|first rest]; [discriminate|].
    inversion Hb as [|? ? Hf Hr]; subst. cbn [length] in Hodd.
    cbn [pack length]. split.
    + rewrite pack_length.
      rewrite Nat.odd_succ in Hodd. apply Nat.even_spec in Hodd as [m Hm].
      rewrite Hm.
      replace (S (2 * m)) with (1 + m * 2)%nat by lia.
      rewrite Nat.div_add by done.
      replace (2 * m)%nat with (m * 2)%nat by lia.
      rewrite Nat.div_mul by done. simpl. lia.
    + unfold Compact_IsLeaf, at_index. cbn [lookup list_lookup mbind exec_bind].
      destruct term; nibble_cases first Hf; reflexivity.
  - cbn [pack length]. split.
    + rewrite pack_length. lia.
    + unfold Compact_IsLeaf, at_index. cbn [lookup list_lookup mbind exec_bind].
      destruct term; reflexivity.
Qed.

Lemma X2_Compact_IsLeaf_witness :
  exists c,
    Hex_Compact [1; 2; 3; 16] = Done c
    /\ length c = (length [1; 2; 3] / 2 + 1)%nat
    /\ Compact_IsLeaf c = Done true.
Proof.
  apply (X2_Compact_IsLeaf [1; 2; 3] true).
  repeat constructor; unfold is_nibble; lia.
Defined.

(** X3: [PrefixLen] is the length of the longest common prefix: the two
    paths agree on that many entries, neither is shorter, and they differ
    at the next entry unless one of them ends there. *)
Theorem X3_PrefixLen_longest (a b : Hex) :
  take (PrefixLen a b) a = take (PrefixLen a b) b
  /\ (PrefixLen a b <= length a)%nat
  /\ (PrefixLen a b <= length b)%nat
  /\ (PrefixLen a b = length a \/ PrefixLen a b = length b
      \/ a !! PrefixLen a b <> b !! PrefixLen a b).
Proof.
  split; [apply PrefixLen_take|].
  split; [apply PrefixLen_le_l|]. split; [apply PrefixLen_le_r|].
  pose proof (PrefixLen_le_l a b). pose proof (PrefixLen_le_r a b).
  destruct (a !! PrefixLen a b) as [x|] eqn:Ea.
  - destruct (b !! PrefixLen a b) as [y|] eqn:Eb.
    + right. right. intros E. injection E as E.
      by apply (PrefixLen_mismatch a b x y).
    + right. left. apply lookup_ge_None in Eb. lia.
  - left. apply lookup_ge_None in Ea. lia.
Qed.

(** X4: [FillRemainingPath] returns a path that has the terminator as it
    is; any other path becomes a full path of 65 entries: its first 64
    entries, the filler where it is shorter, and the terminator. *)
Theorem X4_FillRemainingPath (h : Hex) (v : Z) :
  (HasTerm h = true -> FillRemainingPath h v = h)
  /\ (HasTerm h = false ->
      length (FillRemainingPath h v) = 65%nat
      /\ FillRemainingPath h v
         = take 64 h ++ replicate (64 - length h) v ++ [16]).
Proof.
  unfold FillRemainingPath, hexEncodingKeySize, hexEncodingTerm.
  split; intros ->; [done|].
  assert (E : take (65 - 1) (h ++ replicate (65 - 1 - length h) v)
              = take 64 h ++ replicate (64 - length h) v).
  { change (65 - 1)%nat with 64%nat.
    rewrite take_app. f_equal.
    rewrite take_replicate. f_equal. lia. }
  rewrite E, <- app_assoc. split; [|done].
  rewrite !length_app, length_take, length_replicate. cbn [length]. lia.
Qed.

Lemma X4_FillRemainingPath_witness :
  FillRemainingPath [1; 16] 0 = [1; 16]
  /\ length (FillRemainingPath [1; 2] 7) = 65%nat
  /\ FillRemainingPath [1; 2] 7
     = take 64 [1; 2] ++ replicate (64 - length [1; 2]) 7 ++ [16].
Proof.
  split.
  - apply (X4_FillRemainingPath [1; 16] 0). reflexivity.
  - apply (X4_FillRemainingPath [1; 2] 7). reflexivity.
Defined.

(** X5: [Compact] is injective on paths of nibbles with an optional
    terminator: two such paths with the same compact encoding are the same
    path. *)
Theorem X5_Compact_injective (body1 body2 : Hex) (term1 term2 : bool) (c : Compact) :
  Forall is_nibble body1 -> Forall is_nibble body2 ->
  Hex_Compact (if term1 then body1 ++ [16] else body1) = Done c ->
  Hex_Compact (if term2 then body2 ++ [16] else body2) = Done c ->
  body1 = body2 /\ term1 = term2.
Proof.
  intros H1 H2 E1 E2.
  destruct (Hex_Compact_body body1 term1 H1) as (c1 & Hc1 & Hk1).
  destruct (Hex_Compact_body body2 term2 H2) as (c2 & Hc2 & Hk2).
  rewrite E1 in Hc1. rewrite E2 in Hc2.
  injection Hc1 as <-. injection Hc2 as <-.
  rewrite Hk1 in Hk2. clear -Hk2.
  destruct (Nat.odd (length body1)), (Nat.odd (length body2)),
    term1, term2; simpl in Hk2; try discriminate;
    injection Hk2 as Hk2; apply app_inj_tail in Hk2 as [-> _]; done.
Qed.

Lemma X5_Compact_injective_witness :
  [1; 2; 3] = [1; 2; 3] /\ true = true.
Proof.
  apply (X5_Compact_injective [1; 2; 3] [1; 2; 3] true true [49; 35]).
  - repeat constructor; unfold is_nibble; lia.
  - repeat constructor; unfold is_nibble; lia.
  - reflexivity.
  - reflexivity.
Defined.

End encoding_more.

(** ** More on the storage key *)

Module storagekey_more.
Import encoding storagekey trie_model encoding_props storagekey_props
  trie_inv trie_top.

Lemma lor_shiftl_add (a b n : Z) :
  0 <= n -> 0 <= a < 2 ^ n -> Z.lor a (Z.shiftl b n) = a + b * 2 ^ n.
Proof.
  intros Hn Ha.
  assert (Hland : Z.land a (Z.shiftl b n) = 0).
  { apply Z.bits_inj'. intros i Hi. rewrite Z.land_spec, Z.bits_0.
    destruct (Z.lt_ge_cases i n) as [Hlt | Hge].
    - rewrite (Z.shiftl_spec_low b n i Hlt). apply andb_false_r.
    - rewrite <- (Z.mod_small a (2 ^ n)) by lia.
      rewrite Z.mod_pow2_bits_high by lia. done. }
  pose proof (Z.add_lor_land a (Z.shiftl b n)) as H.
  rewrite Hland, Z.add_0_r in H.
  rewrite Z.shiftl_mul_pow2 in * by done. lia.
Qed.

Lemma Uint32_PutUint32 (v : Z) (rest : bytes) :
  0 <= v < 2 ^ 32 -> Uint32 (PutUint32 v ++ rest) = Done v.
Proof.
  intros Hv. unfold PutUint32, Uint32, byte. cbn [app]. f_equal.
  rewrite !Z.shiftr_div_pow2 by lia.
  rewrite (lor_shiftl_add (v mod 256)).
  2: lia.
  2:{ pose proof (Z.mod_pos_bound v 256). lia. }
  rewrite (lor_shiftl_add _ _ 16).
  2: lia.
  2:{ pose proof (Z.mod_pos_bound v 256).
      pose proof (Z.mod_pos_bound (v / 2 ^ 8) 256). lia. }
  rewrite (lor_shiftl_add _ _ 24).
  2: lia.
  2:{ pose proof (Z.mod_pos_bound v 256).
      pose proof (Z.mod_pos_bound (v / 2 ^ 8) 256).
      pose proof (Z.mod_pos_bound (v / 2 ^ 16) 256). lia. }
  change (2 ^ 8) with 256. change (2 ^ 16) with 65536.
  change (2 ^ 24) with 16777216. change (2 ^ 32) with 4294967296 in Hv.
  Z.to_euclidean_division_equations. lia.
Qed.

Lemma PutUint32_length (v : Z) : length (PutUint32 v) = 4%nat.
Proof. reflexivity. Qed.

Lemma padded_expand (l : Hex) (bs : bytes) :
  Forall is_nibble l -> decodeNibbles (padded l) = Done bs ->
  expand bs = padded l.
Proof.
  intros Hl Hd.
  destruct (decodeNibbles_even (padded l) (padded_nibbles l Hl) (padded_even l))
    as (bs' & Hd' & He & _).
  rewrite Hd in Hd'. by injection Hd' as <-.
Qed.

(** X6: the accessors of a key read back what [NewKey] put in: the
    version, the odd-length flag, and through [Rel] the path, which comes
    back padded to an even number of nibbles and with the terminator. *)
Theorem X6_Key_accessors (P : Hex) (v : Z) :
  storage_path P -> 0 <= v < 2 ^ 32 ->
  exists k,
    NewKey P v = Done k
    /\ Key_Version k = Done v
    /\ Key_oddByte k
       = Done (if negb (length P =? 65)%nat && Nat.odd (length P) then 1 else 0)
    /\ Key_Rel k [] = Done (if HasTerm P then P else padded P ++ [16]).
Proof.
  intros HP Hv.
  destruct (NewKey_storage_path P HP) as (body & Hb & HPb & Hk).
  destruct (decode_padded body Hb) as (bs & Hd).
  exists (bs ++ odd_flag body :: PutUint32 v).
  rewrite Hk, Hd. split; [done|].
  pose proof (padded_expand body bs Hb Hd) as He.
  assert (Hflag : odd_flag body
                  = if negb (length P =? 65)%nat && Nat.odd (length P)
                    then 1 else 0).
  { destruct HP as [[HPn Hlen] | (body' & -> & Hb' & Hlen)].
    - destruct HPb as [-> | ->].
      + unfold odd_flag.
        destruct (Nat.eqb_spec (length body) 65); [lia | done].
      + apply Forall_app in HPn as [_ HPn]. inversion HPn as [|? ? Hn _].
        unfold is_nibble in Hn. lia.
    - destruct HPb as [<- | E].
      + apply Forall_app in Hb as [_ Hb]. inversion Hb as [|? ? Hn _].
        unfold is_nibble in Hn. lia.
      + apply app_inj_tail in E as [-> _].
        rewrite length_app. cbn [length]. rewrite Hlen.
        unfold odd_flag. by rewrite Hlen. }
  assert (Hterm : (if HasTerm P then P else padded P ++ [16])
                  = padded body ++ [16]).
  { destruct HPb as [-> | ->].
    - by rewrite HasTerm_nibbles.
    - rewrite HasTerm_app_term.
      destruct HP as [[HPn Hlen] | (body' & E & Hb' & Hlen)].
      + apply Forall_app in HPn as [_ HPn]. inversion HPn as [|? ? Hn _].
        unfold is_nibble in Hn. lia.
      + apply app_inj_tail in E as [-> _]. unfold padded. by rewrite Hlen. }
  rewrite Hterm, <- Hflag. clear Hflag Hterm.
  assert (Hlen : length (bs ++ odd_flag body :: PutUint32 v)
                 = (length bs + 5)%nat).
  { rewrite length_app. cbn [length]. rewrite PutUint32_length. lia. }
  split; [|split].
  - unfold Key_Version. rewrite Hlen.
    destruct (Nat.leb_spec 4 (length bs + 5)); [|lia].
    replace (bs ++ odd_flag body :: PutUint32 v)
      with ((bs ++ [odd_flag body]) ++ PutUint32 v)
      by (by rewrite <- app_assoc).
    replace (length bs + 5 - 4)%nat with (length (bs ++ [odd_flag body]))
      by (rewrite length_app; simpl; lia).
    rewrite drop_app_length.
    rewrite <- (app_nil_r (PutUint32 v)). by apply Uint32_PutUint32.
  - unfold Key_oddByte, at_index. rewrite Hlen.
    destruct (Nat.leb_spec 5 (length bs + 5)); [|lia].
    replace (length bs + 5 - 5)%nat with (length bs) by lia.
    by rewrite list_lookup_middle.
  - unfold Key_Rel, Key_path, slice_from. rewrite Hlen.
    destruct (Nat.leb_spec 5 (length bs + 5)); [|lia].
    replace (length bs + 5 - 5)%nat with (length bs) by lia.
    rewrite take_app_length. cbn [mbind exec_bind length Nat.leb drop].
    by rewrite Keybytes_Hex_expand, He.
Qed.

Lemma X6_Key_accessors_witness :
  exists k,
    NewKey [1; 2; 3] 7 = Done k
    /\ Key_Version k = Done 7
    /\ Key_oddByte k = Done 1
    /\ Key_Rel k [] = Done [1; 2; 3; 0; 16].
Proof.
  apply (X6_Key_accessors [1; 2; 3] 7); [|lia].
  left. split; [|simpl; lia]. repeat constructor; unfold is_nibble; lia.
Defined.

(** X7: on paths of at most 64 nibbles [NewKey] is injective: two keys
    are equal only for the same path and the same version.  A full path
    with the terminator has the key of its 64 nibbles without it. *)
Theorem X7_NewKey_injective :
  (forall (P P' : Hex) (v v' : Z) (k : Key),
      Forall is_nibble P -> Forall is_nibble P' ->
      (length P <= 64)%nat -> (length P' <= 64)%nat ->
      0 <= v < 2 ^ 32 -> 0 <= v' < 2 ^ 32 ->
      NewKey P v = Done k -> NewKey P' v' = Done k ->
      P = P' /\ v = v')
  /\ (forall (body : Hex) (v : Z),
      Forall is_nibble body -> length body = 64%nat ->
      NewKey (body ++ [16]) v = NewKey body v).
Proof.
  split.
  - intros P P' v v' k HP HP' Hl Hl' Hv Hv' E E'.
    rewrite NewKey_prefix in E by done. rewrite NewKey_prefix in E' by done.
    destruct (decode_padded P HP) as (bs & Hd).
    destruct (decode_padded P' HP') as (bs' & Hd').
    rewrite Hd in E. rewrite Hd' in E'. cbn [mbind exec_bind] in E, E'.
    injection E as <-. injection E' as E'.
    apply app_inj_2 in E' as [Ebs Etail];
      [|cbn [length]; by rewrite !PutUint32_length].
    pose proof (f_equal tail Etail) as Ever.
    pose proof (f_equal head Etail) as Eflag.
    cbn [tail head] in Ever, Eflag. injection Eflag as Eflag. clear Etail.
    assert (v = v') as ->.
    { pose proof (Uint32_PutUint32 v [] Hv) as Hu.
      pose proof (Uint32_PutUint32 v' [] Hv') as Hu'.
      rewrite !app_nil_r in Hu, Hu'. rewrite <- Ever, Hu' in Hu.
      by injection Hu. }
    split; [|done].
    pose proof (padded_expand P bs HP Hd) as He.
    pose proof (padded_expand P' bs' HP' Hd') as He'.
    rewrite Ebs, He in He'. unfold padded, odd_flag in *.
    destruct (Nat.odd (length P)), (Nat.odd (length P'));
      try discriminate; [|done].
    by apply app_inj_tail in He' as [-> _].
  - intros body v Hb Hlen.
    rewrite NewKey_full by done. rewrite NewKey_prefix by (done || lia). done.
Qed.

Lemma X7_NewKey_injective_witness :
  ([1; 2; 3] = [1; 2; 3] /\ 7 = 7)
  /\ NewKey (replicate 64 5 ++ [16]) 9 = NewKey (replicate 64 5) 9.
Proof.
  destruct X7_NewKey_injective as [H1 H2]. split.
  - apply (H1 [1; 2; 3] [1; 2; 3] 7 7 [18; 48; 1; 0; 0; 0; 7]);
      try (repeat constructor; unfold is_nibble; lia); try (simpl; lia);
      reflexivity.
  - apply H2; [|reflexivity]. apply Forall_replicate. unfold is_nibble. lia.
Defined.

End storagekey_more.


(** ** More on the fridge *)

Module vectordb_more.
Import vectordb vectordb_props.

Lemma PutUint64_bytes (v : Z) :
  PutUint64 v
  = [byte (Z.shiftr v 56); byte (Z.shiftr v 48); byte (Z.shiftr v 40);
     byte (Z.shiftr v 32); byte (Z.shiftr v 24); byte (Z.shiftr v 16);
     byte (Z.shiftr v 8); byte (Z.shiftr v 0)].
Proof. reflexivity. Qed.

Lemma Uint64_PutUint64 (v : Z) : 0 <= v < 2 ^ 64 -> Uint64 (PutUint64 v) = v.
Proof.
  intros Hv. rewrite PutUint64_bytes. unfold Uint64, byte.
  cbn [take fold_left]. rewrite !Z.shiftr_div_pow2 by lia.
  set (q1 := v / 2 ^ 8). set (q2 := q1 / 256). set (q3 := q2 / 256).
  set (q4 := q3 / 256). set (q5 := q4 / 256). set (q6 := q5 / 256).
  set (q7 := q6 / 256).
  assert (E2 : v / 2 ^ 16 = q2)
    by (unfold q2, q1; rewrite !Z.div_div by lia; reflexivity).
  assert (E3 : v / 2 ^ 24 = q3)
    by (unfold q3, q2, q1; rewrite !Z.div_div by lia; reflexivity).
  assert (E4 : v / 2 ^ 32 = q4)
    by (unfold q4, q3, q2, q1; rewrite !Z.div_div by lia; reflexivity).
  assert (E5 : v / 2 ^ 40 = q5)
    by (unfold q5, q4, q3, q2, q1; rewrite !Z.div_div by lia; reflexivity).
  assert (E6 : v / 2 ^ 48 = q6)
    by (unfold q6, q5, q4, q3, q2, q1; rewrite !Z.div_div by lia;
        reflexivity).
  assert (E7 : v / 2 ^ 56 = q7)
    by (unfold q7, q6, q5, q4, q3, q2, q1; rewrite !Z.div_div by lia;
        reflexivity).
  rewrite E2, E3, E4, E5, E6, E7, Z.pow_0_r, Z.div_1_r.
  assert (H1 : v = 256 * q1 + v mod 256) by (apply Z.div_mod; lia).
  pose proof (Z.div_mod q1 256 ltac:(lia)) as H2.
  pose proof (Z.div_mod q2 256 ltac:(lia)) as H3.
  pose proof (Z.div_mod q3 256 ltac:(lia)) as H4.
  pose proof (Z.div_mod q4 256 ltac:(lia)) as H5.
  pose proof (Z.div_mod q5 256 ltac:(lia)) as H6.
  pose proof (Z.div_mod q6 256 ltac:(lia)) as H7.
  fold q2 in H2. fold q3 in H3. fold q4 in H4. fold q5 in H5.
  fold q6 in H6. fold q7 in H7.
  assert (H8 : q7 mod 256 = q7).
  { apply Z.mod_small. rewrite <- E7.
    split; [apply Z.div_pos; lia|]. apply Z.div_lt_upper_bound; lia. }
  rewrite H8. lia.
Qed.

Lemma PutUint64_length (v : Z) : length (PutUint64 v) = 8%nat.
Proof. reflexivity. Qed.

Lemma marshallBinary_length (e : indexEntry) : length (marshallBinary e) = 16%nat.
Proof. reflexivity. Qed.

Lemma unmarshal_marshal (e : indexEntry) :
  0 <= offset e < 2 ^ 64 -> 0 <= length_ e < 2 ^ 64 ->
  unmarshalBinary (marshallBinary e) = e.
Proof.
  intros Ho Hl. destruct e as [o l]. cbn [offset length_] in *.
  unfold unmarshalBinary, marshallBinary. cbn [offset length_].
  rewrite (take_app_length' _ _ 8) by done.
  rewrite (drop_app_length' _ _ 8) by done.
  rewrite (take_ge (PutUint64 l)) by done.
  by rewrite !Uint64_PutUint64.
Qed.

(** X8: an index entry with fields below 2^64 is read back from its 16
    bytes as it was written. *)
Theorem X8_indexEntry_roundtrip (e : indexEntry) :
  0 <= offset e < 2 ^ 64 -> 0 <= length_ e < 2 ^ 64 ->
  unmarshalBinary (marshallBinary e) = e.
Proof. exact (unmarshal_marshal e). Qed.

Lemma X8_indexEntry_roundtrip_witness :
  unmarshalBinary (marshallBinary (mkIndexEntry 258 3)) = mkIndexEntry 258 3.
Proof. apply X8_indexEntry_roundtrip; simpl; lia. Defined.

Lemma index_image_length (off : Z) (bs : list bytes) :
  length (index_image off bs) = (16 * length bs)%nat.
Proof.
  revert off. induction bs as [|b bs IH]; intros off; [done|].
  cbn [index_image]. rewrite length_app, marshallBinary_length, IH.
  cbn [length]. lia.
Qed.

Lemma index_image_app (off : Z) (l1 l2 : list bytes) :
  index_image off (l1 ++ l2)
  = index_image off l1
      ++ index_image (off + Z.of_nat (length (concat l1))) l2.
Proof.
  revert off. induction l1 as [|b l1 IH]; intros off.
  - cbn. by rewrite Z.add_0_r.
  - cbn [app index_image concat]. rewrite IH, <- app_assoc.
    do 3 f_equal. rewrite length_app. lia.
Qed.

Lemma uint64_small (x : Z) : 0 <= x < 2 ^ 64 -> uint64 x = x.
Proof. intros H. unfold uint64. by apply Z.mod_small. Qed.

Lemma int64_small (x : Z) : 0 <= x < 2 ^ 63 -> int64 x = x.
Proof. intros H. unfold int64. rewrite Z.mod_small by lia. lia. Qed.

Lemma append_all_cons (f : VectorDB) (b : bytes) (bs : list bytes) :
  append_all f (b :: bs) = append_all (fst (Append f b)) bs.
Proof. reflexivity. Qed.

Lemma Append_open (n : Z) (idx dat : file) (b : bytes) :
  0 <= n -> n + 1 < 2 ^ 64 ->
  Z.of_nat (length dat) + Z.of_nat (length b) < 2 ^ 64 ->
  Append (mkVectorDB n (Some idx) (Some dat)) b
  = (mkVectorDB (n + 1)
       (Some (idx ++ marshallBinary
                       (mkIndexEntry (Z.of_nat (length dat))
                                     (Z.of_nat (length b)))))
       (Some (dat ++ b)), None).
Proof.
  intros Hn Hitems Hsize. unfold Append. cbn [index data items].
  by rewrite !uint64_small by lia.
Qed.

(** The fridge after appending [bs] to an open fridge. *)
Lemma append_all_image (bs : list bytes) :
  forall (n : Z) (idx dat : file),
  0 <= n -> n + Z.of_nat (length bs) < 2 ^ 64 ->
  Z.of_nat (length dat) + Z.of_nat (length (concat bs)) < 2 ^ 64 ->
  append_all (mkVectorDB n (Some idx) (Some dat)) bs
  = mkVectorDB (n + Z.of_nat (length bs))
      (Some (idx ++ index_image (Z.of_nat (length dat)) bs))
      (Some (dat ++ concat bs)).
Proof.
  induction bs as [|b bs IH]; intros n idx dat Hn Hitems Hsize.
  - cbn. by rewrite Z.add_0_r, !app_nil_r.
  - cbn [concat length] in Hitems, Hsize. rewrite length_app in Hsize.
    rewrite append_all_cons, Append_open by lia. cbn [fst].
    rewrite IH by (rewrite ?length_app; lia).
    cbn [index_image concat length]. rewrite length_app, <- !app_assoc.
    rewrite Nat2Z.inj_add.
    replace (n + 1 + Z.of_nat (length bs)) with (n + Z.of_nat (S (length bs)))
      by lia.
    done.
Qed.

Lemma index_image_read (bs : list bytes) (i : nat) (b : bytes) (off : Z) :
  bs !! i = Some b ->
  take 16 (drop (16 * i) (index_image off bs))
  = marshallBinary
      (mkIndexEntry (off + Z.of_nat (length (concat (take i bs))))
                    (Z.of_nat (length b))).
Proof.
  intros Hi. rewrite <- (take_drop_middle bs i b Hi) at 1.
  rewrite index_image_app. cbn [index_image].
  rewrite drop_app_length'.
  - by rewrite (take_app_length' _ _ 16).
  - rewrite index_image_length, length_take.
    apply lookup_lt_Some in Hi. lia.
Qed.

Lemma concat_read (bs : list bytes) (i : nat) (b : bytes) :
  bs !! i = Some b ->
  take (length b) (drop (length (concat (take i bs))) (concat bs)) = b.
Proof.
  intros Hi. rewrite <- (take_drop_middle bs i b Hi) at 2.
  rewrite concat_app, drop_app_length. cbn [concat].
  by rewrite take_app_length.
Qed.

Lemma concat_take_length (bs : list bytes) (i : nat) :
  (length (concat (take i bs)) <= length (concat bs))%nat.
Proof.
  rewrite <- (take_drop i bs) at 2. rewrite concat_app, length_app. lia.
Qed.

Lemma concat_take_length_lookup (bs : list bytes) (i : nat) (b : bytes) :
  bs !! i = Some b ->
  (length (concat (take i bs)) + length b <= length (concat bs))%nat.
Proof.
  intros Hi. rewrite <- (take_drop_middle bs i b Hi) at 2.
  rewrite concat_app, length_app. cbn [concat]. rewrite length_app. lia.
Qed.

(** X9: a fridge that was opened fresh and had the blobs [bs] appended
    counts [len(bs)] items, returns the i-th blob for [Get(i)], and returns
    an error for a position from [len(bs)] on. *)
Theorem X9_Append_Get (bs : list bytes) :
  Z.of_nat (length bs) < 2 ^ 59 ->
  Z.of_nat (length (concat bs)) < 2 ^ 63 ->
  Items (append_all Open_fresh bs) = Z.of_nat (length bs)
  /\ (forall (i : nat) (b : bytes),
        bs !! i = Some b ->
        Get (append_all Open_fresh bs) (Z.of_nat i) = inr b)
  /\ (forall pos : Z,
        Z.of_nat (length bs) <= pos ->
        Get (append_all Open_fresh bs) pos
        = inl (errOutOfRange pos (Z.of_nat (length bs)))).
Proof.
  intros Hn Hsize. unfold Open_fresh.
  rewrite append_all_image by (cbn [length]; lia).
  cbn [length app]. rewrite !Z.add_0_l. split; [done|]. split.
  - intros i b Hi. pose proof (lookup_lt_Some _ _ _ Hi) as Hlt.
    unfold Get. cbn [index data items].
    destruct (Z.leb_spec (Z.of_nat (length bs)) (Z.of_nat i)); [lia|].
    unfold indexEntry_at, indexOffset, indexEntryLen.
    rewrite (int64_small (Z.of_nat i)) by lia.
    rewrite int64_small by lia.
    unfold ReadAt at 1.
    destruct (Z.ltb_spec (Z.of_nat i * 16) 0); [lia|].
    replace (Z.to_nat (Z.of_nat i * 16)) with (16 * i)%nat by lia.
    change (Z.to_nat 16) with 16%nat.
    change (Z.of_nat 0) with 0.
    rewrite (index_image_read bs i b 0 Hi), marshallBinary_length.
    cbn [Nat.ltb Nat.leb].
    pose proof (concat_take_length_lookup bs i b Hi) as Hle.
    rewrite unmarshal_marshal by (cbn [offset length_]; lia).
    cbn [offset length_]. rewrite Z.add_0_l.
    rewrite int64_small by lia. unfold ReadAt.
    destruct (Z.ltb_spec (Z.of_nat (length (concat (take i bs)))) 0); [lia|].
    rewrite !Nat2Z.id, (concat_read bs i b Hi).
    by rewrite Nat.ltb_irrefl.
  - intros pos Hpos. unfold Get. cbn [index data items].
    by destruct (Z.leb_spec (Z.of_nat (length bs)) pos); [|lia].
Qed.

Lemma X9_Append_Get_witness :
  Items (append_all Open_fresh [[1]; []; [2; 3]]) = 3
  /\ Get (append_all Open_fresh [[1]; []; [2; 3]]) 2 = inr [2; 3]
  /\ Get (append_all Open_fresh [[1]; []; [2; 3]]) 3 = inl (errOutOfRange 3 3).
Proof.
  destruct (X9_Append_Get [[1]; []; [2; 3]]) as (H1 & H2 & H3);
    [simpl; lia | simpl; lia |].
  split; [exact H1|]. split.
  - exact (H2 2%nat [2; 3] eq_refl).
  - apply H3. simpl. lia.
Defined.

(** X10: [Close] of an open fridge succeeds, and afterwards [Get],
    [Append], [Truncate] and a second [Close] all return [errClosed] and
    leave the fridge as it is. *)
Theorem X10_closed_fridge (f : VectorDB) (pos len : Z) (b : bytes) :
  checkIsOpen f = None ->
  let f' := fst (Close f) in
  snd (Close f) = None
  /\ Items f' = Items f
  /\ Get f' pos = inl errClosed
  /\ Append f' b = (f', Some errClosed)
  /\ Truncate f' len = (f', Some errClosed)
  /\ Close f' = (f', Some errClosed).
Proof.
  intros Hopen. unfold Close. rewrite Hopen. cbn. done.
Qed.

Lemma X10_closed_fridge_witness :
  let f' := fst (Close fridge3) in
  snd (Close fridge3) = None
  /\ Items f' = Items fridge3
  /\ Get f' 0 = inl errClosed
  /\ Append f' [4] = (f', Some errClosed)
  /\ Truncate f' 1 = (f', Some errClosed)
  /\ Close f' = (f', Some errClosed).
Proof. apply (X10_closed_fridge fridge3 0 1 [4]). reflexivity. Defined.

(** X11: on a fridge that was opened fresh and had blobs appended,
    [Truncate] never returns nil: a length from the item count on is
    rejected and the fridge is left as it is, and a smaller length gives
    [io.EOF], because the index entry at the new length is read after the
    index file has been cut to that length. *)
Theorem X11_Truncate_never_succeeds (bs : list bytes) (len : Z) :
  Z.of_nat (length bs) < 2 ^ 59 ->
  Z.of_nat (length (concat bs)) < 2 ^ 63 ->
  0 <= len ->
  let f := append_all Open_fresh bs in
  (Z.of_nat (length bs) <= len ->
   Truncate f len = (f, Some (errOutOfRange len (Z.of_nat (length bs)))))
  /\ (len < Z.of_nat (length bs) -> snd (Truncate f len) = Some errEOF).
Proof.
  intros Hn Hsize Hlen f. unfold f, Open_fresh.
  rewrite append_all_image by (cbn [length]; lia).
  cbn [length app]. rewrite !Z.add_0_l. split.
  - intros Hge. unfold Truncate. cbn [index data items].
    by destruct (Z.leb_spec (Z.of_nat (length bs)) len); [|lia].
  - intros Hlt. apply Truncate_in_range_fails; [lia | lia |].
    rewrite index_image_length. unfold indexEntryLen. lia.
Qed.

Lemma X11_Truncate_never_succeeds_witness :
  let f := append_all Open_fresh [[1]; [2; 2]] in
  Truncate f 2 = (f, Some (errOutOfRange 2 2))
  /\ snd (Truncate f 1) = Some errEOF.
Proof.
  intros f. split.
  - apply (X11_Truncate_never_succeeds [[1]; [2; 2]] 2); simpl; lia.
  - apply (X11_Truncate_never_succeeds [[1]; [2; 2]] 1); simpl; lia.
Defined.

End vectordb_more.


(** ** More on the nodes in memory *)

Module versionnode_more.
Import encoding versionnode storage ludicroustrie trie_model
  encoding_props trie_inv trie_top.
#[local] Arguments contents : simpl never.

(** X12: [LastLivingChild] returns -1 and false for children that are all
    nil; otherwise it returns the slot of the last child that is not nil,
    and true exactly when that child is the only one. *)
Theorem X12_LastLivingChild (cs : Children) :
  (living cs = 0%nat -> LastLivingChild cs = (-1, false))
  /\ ((0 < living cs)%nat ->
      exists (i : nat) (c : Node),
        LastLivingChild cs = (Z.of_nat i, bool_decide (living cs = 1%nat))
        /\ cs !! i = Some c /\ isNil c = false
        /\ forall j c', cs !! j = Some c' -> (i < j)%nat -> c' = Nil).
Proof.
  pose proof (LastLivingChild_spec cs) as H.
  destruct (LastLivingChild cs) as [index onlyChild].
  destruct H as [(H0 & -> & ->) | (i & c & -> & Hi & Hc & Hlast & ->)].
  - split; [done | lia].
  - assert (0 < living cs)%nat.
    { rewrite <- (take_drop_middle cs i c Hi), living_app, living_cons, Hc.
      lia. }
    split; [lia|]. intros _. by exists i, c.
Qed.

Lemma X12_LastLivingChild_witness :
  LastLivingChild (replicate 16 Nil) = (-1, false)
  /\ exists (i : nat) (c : Node),
       LastLivingChild [Nil; Leaf [16] [1] 0; Nil]
       = (Z.of_nat i, bool_decide (living [Nil; Leaf [16] [1] 0; Nil] = 1%nat))
       /\ [Nil; Leaf [16] [1] 0; Nil] !! i = Some c /\ isNil c = false
       /\ forall j c', [Nil; Leaf [16] [1] 0; Nil] !! j = Some c' ->
                       (i < j)%nat -> c' = Nil.
Proof.
  split.
  - apply (X12_LastLivingChild (replicate 16 Nil)). reflexivity.
  - apply (X12_LastLivingChild [Nil; Leaf [16] [1] 0; Nil]).
    unfold living. simpl. lia.
Defined.

(** X13: [prefixContainedIn] tells whether the prefix is a prefix of
    [path[start:]]; a start beyond the end of the path is a slice panic. *)
Theorem X13_prefixContainedIn (prefix path : Hex) (start : nat) :
  ((start <= length path)%nat ->
   prefixContainedIn prefix path start
   = Done (bool_decide (prefix `prefix_of` drop start path)))
  /\ ((length path < start)%nat ->
      prefixContainedIn prefix path start = Panic).
Proof.
  split; [apply prefixContainedIn_spec|].
  intros H. unfold prefixContainedIn, slice_from.
  by destruct (Nat.leb_spec start (length path)); [lia|].
Qed.

Lemma X13_prefixContainedIn_witness :
  prefixContainedIn [2; 3] [1; 2; 3; 4] 1
  = Done (bool_decide ([2; 3] `prefix_of` drop 1 [1; 2; 3; 4]))
  /\ prefixContainedIn [2; 3] [1; 2; 3; 4] 5 = Panic.
Proof.
  split.
  - apply (X13_prefixContainedIn [2; 3] [1; 2; 3; 4] 1). simpl. lia.
  - apply (X13_prefixContainedIn [2; 3] [1; 2; 3; 4] 5). simpl. lia.
Defined.

(** X14: [AddSibling] on a subtree in memory whose prefix leaves the path
    returns a subtree at the same place that holds the pairs it held and
    the new pair, and keeps the invariant of the tree. *)
Theorem X14_AddSibling (pre : Hex) (n : Node) (path : Hex) (index : nat)
    (value : bytes) (ver : Z) :
  wf pre n -> full_path path -> (index <= length path)%nat ->
  pre = take index path ->
  prefixMismatch n path index = Done true -> value <> deletedValue ->
  exists after,
    AddSibling n (drop index path) path value ver = Done after
    /\ wf pre after
    /\ contents pre after = <[path := value]> (contents pre n).
Proof. intros. by apply AddSibling_wf. Qed.

Lemma full_path_sample (last : Z) :
  is_nibble last -> full_path (replicate 63 0 ++ [last; 16]).
Proof.
  intros Hl. split; [|done].
  exists (replicate 63 0 ++ [last]). split; [by rewrite <- app_assoc|].
  apply Forall_app. split; [|by apply Forall_singleton].
  apply Forall_replicate. unfold is_nibble. lia.
Qed.

Lemma X14_AddSibling_witness :
  exists after,
    AddSibling (Leaf (replicate 63 0 ++ [1; 16]) [1] 0)
      (drop 0 (replicate 63 0 ++ [2; 16])) (replicate 63 0 ++ [2; 16]) [2] 1
    = Done after
    /\ wf [] after
    /\ contents [] after
       = <[replicate 63 0 ++ [2; 16] := [2]]>
           (contents [] (Leaf (replicate 63 0 ++ [1; 16]) [1] 0)).
Proof.
  apply (X14_AddSibling [] (Leaf (replicate 63 0 ++ [1; 16]) [1] 0)
           (replicate 63 0 ++ [2; 16]) 0 [2] 1).
  - apply wf_Leaf; [reflexivity | | done].
    exists (replicate 63 0 ++ [1]). split; [by rewrite <- app_assoc|].
    apply Forall_app. split; [|apply Forall_singleton; unfold is_nibble; lia].
    apply Forall_replicate. unfold is_nibble. lia.
  - apply full_path_sample. unfold is_nibble. lia.
  - simpl. lia.
  - reflexivity.
  - reflexivity.
  - done.
Defined.

Lemma land_bit (m : Z) (j : nat) :
  0 <= m -> (Z.land m (2 ^ Z.of_nat j) =? 0) = negb (Z.testbit m (Z.of_nat j)).
Proof.
  intros Hm. destruct (Z.testbit m (Z.of_nat j)) eqn:E; cbn [negb].
  - apply Z.eqb_neq. intros H0.
    assert (Hb : Z.testbit (Z.land m (2 ^ Z.of_nat j)) (Z.of_nat j) = true).
    { rewrite Z.land_spec, E, Z.pow2_bits_true by lia. done. }
    by rewrite H0, Z.bits_0 in Hb.
  - apply Z.eqb_eq. apply Z.bits_inj'. intros k Hk.
    rewrite Z.land_spec, Z.bits_0.
    destruct (decide (k = Z.of_nat j)) as [-> | Hne].
    + by rewrite E.
    + rewrite Z.pow2_bits_false by lia. apply andb_false_r.
Qed.

Lemma bit16 (j : nat) :
  (j < 16)%nat -> Z.shiftl 1 (Z.of_nat j) mod 2 ^ 16 = 2 ^ Z.of_nat j.
Proof.
  intros Hj. rewrite Z.shiftl_1_l. apply Z.mod_small.
  split; [apply Z.pow_nonneg; lia|]. apply Z.pow_lt_mono_r; lia.
Qed.

Lemma ChildrenMask_Test_bit (m : Z) (j : nat) :
  0 <= m -> (j < 16)%nat -> ChildrenMask_Test m j = Z.testbit m (Z.of_nat j).
Proof.
  intros Hm Hj. unfold ChildrenMask_Test.
  rewrite bit16, land_bit by done. apply negb_involutive.
Qed.

(** X15: on a 16-bit mask, [Set] of a slot below 16 makes [Test] of that
    slot true, leaves [Test] of every other slot as it was, and keeps the
    mask within 16 bits; no slot of the zero mask tests true. *)
Theorem X15_ChildrenMask (m : Z) (i j : nat) :
  0 <= m < 2 ^ 16 -> (i < 16)%nat -> (j < 16)%nat ->
  0 <= ChildrenMask_Set m i < 2 ^ 16
  /\ ChildrenMask_Test (ChildrenMask_Set m i) i = true
  /\ (j <> i -> ChildrenMask_Test (ChildrenMask_Set m i) j = ChildrenMask_Test m j)
  /\ ChildrenMask_Test 0 j = false.
Proof.
  intros Hm Hi Hj.
  assert (Hrange : 0 <= ChildrenMask_Set m i < 2 ^ 16)
    by (unfold ChildrenMask_Set; apply Z.mod_pos_bound; lia).
  assert (Hbits : forall k : nat, (k < 16)%nat ->
            Z.testbit (ChildrenMask_Set m i) (Z.of_nat k)
            = Z.testbit m (Z.of_nat k) || bool_decide (k = i)).
  { intros k Hk. unfold ChildrenMask_Set.
    rewrite Z.mod_pow2_bits_low by lia.
    rewrite Z.lor_spec, Z.shiftl_1_l. f_equal.
    case_bool_decide as E.
    - subst. apply Z.pow2_bits_true. lia.
    - apply Z.pow2_bits_false. lia. }
  split; [done|]. split; [|split].
  - rewrite ChildrenMask_Test_bit, Hbits by (done || lia).
    rewrite bool_decide_eq_true_2 by done. apply orb_true_r.
  - intros Hne. rewrite !ChildrenMask_Test_bit, Hbits by (done || lia).
    rewrite bool_decide_eq_false_2 by done. apply orb_false_r.
  - rewrite ChildrenMask_Test_bit by (done || lia). apply Z.bits_0.
Qed.

Lemma X15_ChildrenMask_witness :
  0 <= ChildrenMask_Set 5 3 < 2 ^ 16
  /\ ChildrenMask_Test (ChildrenMask_Set 5 3) 3 = true
  /\ ChildrenMask_Test (ChildrenMask_Set 5 3) 2 = ChildrenMask_Test 5 2
  /\ ChildrenMask_Test 0 2 = false.
Proof.
  destruct (X15_ChildrenMask 5 3 2) as (H1 & H2 & H3 & H4); try lia.
  split; [exact H1|]. split; [exact H2|]. split; [apply H3; lia | exact H4].
Defined.

End versionnode_more.


(** ** More on the public operations *)

Module trie_more.
Import encoding versionnode storage ludicroustrie trie_model reference
  encoding_props trie_inv trie_top hash_props.
#[local] Arguments contents : simpl never.

Section Operations.

Variable Keccak256 : bytes -> bytes.
Variable EncodeToBytes : rlp.item -> bytes.
Variable LoadNode : Collection -> Hex -> Z -> exec (error + Node).
Variable LoadLeaf : Collection -> Hex -> Z -> exec (error + Node).
Variable LoadValue : Collection -> Hex -> Z -> exec (error + option bytes).
Variable loads : nat.

Local Abbreviation Get := (ludicroustrie.Get LoadValue).
Local Abbreviation Update :=
  (ludicroustrie.Update Keccak256 EncodeToBytes LoadNode LoadLeaf).
Local Abbreviation Remove :=
  (ludicroustrie.Remove Keccak256 EncodeToBytes LoadNode LoadLeaf).
Local Abbreviation Hash_ := (ludicroustrie.Hash_ Keccak256 EncodeToBytes).
Local Abbreviation run :=
  (trie_model.run Keccak256 EncodeToBytes LoadNode LoadLeaf loads).

Lemma reachable (prefix : bytes) (db : gmap (list Z) (list Z)) (version0 : Z)
    (ops : list op) :
  Forall well_typed ops ->
  exists t,
    run (NewEmptyPrefixedLudicrousTrie prefix db version0) ops = Done t
    /\ wf_root (root t)
    /\ forall p, is_Some (contents [] (root t) !! p) ->
         exists k, valid_key k /\ p = Keybytes_Hex k.
Proof.
  intros Hops.
  destruct (run_wf Keccak256 EncodeToBytes LoadNode LoadLeaf LoadValue loads
              ops _ (empty_trie_wf_root prefix db version0) Hops)
    as (t & Hrun & Hw & Hdom).
  exists t. split; [done|]. split; [done|]. intros p Hp.
  destruct (Hdom p Hp) as [H0 | (k & v & _ & Hk & ->)]; [|by exists k].
  simpl in H0. rewrite contents_Nil_eq, lookup_empty in H0. by destruct H0.
Qed.

(** X16: on a trie that a run of calls has built, [Update] and [Remove] of
    one key leave what [Get] returns for every other key as it was. *)
Theorem X16_other_keys_untouched (prefix : bytes)
    (db : gmap (list Z) (list Z)) (version0 : Z) (ops : list op)
    (k k' v : bytes) :
  Forall well_typed ops -> valid_key k -> valid_key k' -> valid_value v ->
  k <> k' ->
  exists t t1 t2,
    run (NewEmptyPrefixedLudicrousTrie prefix db version0) ops = Done t
    /\ Update t loads (Some k) (Some v) = Done (t1, None)
    /\ Remove t loads (Some k) = Done (t2, None)
    /\ Get t1 (Some k') = Get t (Some k')
    /\ Get t2 (Some k') = Get t (Some k').
Proof.
  intros Hops Hk Hk' Hv Hne.
  destruct (reachable prefix db version0 ops Hops) as (t & Hrun & Hw & _).
  destruct (Update_root Keccak256 EncodeToBytes LoadNode LoadLeaf LoadValue
              loads t k v Hw Hk Hv) as (t1 & st1 & Hu & Hw1 & Hc1 & _).
  destruct (Remove_root Keccak256 EncodeToBytes LoadNode LoadLeaf LoadValue
              loads t k Hw Hk) as (t2 & st2 & Hr & Hw2 & Hc2 & _).
  exists t, t1, t2. split; [done|].
  assert (Hpath : Keybytes_Hex k <> Keybytes_Hex k')
    by (intros E; by apply Keybytes_Hex_inj in E).
  split; [by rewrite (Update_of_status _ _ _ _ _ _ _ _ _ Hu)|].
  split; [by rewrite (Remove_of_status _ _ _ _ _ _ _ _ Hr)|].
  rewrite !(Get_root LoadValue) by done. rewrite Hc1, Hc2.
  by rewrite lookup_insert_ne, lookup_delete_ne.
Qed.

Lemma Hash_contents (t : LudicrousTrie) :
  wf_root (root t) ->
  Hash_ t
  = Done (inr (if decide (contents [] (root t) = ∅) then emptyRoot
               else Keccak256 (reference.encode EncodeToBytes
                      (structure Keccak256 EncodeToBytes 66
                         (contents [] (root t)) 0))),
          storage_ t).
Proof.
  intros Hroot. unfold ludicroustrie.Hash_, Finalize, doForceHash.
  destruct Hroot as [-> | [[dk ->] | Hw]].
  - by rewrite contents_Nil_eq, decide_True.
  - rewrite contents_WithDeletedKeys_eq, contents_Nil_eq, map_filter_empty.
    by rewrite decide_True.
  - rewrite decide_False by (by apply wf_contents_not_empty).
    rewrite (finalize_structure Keccak256 EncodeToBytes (root t) [] []
               (storage_ t) 66 true Hw) by (unfold pathLen; simpl; lia).
    reflexivity.
Qed.

(** X17: [Hash] depends on the pairs in the trie only, not on the calls
    that put them there: two tries built by any runs of calls that return
    the same for [Get] of every key have the same hash, and a trie in which
    [Get] finds no key has the hash of the empty trie. *)
Theorem X17_Hash_history_independent
    (prefix1 prefix2 : bytes) (db1 db2 : gmap (list Z) (list Z))
    (version1 version2 : Z) (ops1 ops2 : list op) :
  Forall well_typed ops1 -> Forall well_typed ops2 ->
  exists t1 t2,
    run (NewEmptyPrefixedLudicrousTrie prefix1 db1 version1) ops1 = Done t1
    /\ run (NewEmptyPrefixedLudicrousTrie prefix2 db2 version2) ops2 = Done t2
    /\ ((forall k, valid_key k -> Get t1 (Some k) = Get t2 (Some k)) ->
        exists h, Hash_ t1 = Done (inr h, storage_ t1)
                  /\ Hash_ t2 = Done (inr h, storage_ t2))
    /\ ((forall k, valid_key k -> Get t1 (Some k) = Done (None, None)) ->
        Hash_ t1 = Done (inr emptyRoot, storage_ t1)).
Proof.
  intros Hops1 Hops2.
  destruct (reachable prefix1 db1 version1 ops1 Hops1)
    as (t1 & Hrun1 & Hw1 & Hdom1).
  destruct (reachable prefix2 db2 version2 ops2 Hops2)
    as (t2 & Hrun2 & Hw2 & Hdom2).
  exists t1, t2. split; [done|]. split; [done|].
  rewrite !Hash_contents by done. split.
  - intros Hget.
    assert (E : contents [] (root t1) = contents [] (root t2)).
    { apply map_eq. intros p.
      destruct (contents [] (root t1) !! p) as [v|] eqn:E1.
      - destruct (Hdom1 p) as (k & Hk & ->); [by rewrite E1|].
        specialize (Hget k Hk). rewrite !(Get_root LoadValue) in Hget by done.
        rewrite E1 in Hget. by injection Hget.
      - destruct (contents [] (root t2) !! p) as [v|] eqn:E2; [|done].
        destruct (Hdom2 p) as (k & Hk & ->); [by rewrite E2|].
        specialize (Hget k Hk). rewrite !(Get_root LoadValue) in Hget by done.
        rewrite E1, E2 in Hget. by injection Hget. }
    rewrite E. eauto.
  - intros Hget. rewrite decide_True; [done|].
    apply map_eq. intros p. rewrite lookup_empty.
    destruct (contents [] (root t1) !! p) as [v|] eqn:E1; [|done].
    destruct (Hdom1 p) as (k & Hk & ->); [by rewrite E1|].
    specialize (Hget k Hk). rewrite (Get_root LoadValue) in Hget by done.
    rewrite E1 in Hget. by injection Hget.
Qed.

(** X18: [Update] and [Remove] change nothing but the root: the version
    and the storage of the trie stay as they are, and when an error is
    returned the trie is the one the call was made on. *)
Theorem X18_only_the_root_changes (t t' : LudicrousTrie)
    (key value : option bytes) (e : option error) :
  (Update t loads key value = Done (t', e) ->
   version t' = version t /\ storage_ t' = storage_ t
   /\ (is_Some e -> t' = t))
  /\ (Remove t loads key = Done (t', e) ->
      version t' = version t /\ storage_ t' = storage_ t
      /\ (is_Some e -> t' = t)).
Proof.
  split.
  - unfold ludicroustrie.Update, Update_status.
    destruct (checkKey key), key; destruct (checkValue value), value;
      cbn [mbind exec_bind fst snd]; try (intros [= <- <-]; by eauto).
    destruct (update _ _ _ _ _ _ _ _ _ _) as [[after| |err]| |];
      cbn [mbind exec_bind fst snd]; try discriminate;
      intros [= <- <-]; repeat split; auto; by intros [? ?].
  - unfold ludicroustrie.Remove, Remove_status.
    destruct (checkKey key), key;
      cbn [mbind exec_bind fst snd]; try (intros [= <- <-]; by eauto).
    destruct (remove _ _ _ _ _ _ _ _ _) as [[after dk| |err]| |];
      cbn [mbind exec_bind fst snd]; try discriminate;
      intros [= <- <-]; repeat split; auto; by intros [? ?].
Qed.


End Operations.

Lemma keys_differ : replicate 32 7 <> replicate 32 0.
Proof. discriminate. Qed.

Lemma X16_other_keys_untouched_witness :
  exists t t1 t2,
    run idKeccak nullEncode noNode noNode 1
      (NewEmptyPrefixedLudicrousTrie [] ∅ 0)
      [OpUpdate (Some (replicate 31 0 ++ [15])) (Some [2]);
       OpUpdate (Some (replicate 32 0)) (Some [3]);
       OpRemove (Some (replicate 31 0 ++ [15]))] = Done t
    /\ ludicroustrie.Update idKeccak nullEncode noNode noNode t 1
         (Some (replicate 32 7)) (Some [1]) = Done (t1, None)
    /\ ludicroustrie.Remove idKeccak nullEncode noNode noNode t 1
         (Some (replicate 32 7)) = Done (t2, None)
    /\ ludicroustrie.Get noValue t1 (Some (replicate 32 0))
       = ludicroustrie.Get noValue t (Some (replicate 32 0))
    /\ ludicroustrie.Get noValue t2 (Some (replicate 32 0))
       = ludicroustrie.Get noValue t (Some (replicate 32 0)).
Proof.
  exact (X16_other_keys_untouched idKeccak nullEncode noNode noNode noValue 1
           [] ∅ 0 _ _ _ _ well_typed_sample valid_key_seven valid_key_zero
           valid_value_one keys_differ).
Defined.

Lemma well_typed_one :
  Forall well_typed [OpUpdate (Some (replicate 32 0)) (Some [3])].
Proof.
  repeat constructor; simpl; unfold is_byte;
    repeat (first [lia | apply Forall_cons; split | apply Forall_nil]).
Qed.

Lemma X17_Hash_history_independent_witness :
  exists t1 t2,
    run idKeccak nullEncode noNode noNode 1
      (NewEmptyPrefixedLudicrousTrie [1] ∅ 0)
      [OpUpdate (Some (replicate 31 0 ++ [15])) (Some [2]);
       OpUpdate (Some (replicate 32 0)) (Some [3]);
       OpRemove (Some (replicate 31 0 ++ [15]))] = Done t1
    /\ run idKeccak nullEncode noNode noNode 1
         (NewEmptyPrefixedLudicrousTrie [] ∅ 4)
         [OpUpdate (Some (replicate 32 0)) (Some [3])] = Done t2
    /\ exists h,
         ludicroustrie.Hash_ idKeccak nullEncode t1 = Done (inr h, storage_ t1)
         /\ ludicroustrie.Hash_ idKeccak nullEncode t2
            = Done (inr h, storage_ t2).
Proof.
  destruct (X17_Hash_history_independent idKeccak nullEncode noNode noNode
              noValue 1 [1] [] ∅ ∅ 0 4 _ _ well_typed_sample well_typed_one)
    as (t1 & t2 & Hrun1 & Hrun2 & Hsame & _).
  exists t1, t2. split; [exact Hrun1|]. split; [exact Hrun2|].
  apply Hsame. intros k Hk.
  destruct (reachable idKeccak nullEncode noNode noNode noValue 1 [1] ∅ 0 _
              well_typed_sample) as (t1' & Hrun1' & Hw1 & _).
  destruct (reachable idKeccak nullEncode noNode noNode noValue 1 [] ∅ 4 _
              well_typed_one) as (t2' & Hrun2' & Hw2 & _).
  rewrite Hrun1 in Hrun1'. injection Hrun1' as <-.
  rewrite Hrun2 in Hrun2'. injection Hrun2' as <-.
  rewrite !(Get_root noValue) by done.
  vm_compute in Hrun1. injection Hrun1 as <-.
  vm_compute in Hrun2. injection Hrun2 as <-.
  reflexivity.
Defined.

Lemma X18_only_the_root_changes_witness :
  let t := NewEmptyLudicrousTrie ∅ 0 in
  let t' := mkTrie 1 (Leaf (Keybytes_Hex (replicate 32 0)) [1] 1)
              (NewCollection ∅) in
  (version t' = version t /\ storage_ t' = storage_ t
   /\ (is_Some (@None error) -> t' = t))
  /\ (version t = version t /\ storage_ t = storage_ t
      /\ (is_Some (Some (errKeySize [1])) -> t = t)).
Proof.
  intros t t'. split.
  - apply (proj1 (X18_only_the_root_changes idKeccak nullEncode noNode noNode
                      1 t t' (Some (replicate 32 0)) (Some [1]) None)).
    reflexivity.
  - apply (proj2 (X18_only_the_root_changes idKeccak nullEncode noNode noNode
                      1 t t (Some [1]) None (Some (errKeySize [1])))).
    reflexivity.
Defined.


End trie_more.


(** ** Commit *)

Module commit_props.
Import encoding storagekey versionnode storage ludicroustrie trie_model
  encoding_props storagekey_props trie_inv trie_top hash_props
  trie_more.
#[local] Arguments contents : simpl never.


Lemma decodeNibbles_returns (l : Hex) : decodeNibbles l <> OutOfFuel.
Proof.
  induction l as [| x | x y l IH] using pair_induction; try done.
  cbn [decodeNibbles]. by destruct (decodeNibbles l).
Qed.

Lemma Hex_Keybytes_returns (h : Hex) : Hex_Keybytes h <> OutOfFuel.
Proof.
  unfold Hex_Keybytes.
  destruct (HasTerm h); destruct (Nat.odd _); try done;
    apply decodeNibbles_returns.
Qed.

Lemma NewKey_returns (p : Hex) (v : Z) : NewKey p v <> OutOfFuel.
Proof.
  unfold NewKey. cbn zeta.
  destruct (Hex_Keybytes _) eqn:E; try done.
  by apply Hex_Keybytes_returns in E.
Qed.




Section Commit.

Variable Keccak256 : bytes -> bytes.
Variable EncodeToBytes : rlp.item -> bytes.

Local Abbreviation finalize := (storage.finalize Keccak256 EncodeToBytes).
Local Abbreviation Hash_ := (ludicroustrie.Hash_ Keccak256 EncodeToBytes).
Local Abbreviation Commit := (ludicroustrie.Commit Keccak256 EncodeToBytes).

Section Prefixed.

Variable c : Collection.
Hypothesis Hprefix : prefix c <> [].









Lemma byte_slot (j : nat) : (j < 16)%nat -> byte (Z.of_nat j) = Z.of_nat j.
Proof. intros H. unfold byte. apply Z.mod_small. lia. Qed.

Lemma child_path_nibbles pre k (j : nat) :
  Forall is_nibble pre -> Forall is_nibble k -> (j < 16)%nat ->
  Forall is_nibble (child_path pre k j).
Proof.
  intros Hp Hk Hj. unfold child_path. rewrite !Forall_app.
  repeat split; try done. apply Forall_singleton. unfold is_nibble. lia.
Qed.



End Prefixed.


Section Unprefixed.

Variable c : Collection.
Hypothesis Hnoprefix : prefix c = [].

Lemma Store_unprefixed (path : Hex) (ver : Z) (enc : bytes) :
  Store c path ver enc = Panic.
Proof.
  unfold Store, maybeNonValuePrefix. rewrite Hnoprefix.
  pose proof (NewKey_returns path ver). by destruct (NewKey path ver).
Qed.

Lemma StoreValue_unprefixed (path : Hex) (ver : Z) (enc : bytes) :
  StoreValue c path ver enc = Panic.
Proof.
  unfold StoreValue, maybeValuePrefix. rewrite Hnoprefix.
  pose proof (NewKey_returns path ver). by destruct (NewKey path ver).
Qed.

Lemma tombstones_unprefixed (l : list (Hex * Z)) :
  foldr (fun '(p, version) acc =>
           x ← StoreValue c p version deletedValue;
           ws ← acc; Done (x :: ws)) (Done []) l
  = match l with [] => Done [] | _ => Panic end.
Proof.
  destruct l as [|[p v] l]; [done|]. cbn [foldr].
  by rewrite StoreValue_unprefixed.
Qed.

Lemma children_loop_panic
    (g : Node -> Hex -> exec (error + integritynode.Node * list put))
    (P : Hex) (cs : list Node) :
  forall i0 : nat,
  (forall j ch, cs !! j = Some ch ->
     (exists r, g ch (P ++ [byte (Z.of_nat (i0 + j))]) = Done (inr r))
     \/ g ch (P ++ [byte (Z.of_nat (i0 + j))]) = Panic) ->
  (exists j ch, cs !! j = Some ch
                /\ g ch (P ++ [byte (Z.of_nat (i0 + j))]) = Panic) ->
  (fix loop (cs : list Node) (i : nat)
     : exec (error + list integritynode.Node * list put) :=
     match cs with
     | [] => Done (inr ([], []))
     | child :: cs' =>
         r ←? g child (P ++ [byte (Z.of_nat i)]);
         rs ←? loop cs' (S i);
         Done (inr (r.1 :: rs.1, r.2 ++ rs.2))
     end) cs i0
  = Panic.
Proof.
  induction cs as [|ch cs IH]; intros i0 Hall (j & chj & Hj & Hpanic);
    [done|].
  destruct (Hall 0%nat ch eq_refl) as [(r & Hr) | Hp];
    rewrite Nat.add_0_r in *.
  - rewrite Hr. cbn [bind_res mbind exec_bind].
    rewrite (IH (S i0)); [done | |].
    + intros j' ch' Hj'. replace (S i0 + j')%nat with (i0 + S j')%nat by lia.
      by apply Hall.
    + destruct j as [|j].
      * injection Hj as ->. rewrite Nat.add_0_r in Hpanic.
        rewrite Hr in Hpanic. discriminate.
      * exists j, chj. split; [done|].
        by replace (S i0 + j)%nat with (i0 + S j)%nat by lia.
  - by rewrite Hp.
Qed.

(** Without a storage prefix every put panics, so the finalizer with a
    batch panics on every subtree of the invariant. *)
Lemma finalize_unprefixed (n : Node) :
  forall (pre : Hex) (force : bool),
  wf pre n -> Forall is_nibble pre ->
  finalize c n pre doStore force = Panic.
Proof.
  induction n as [| k v ver | k cs ver IH | v | h | h l ver | n dk IH]
    using Node_ind'; intros pre force Hw Hpre;
    inversion Hw as [? ? ? ? Hlen Hterm Hv
                    |? ? ? ? Hk Hlen Hcs Hch Hliv
                    |? ? ? Hn Hdk]; subst.
  - cbn [storage.finalize]. unfold finalizeLeafNode, doStore.
    rewrite to_compact_terminated by done. cbn [mbind exec_bind].
    rewrite andb_true_r, Store_unprefixed, StoreValue_unprefixed.
    unfold Join. rewrite length_app, Hlen. cbn [Nat.eqb negb pathLen].
    by destruct force.
  - cbn [storage.finalize].
    pose proof (children_loop_panic
                  (fun child pth => finalize c child pth doStore doNotForceHash)
                  (pre ++ k) cs 0) as Hloop.
    cbv beta zeta in Hloop. rewrite Hloop; [done | |].
    + intros j ch Hj. cbn [Nat.add].
      pose proof (lookup_lt_Some _ _ _ Hj) as Hj16.
      rewrite Hcs in Hj16. unfold NumChildren in Hj16.
      destruct (Hch j ch Hj) as [-> | Hwc]; [left; cbn; eauto|].
      right. rewrite byte_slot by done.
      rewrite Forall_lookup in IH.
      apply (IH j ch Hj (child_path pre k j) false Hwc).
      by apply child_path_nibbles.
    + destruct (living_exists cs) as (j & ch & Hj & Hnil); [lia|].
      exists j, ch. split; [done|]. cbn [Nat.add].
      pose proof (lookup_lt_Some _ _ _ Hj) as Hj16.
      rewrite Hcs in Hj16. unfold NumChildren in Hj16.
      rewrite byte_slot by done.
      rewrite Forall_lookup in IH.
      apply (IH j ch Hj (child_path pre k j) false).
      * by eapply isNil_false_wf.
      * by apply child_path_nibbles.
  - cbn [storage.finalize]. unfold doStore in *.
    rewrite tombstones_unprefixed, (IH pre force Hn Hpre).
    by destruct (map_to_list dk).
Qed.

End Unprefixed.

Variable LoadNode : Collection -> Hex -> Z -> exec (error + Node).
Variable LoadLeaf : Collection -> Hex -> Z -> exec (error + Node).
Variable LoadValue : Collection -> Hex -> Z -> exec (error + option bytes).
Variable loads : nat.

Local Abbreviation run :=
  (trie_model.run Keccak256 EncodeToBytes LoadNode LoadLeaf loads).

(** A run of calls changes neither the version nor the storage. *)
Lemma run_state (ops : list op) :
  forall t0, wf_root (root t0) -> Forall well_typed ops ->
  exists t,
    run t0 ops = Done t /\ wf_root (root t)
    /\ version t = version t0 /\ storage_ t = storage_ t0.
Proof.
  induction ops as [|o ops IH]; intros t0 Hw Hops; [by exists t0|].
  inversion Hops as [|? ? Ho Hops']; subst.
  destruct (apply_op_wf Keccak256 EncodeToBytes LoadNode LoadLeaf LoadValue
              loads t0 o Hw Ho) as (t1 & Hstep & Hw1 & Hv1 & Hs1 & _).
  destruct (IH t1 Hw1 Hops') as (t & Hrun & Hwt & Hv & Hs).
  exists t. cbn [trie_model.run]. rewrite Hstep. cbn [mbind exec_bind].
  split; [done|]. split; [done|]. split; congruence.
Qed.

(** X21: a trie created without a storage prefix cannot be committed once
    it holds a pair: each put of the batch panics on the empty prefix.
    While its root is the nil node, [Commit] returns the hash of the empty
    trie and advances the version. *)
Theorem X21_Commit_unprefixed (db : gmap (list Z) (list Z)) (version0 : Z)
    (ops : list op) :
  Forall well_typed ops ->
  exists t,
    run (NewEmptyLudicrousTrie db version0) ops = Done t
    /\ ((exists k v, valid_key k
                     /\ ludicroustrie.Get LoadValue t (Some k)
                        = Done (Some v, None)) ->
        Commit t = Panic)
    /\ (root t = Nil ->
        Commit t
        = Done (inr emptyRoot,
                mkTrie (uint32 (version t + 1)) Nil (NewCollection db))).
Proof.
  intros Hops.
  destruct (run_state ops (NewEmptyLudicrousTrie db version0)
              ltac:(by left) Hops) as (t & Hrun & Hw & Hv & Hs).
  exists t. split; [done|]. cbn [storage_ NewEmptyLudicrousTrie] in Hs.
  split.
  - intros (k & v & Hk & Hget).
    rewrite (Get_root LoadValue) in Hget by done.
    injection Hget as Hget.
    destruct Hw as [E | [[dk E] | Hw]].
    + by rewrite E, contents_Nil_eq, lookup_empty in Hget.
    + by rewrite E, contents_WithDeletedKeys_eq, contents_Nil_eq,
        map_filter_empty, lookup_empty in Hget.
    + unfold ludicroustrie.Commit, Finalize, doForceHash.
      cbn [root storage_ version].
      by rewrite (finalize_unprefixed (storage_ t)
                    ltac:(by rewrite Hs) (root t) [] true Hw).
  - intros E. unfold ludicroustrie.Commit, Finalize, doForceHash.
    cbn [root storage_ version]. rewrite E, Hs. reflexivity.
Qed.

End Commit.

Lemma X21_Commit_unprefixed_witness :
  exists t,
    trie_model.run idKeccak nullEncode noNode noNode 1
      (NewEmptyLudicrousTrie ∅ 0)
      [OpUpdate (Some (replicate 31 0 ++ [15])) (Some [2]);
       OpUpdate (Some (replicate 32 0)) (Some [3]);
       OpRemove (Some (replicate 31 0 ++ [15]))] = Done t
    /\ ludicroustrie.Commit idKeccak nullEncode t = Panic.
Proof.
  destruct (X21_Commit_unprefixed idKeccak nullEncode noNode noNode noValue 1
              ∅ 0 _ well_typed_sample) as (t & Hrun & Hpanic & _).
  exists t. split; [exact Hrun|]. apply Hpanic.
  exists (replicate 32 0), [3]. split; [exact valid_key_zero|].
  vm_compute in Hrun. injection Hrun as <-. vm_compute. reflexivity.
Defined.

End commit_props.


(** ** The tombstones that the calls leave *)

Module settled_props.
Import encoding versionnode storage ludicroustrie trie_model encoding_props trie_inv trie_top.









Section Calls.

Variable Keccak256 : bytes -> bytes.
Variable EncodeToBytes : rlp.item -> bytes.
Variable LoadNode : Collection -> Hex -> Z -> exec (error + Node).
Variable LoadLeaf : Collection -> Hex -> Z -> exec (error + Node).
Variable t : LudicrousTrie.
Variable loads : nat.

Local Abbreviation update :=
  (ludicroustrie.update Keccak256 EncodeToBytes LoadNode LoadLeaf t loads).
Local Abbreviation remove :=
  (ludicroustrie.remove Keccak256 EncodeToBytes LoadNode LoadLeaf t loads).






End Calls.


Section Runs.

Variable Keccak256 : bytes -> bytes.
Variable EncodeToBytes : rlp.item -> bytes.
Variable LoadNode : Collection -> Hex -> Z -> exec (error + Node).
Variable LoadLeaf : Collection -> Hex -> Z -> exec (error + Node).
Variable loads : nat.




End Runs.

End settled_props.


(** ** Commit on the tries a run reaches *)

Module commit_reachable.
Import encoding versionnode storage ludicroustrie trie_model encoding_props trie_inv trie_top hash_props trie_more
  commit_props settled_props.

Section Reachable.

Variable Keccak256 : bytes -> bytes.
Variable EncodeToBytes : rlp.item -> bytes.
Variable LoadNode : Collection -> Hex -> Z -> exec (error + Node).
Variable LoadLeaf : Collection -> Hex -> Z -> exec (error + Node).
Variable LoadValue : Collection -> Hex -> Z -> exec (error + option bytes).
Variable loads : nat.

Local Abbreviation Hash_ := (ludicroustrie.Hash_ Keccak256 EncodeToBytes).
Local Abbreviation Commit := (ludicroustrie.Commit Keccak256 EncodeToBytes).
Local Abbreviation run :=
  (trie_model.run Keccak256 EncodeToBytes LoadNode LoadLeaf loads).


End Reachable.


End commit_reachable.

(** ** The fridge after a truncation *)

Module vectordb_cut.
Import vectordb vectordb_props vectordb_more.

(** The fridge that an in-range [Truncate] leaves: the item count is the
    new length, the index file is cut to it, the data file is as it was. *)
Lemma Truncate_in_range_state (idx dat : file) (n len : Z) :
  0 <= len < n -> n < 2 ^ 59 ->
  Z.of_nat (length idx) = n * indexEntryLen ->
  Truncate (mkVectorDB n (Some idx) (Some dat)) len
  = (mkVectorDB len (Some (take (Z.to_nat (len * 16)) idx)) (Some dat),
     Some errEOF).
Proof.
  intros Hlen Hn Hidx. unfold Truncate; cbn [index data items].
  destruct (n <=? len) eqn:E; [apply Z.leb_le in E; lia|].
  rewrite (uint64_small (len * indexEntryLen)) by (unfold indexEntryLen; lia).
  unfold indexEntryLen in *.
  rewrite (int64_small (len * 16)) by lia. unfold file_Truncate.
  destruct (len * 16 <? 0) eqn:E2; [apply Z.ltb_lt in E2; lia|].
  replace (Z.to_nat (len * 16) - length idx)%nat with 0%nat by lia.
  cbn [replicate]. rewrite app_nil_r.
  unfold indexEntry_at, indexOffset, indexEntryLen.
  rewrite (int64_small len), (int64_small (len * 16)) by lia.
  unfold ReadAt. rewrite E2.
  set (got := take _ (drop _ _)).
  assert (Hg : length got = 0%nat).
  { unfold got. rewrite length_take, length_drop, length_take. lia. }
  rewrite Hg. reflexivity.
Qed.

Lemma index_image_take (bs : list bytes) (len : nat) (off : Z) :
  (len <= length bs)%nat ->
  take (16 * len) (index_image off bs) = index_image off (take len bs).
Proof.
  intros Hlen. rewrite <- (take_drop len bs) at 1.
  rewrite index_image_app. apply take_app_length'.
  rewrite index_image_length, length_take. lia.
Qed.

(** [Get] at a position whose index entry and blob are in place. *)
Lemma Get_entry (n : Z) (idx dat : file) (i off : nat) (b : bytes) :
  Z.of_nat i < n -> Z.of_nat i < 2 ^ 59 ->
  take 16 (drop (16 * i) idx)
  = marshallBinary (mkIndexEntry (Z.of_nat off) (Z.of_nat (length b))) ->
  Z.of_nat off + Z.of_nat (length b) < 2 ^ 63 ->
  take (length b) (drop off dat) = b ->
  Get (mkVectorDB n (Some idx) (Some dat)) (Z.of_nat i) = inr b.
Proof.
  intros Hi Hbound Hidx Hoff Hdat. unfold Get. cbn [index data items].
  destruct (Z.leb_spec n (Z.of_nat i)); [lia|].
  unfold indexEntry_at, indexOffset, indexEntryLen.
  rewrite (int64_small (Z.of_nat i)) by lia.
  rewrite int64_small by lia.
  unfold ReadAt at 1.
  destruct (Z.ltb_spec (Z.of_nat i * 16) 0); [lia|].
  replace (Z.to_nat (Z.of_nat i * 16)) with (16 * i)%nat by lia.
  change (Z.to_nat 16) with 16%nat.
  rewrite Hidx, marshallBinary_length. cbn [Nat.ltb Nat.leb].
  rewrite unmarshal_marshal by (cbn [offset length_]; lia).
  cbn [offset length_].
  rewrite int64_small by lia. unfold ReadAt.
  destruct (Z.ltb_spec (Z.of_nat off) 0); [lia|].
  rewrite !Nat2Z.id, Hdat.
  by rewrite Nat.ltb_irrefl.
Qed.

(** X25: [Truncate] to a smaller length returns [io.EOF], and yet the
    fridge it leaves works as the fridge cut to that length: after more
    blobs are appended, the item count is the new length plus the number
    of blobs appended, and [Get] returns the blobs kept followed by the
    blobs appended. *)
Theorem X25_Truncate_then_Append (bs bs2 : list bytes) (len : nat) :
  Z.of_nat (length bs) + Z.of_nat (length bs2) < 2 ^ 59 ->
  Z.of_nat (length (concat bs)) + Z.of_nat (length (concat bs2)) < 2 ^ 63 ->
  (len < length bs)%nat ->
  let cut := Truncate (append_all Open_fresh bs) (Z.of_nat len) in
  let f := append_all (fst cut) bs2 in
  snd cut = Some errEOF
  /\ Items (fst cut) = Z.of_nat len
  /\ Items f = Z.of_nat (len + length bs2)
  /\ forall (i : nat) (b : bytes),
       (take len bs ++ bs2) !! i = Some b ->
       Get f (Z.of_nat i) = inr b.
Proof.
  intros Hn Hsize Hlen cut f. unfold f, cut, Open_fresh.
  rewrite append_all_image by (cbn [length]; lia).
  cbn [length app]. rewrite !Z.add_0_l. change (Z.of_nat 0) with 0.
  rewrite Truncate_in_range_state
    by (rewrite ?index_image_length; unfold indexEntryLen; lia).
  cbn [fst snd]. split; [done|]. split; [done|].
  replace (Z.to_nat (Z.of_nat len * 16)) with (16 * len)%nat by lia.
  rewrite index_image_take by lia.
  rewrite append_all_image by lia.
  split; [unfold Items; cbn [items]; lia|].
  intros i b Hi.
  pose proof (lookup_lt_Some _ _ _ Hi) as Hlt.
  rewrite length_app, length_take in Hlt.
  destruct (decide (i < len)%nat) as [Hin | Hout].
  - rewrite lookup_app_l in Hi by (rewrite length_take; lia).
    pose proof Hi as Hbs. rewrite lookup_take_lt in Hbs by lia.
    pose proof (concat_take_length_lookup bs i b Hbs) as Hle.
    apply (Get_entry _ _ _ i (length (concat (take i bs))) b); [lia | lia | | lia |].
    + rewrite drop_app_le by (rewrite index_image_length, length_take; lia).
      rewrite take_app_le
        by (rewrite length_drop, index_image_length, length_take; lia).
      rewrite (index_image_read _ i b 0 Hi), Z.add_0_l.
      by rewrite take_take, Nat.min_l by lia.
    + rewrite drop_app_le by lia.
      rewrite take_app_le by (rewrite length_drop; lia).
      by apply concat_read.
  - rewrite lookup_app_r in Hi by (rewrite length_take; lia).
    rewrite length_take in Hi.
    replace (length bs) with (len + (length bs - len))%nat in Hi at 1 by lia.
    rewrite Nat.min_l in Hi by lia.
    set (j := (i - len)%nat) in *.
    pose proof (concat_take_length_lookup bs2 j b Hi) as Hle.
    apply (Get_entry _ _ _ i
             (length (concat bs) + length (concat (take j bs2))) b);
      [lia | lia | | lia |].
    + rewrite drop_app_ge by (rewrite index_image_length, length_take; lia).
      rewrite index_image_length, length_take.
      replace (16 * i - 16 * (len `min` length bs))%nat with (16 * j)%nat
        by lia.
      rewrite (index_image_read _ j b _ Hi). by rewrite Nat2Z.inj_add.
    + rewrite drop_app_ge by lia.
      replace (length (concat bs) + length (concat (take j bs2))
               - length (concat bs))%nat
        with (length (concat (take j bs2))) by lia.
      by apply concat_read.
Qed.

Lemma X25_Truncate_then_Append_witness :
  let cut := Truncate (append_all Open_fresh [[1]; [2; 2]; [3; 3; 3]]) 1 in
  let f := append_all (fst cut) [[4; 4]] in
  snd cut = Some errEOF
  /\ Items (fst cut) = 1
  /\ Items f = 2
  /\ Get f 0 = inr [1]
  /\ Get f 1 = inr [4; 4].
Proof.
  intros cut f.
  destruct (X25_Truncate_then_Append [[1]; [2; 2]; [3; 3; 3]] [[4; 4]] 1)
    as (H1 & H2 & H3 & H4); [simpl; lia | simpl; lia | simpl; lia |].
  split; [exact H1|]. split; [exact H2|]. split; [exact H3|]. split.
  - exact (H4 0%nat [1] eq_refl).
  - exact (H4 1%nat [4; 4] eq_refl).
Defined.

End vectordb_cut.

(** ** The loading constructors and the state-database wrapper *)

Module open_props.
Import encoding versionnode storage ludicroustrie trie_model encoding_props
  trie_inv trie_top hash_props trie_more.

Lemma bind_res_Done {A B} (m : exec (error + A)) (f : A -> exec (error + B))
    (b : B) :
  bind_res m f = Done (inr b) ->
  exists a, m = Done (inr a) /\ f a = Done (inr b).
Proof.
  unfold bind_res. destruct m as [[e|a]| |]; cbn; try done.
  intros H. by exists a.
Qed.

Lemma bytes_Equal_true (a b : bytes) : bytes_Equal a b = true -> a = b.
Proof. unfold bytes_Equal. by intros H%bool_decide_eq_true. Qed.

Lemma bytes_Equal_false (a b : bytes) : bytes_Equal a b = false -> a <> b.
Proof. unfold bytes_Equal. by intros H%bool_decide_eq_false. Qed.

Section Loading.

Variable Keccak256 : bytes -> bytes.
Variable EncodeToBytes : rlp.item -> bytes.
Variable LoadNode : Collection -> Hex -> Z -> exec (error + Node).
Variable LoadLeaf : Collection -> Hex -> Z -> exec (error + Node).
Variable LoadValue : Collection -> Hex -> Z -> exec (error + option bytes).
Variable LoadLatestRootNode : Collection -> Z -> exec (error + Node).
Variable loads : nat.

Local Abbreviation Hash_ := (ludicroustrie.Hash_ Keccak256 EncodeToBytes).
Local Abbreviation wrapper_Hash :=
  (ludicroustrie.wrapper_Hash Keccak256 EncodeToBytes).
Local Abbreviation checkRoot :=
  (ludicroustrie.checkRoot Keccak256 EncodeToBytes).
Local Abbreviation NewPrefixedLudicrousTrie :=
  (ludicroustrie.NewPrefixedLudicrousTrie Keccak256 EncodeToBytes LoadNode).
Local Abbreviation OpenTrie :=
  (ludicroustrie.OpenTrie Keccak256 EncodeToBytes LoadNode).
Local Abbreviation OpenStorageTrie :=
  (ludicroustrie.OpenStorageTrie Keccak256 EncodeToBytes LoadLatestRootNode).
Local Abbreviation TryGet := (ludicroustrie.TryGet Keccak256 LoadValue).
Local Abbreviation TryUpdate :=
  (ludicroustrie.TryUpdate Keccak256 EncodeToBytes LoadNode LoadLeaf).
Local Abbreviation TryDelete :=
  (ludicroustrie.TryDelete Keccak256 EncodeToBytes LoadNode LoadLeaf).
Local Abbreviation run :=
  (trie_model.run Keccak256 EncodeToBytes LoadNode LoadLeaf loads).

(** A trie passes the check of its root only with the requested hash, and
    comes out as it went in. *)
Lemma checkRoot_Done (trie t : LudicrousTrie) (hash : bytes) :
  checkRoot trie hash = Done (inr t) ->
  t = trie /\ Hash_ trie = Done (inr hash, storage_ trie).
Proof.
  unfold ludicroustrie.checkRoot, ludicroustrie.Hash_, Finalize, rootPath,
    doNotStore.
  destruct (finalize Keccak256 EncodeToBytes (storage_ trie) (root trie) []
              false doForceHash) as [[e|[i w]]| |]; cbn; try done.
  destruct i as [|h| | |]; cbn; try done.
  destruct (bytes_Equal h hash) eqn:E; cbn; [|done].
  apply bytes_Equal_true in E as ->. intros H. injection H as <-.
  by destruct trie.
Qed.

(** The two loading constructors differ in the loader only. *)
Lemma load_and_check (load : exec (error + Node)) (prefix : bytes)
    (db : gmap (list Z) (list Z)) (hash : bytes) (version0 : Z)
    (t : LudicrousTrie) :
  (let trie := NewEmptyPrefixedLudicrousTrie prefix db version0 in
   trie ←? (if negb (bytes_Equal hash emptyRoot)
            then root ←? load; Done (inr (set_root trie root))
            else Done (inr trie));
   checkRoot trie hash) = Done (inr t) ->
  Hash_ t = Done (inr hash, storage_ t)
  /\ version t = uint32 (version0 + 1)
  /\ storage_ t = NewPrefixedCollection prefix db
  /\ (hash = emptyRoot -> root t = Nil)
  /\ (hash <> emptyRoot -> load = Done (inr (root t))).
Proof.
  cbv zeta. intros H.
  apply bind_res_Done in H as (trie & Hload & Hcheck).
  apply checkRoot_Done in Hcheck as [-> Hhash].
  split; [done|].
  destruct (bytes_Equal hash emptyRoot) eqn:E; cbn [negb] in Hload.
  - apply bytes_Equal_true in E. injection Hload as <-.
    repeat split; try done.
  - apply bytes_Equal_false in E.
    apply bind_res_Done in Hload as (n & Hn & Hset). injection Hset as <-.
    repeat split; try done.
Qed.

(** X22: [NewPrefixedLudicrousTrie] returns a trie only when the root it
    has in place hashes to the requested hash: [Hash] of the trie returned
    is the requested hash, its version is the one after the requested
    version, and its root is the empty one for the hash of the empty trie
    and the node that [LoadNode] returns for the root path and the
    requested version otherwise. *)
Theorem X22_NewPrefixedLudicrousTrie_checks_hash (prefix : bytes)
    (db : gmap (list Z) (list Z)) (hash : bytes) (version0 : Z)
    (t : LudicrousTrie) :
  NewPrefixedLudicrousTrie prefix db hash version0 = Done (inr t) ->
  Hash_ t = Done (inr hash, storage_ t)
  /\ version t = uint32 (version0 + 1)
  /\ storage_ t = NewPrefixedCollection prefix db
  /\ (hash = emptyRoot -> root t = Nil)
  /\ (hash <> emptyRoot ->
      LoadNode (NewPrefixedCollection prefix db) rootPath version0
      = Done (inr (root t))).
Proof. apply load_and_check. Qed.

(** X24: a trie that [OpenTrie] or [OpenStorageTrie] returns has a storage
    prefix, the letter of the kind of trie, and the wrapper's [Hash] on it
    does not panic: it returns the requested root, except for the zero
    hash, for which the trie is the empty one and [Hash] returns the root
    hash of the empty trie. *)
Theorem X24_OpenTrie_hash (db0 : gmap (list Z) (list Z))
    (addrHash root0 : bytes) (version0 : Z) (t : LudicrousTrie) :
  OpenTrie db0 root0 version0 = Done (inr t)
  \/ OpenStorageTrie db0 addrHash root0 version0 = Done (inr t) ->
  wrapper_Hash t
  = Done (if bytes_Equal root0 zeroHash then emptyRoot else root0, storage_ t)
  /\ version t = uint32 (version0 + 1)
  /\ db (storage_ t) = db0
  /\ (prefix (storage_ t) = [121] \/ prefix (storage_ t) = 120 :: addrHash)
  /\ (root0 = zeroHash -> root t = Nil).
Proof.
  unfold ludicroustrie.OpenTrie, ludicroustrie.OpenStorageTrie,
    ludicroustrie.wrapper_Hash.
  destruct (bytes_Equal root0 zeroHash) eqn:E.
  - intros [H | H]; injection H as <-; cbn; repeat split; auto.
  - apply bytes_Equal_false in E.
    intros [H | H]; apply load_and_check in H as (H1 & H2 & H3 & _);
      rewrite H1, H3; cbn; repeat split; auto; done.
Qed.

Hypothesis Keccak256_size : forall b : bytes, valid_key (Keccak256 b).

(** X23: the wrapper takes keys of any length, the nil key too, since it
    hashes them first.  On a trie that any run of calls has built from an
    empty one: [TryUpdate] returns no error, and afterwards [TryGet]
    returns the new value for every key with the same digest and what it
    returned before for every other key; [TryDelete] returns no error, and
    afterwards [TryGet] returns nothing for every key with the same digest
    and what it returned before for every other key; and the wrapper's
    [Hash] does not panic. *)
Theorem X23_wrapper_any_key (prefix : bytes) (db : gmap (list Z) (list Z))
    (version0 : Z) (ops : list op) (key : option bytes) (v : bytes) :
  Forall well_typed ops -> valid_value v ->
  exists t,
    run (NewEmptyPrefixedLudicrousTrie prefix db version0) ops = Done t
    /\ (exists t1,
          TryUpdate t loads key (Some v) = Done (t1, None)
          /\ forall key' : option bytes,
               TryGet t1 key'
               = if decide (hashKey Keccak256 key' = hashKey Keccak256 key)
                 then Done (Some v, None) else TryGet t key')
    /\ (exists t2,
          TryDelete t loads key = Done (t2, None)
          /\ forall key' : option bytes,
               TryGet t2 key'
               = if decide (hashKey Keccak256 key' = hashKey Keccak256 key)
                 then Done (None, None) else TryGet t key')
    /\ (exists h, wrapper_Hash t = Done (h, storage_ t)).
Proof.
  intros Hops Hv.
  destruct (run_wf Keccak256 EncodeToBytes LoadNode LoadLeaf LoadValue loads
              ops _ (empty_trie_wf_root prefix db version0) Hops)
    as (t & Hrun & Hw & _).
  exists t. split; [done|].
  unfold ludicroustrie.TryUpdate, ludicroustrie.TryDelete,
    ludicroustrie.TryGet, hashKey.
  set (k := Keccak256 (default [] key)).
  pose proof (Keccak256_size (default [] key)) as Hk. fold k in Hk.
  split; [|split].
  - destruct (Update_root Keccak256 EncodeToBytes LoadNode LoadLeaf
                LoadValue loads t k v Hw Hk Hv) as (t1 & st & Hu & Hw1 & Hc & _).
    exists t1. split.
    { by rewrite (Update_of_status Keccak256 EncodeToBytes LoadNode LoadLeaf
                    loads _ _ _ _ Hu). }
    intros key'. set (k' := Keccak256 (default [] key')).
    pose proof (Keccak256_size (default [] key')) as Hk'. fold k' in Hk'.
    rewrite !(Get_root LoadValue) by done. rewrite Hc.
    destruct (decide (Some k' = Some k)) as [E | E].
    + injection E as ->. by rewrite lookup_insert_eq.
    + rewrite lookup_insert_ne; [done|].
      intros Heq. apply Keybytes_Hex_inj in Heq. congruence.
  - destruct (Remove_root Keccak256 EncodeToBytes LoadNode LoadLeaf
                LoadValue loads t k Hw Hk) as (t2 & st & Hr & Hw2 & Hc & _).
    exists t2. split.
    { by rewrite (Remove_of_status Keccak256 EncodeToBytes LoadNode LoadLeaf
                    loads _ _ _ Hr). }
    intros key'. set (k' := Keccak256 (default [] key')).
    pose proof (Keccak256_size (default [] key')) as Hk'. fold k' in Hk'.
    rewrite !(Get_root LoadValue) by done. rewrite Hc.
    destruct (decide (Some k' = Some k)) as [E | E].
    + injection E as ->. by rewrite lookup_delete_eq.
    + rewrite lookup_delete_ne; [done|].
      intros Heq. apply Keybytes_Hex_inj in Heq. congruence.
  - unfold ludicroustrie.wrapper_Hash.
    rewrite (Hash_contents Keccak256 EncodeToBytes t Hw).
    cbn [mbind exec_bind fst snd]. eauto.
Qed.

End Loading.

Lemma padKeccak_size (b : bytes) : valid_key (padKeccak b).
Proof.
  unfold padKeccak, valid_key, keySize. split.
  - rewrite length_map, length_take, length_app, length_replicate. lia.
  - apply Forall_fmap, Forall_forall. intros x _. unfold is_byte, byte. cbn.
    apply Z.mod_pos_bound. lia.
Qed.

Lemma X22_NewPrefixedLudicrousTrie_checks_hash_witness :
  let leaf := Leaf (replicate 64 0 ++ [16]) [1] 3 in
  let t := mkTrie 4 leaf (NewPrefixedCollection [121] ∅) in
  ludicroustrie.Hash_ idKeccak nullEncode t = Done (inr [], storage_ t)
  /\ version t = uint32 (3 + 1)
  /\ storage_ t = NewPrefixedCollection [121] ∅
  /\ ([] = emptyRoot -> root t = Nil)
  /\ ([] <> emptyRoot ->
      (Done (inr leaf) : exec (error + Node)) = Done (inr (root t))).
Proof.
  intros leaf t.
  apply (X22_NewPrefixedLudicrousTrie_checks_hash idKeccak nullEncode
           (fun _ _ _ => Done (inr leaf) : exec (error + Node)) [121] ∅ [] 3 t).
  vm_compute. reflexivity.
Defined.

Lemma X23_wrapper_any_key_witness :
  exists t,
    trie_model.run padKeccak nullEncode noNode noNode 1
      (NewEmptyPrefixedLudicrousTrie [121] ∅ 0)
      [OpUpdate (Some (replicate 31 0 ++ [15])) (Some [2]);
       OpUpdate (Some (replicate 32 0)) (Some [3]);
       OpRemove (Some (replicate 31 0 ++ [15]))] = Done t
    /\ (exists t1,
          ludicroustrie.TryUpdate padKeccak nullEncode noNode noNode t 1
            None (Some [1]) = Done (t1, None)
          /\ forall key' : option bytes,
               ludicroustrie.TryGet padKeccak noValue t1 key'
               = if decide (hashKey padKeccak key' = hashKey padKeccak None)
                 then Done (Some [1], None)
                 else ludicroustrie.TryGet padKeccak noValue t key')
    /\ (exists t2,
          ludicroustrie.TryDelete padKeccak nullEncode noNode noNode t 1 None
          = Done (t2, None)
          /\ forall key' : option bytes,
               ludicroustrie.TryGet padKeccak noValue t2 key'
               = if decide (hashKey padKeccak key' = hashKey padKeccak None)
                 then Done (None, None)
                 else ludicroustrie.TryGet padKeccak noValue t key')
    /\ (exists h,
          ludicroustrie.wrapper_Hash padKeccak nullEncode t
          = Done (h, storage_ t)).
Proof.
  apply (X23_wrapper_any_key padKeccak nullEncode noNode noNode noValue 1
           padKeccak_size [121] ∅ 0 _ None [1] well_typed_sample
           valid_value_one).
Defined.

Lemma X24_OpenTrie_hash_witness :
  let leaf := Leaf (replicate 64 0 ++ [16]) [1] 3 in
  let t := mkTrie 4 leaf (NewPrefixedCollection [121] ∅) in
  ludicroustrie.wrapper_Hash idKeccak nullEncode t
  = Done (if bytes_Equal [] zeroHash then emptyRoot else [], storage_ t)
  /\ version t = uint32 (3 + 1)
  /\ db (storage_ t) = ∅
  /\ (prefix (storage_ t) = [121] \/ prefix (storage_ t) = 120 :: [])
  /\ ([] = zeroHash -> root t = Nil).
Proof.
  intros leaf t.
  apply (X24_OpenTrie_hash idKeccak nullEncode
           (fun _ _ _ => Done (inr leaf) : exec (error + Node))
           (fun _ _ => Done (inl (errStorage 0)) : exec (error + Node))
           ∅ [] [] 3 t).
  left. vm_compute. reflexivity.
Defined.

End open_props.
